(** * The password manager of [src/password/index.js]

    A shallow embedding of the two components that make up the core of the
    password manager: [CryptoManager] (key derivation, authenticated
    encryption of a JSON payload, base64 transport encoding) and
    [PasswordManager] (session life cycle, record and category operations,
    persistence to [localStorage]), followed by the properties of the
    specification that concern them.

    - JavaScript values are the inductive type [value]: strings are
      sequences of code units below 256 (Latin-1 text), numbers are
      integers, arrays are lists and objects are association lists.  Values
      carry no identity: two objects are never strictly equal.  Text with
      code units from 256 on is outside the model, and so is what is
      particular to it ([toLowerCase] there depends on the context of a
      letter).
    - The browser (Web Crypto, [TextEncoder], [JSON], [Date]) is the class
      [Platform], an interface with the contracts of those APIs; [btoa] and
      [atob] are executable definitions of the algorithms of the HTML
      standard.
    - A method runs in a state and exception monad over [World], the manager
      object with the part of the browser it touches.  What a method wrote
      before it threw stays written, as in JavaScript.  The methods are
      [async] but the page runs one at a time; each is one computation here.
    - Of the document the model keeps the visible screen; the rendering of
      categories and cards is kept as far as it can throw: what it reads
      of the vault, and the [TypeError] it ends in on a value that has no
      such property or method or does not convert to text.  The timeouts
      in the model are those the manager arms, whose callback locks it; the
      timeouts of a toast, which only take the toast off the document, are
      the document's.
    - An engine lets a call spread only so many arguments:
      [String.fromCharCode(...bytes)] throws a [RangeError] past the
      engine's limit, a number of the platform.  The quota of the store is
      left out: a blob within that limit is far below it.
    - What the specification says of wrong passphrases and of tampering
      holds of ideal primitives only; it is proved from the contracts of
      the class [Ideal], which the executable platform satisfies.
    - Around the manager the page has handlers: the submit handlers of the
      setup, login and password forms, the lock button, the activity
      listeners and the session timeout, with [escapeHtml] and the strength
      meter.  Of a toast the model keeps that it was shown.  They are
      embedded after the manager (module [Page]), and their properties
      follow those of the specification. *)

From Stdlib Require Import ZArith List String Ascii Lia Bool.
From Stdlib.Strings Require Import Byte.
From stdpp Require Import base option list gmap strings pretty.

Local Open Scope Z_scope.
Set Warnings "-register-all,-clear-no-such-hyp".

(** ** JavaScript values *)

(** Strings are sequences of code units below 256 (Rocq's [string]); numbers
    are the integers.  Objects are association lists in property order. *)
Inductive value : Type :=
| JUndefined
| JNull
| JBool (b : bool)
| JNum (z : Z)
| JStr (s : string)
| JArr (xs : list value)
| JObj (props : list (string * value)).

Inductive error : Type :=
| Error (message : string)
| TypeError
| RangeError
| InvalidCharacterError.

Inductive result (A : Type) : Type :=
| Ok (a : A)
| Throw (e : error).
Arguments Ok {A} a.
Arguments Throw {A} e.

(** The three messages the program throws, under the names of the error
    taxonomy. *)
Definition WeakPasswordError : error :=
  Error "Master password must be at least 8 characters".
Definition AuthenticationError : error :=
  Error "Incorrect master password".
Definition DecryptionError : error :=
  Error "Decryption failed - incorrect password".

(** [ToBoolean]. *)
Definition truthy (v : value) : bool :=
  match v with
  | JUndefined | JNull => false
  | JBool b => b
  | JNum z => negb (z =? 0)
  | JStr s => negb (String.eqb s "")
  | JArr _ | JObj _ => true
  end.

(** [a || b]. *)
Definition js_or (a b : value) : value := if truthy a then a else b.

(** [a === b].  Arrays and objects compare by identity; an argument of a
    method is never the very object held in the vault, so they differ. *)
Definition strict_equal (a b : value) : bool :=
  match a, b with
  | JUndefined, JUndefined => true
  | JNull, JNull => true
  | JBool x, JBool y => Bool.eqb x y
  | JNum x, JNum y => x =? y
  | JStr x, JStr y => String.eqb x y
  | _, _ => false
  end.

Fixpoint assoc_get (k : string) (o : list (string * value)) : option value :=
  match o with
  | [] => None
  | (k', v) :: o' => if String.eqb k k' then Some v else assoc_get k o'
  end.

(** Assignment to a property: an existing key keeps its place, a new key goes
    last. *)
Fixpoint assoc_set (k : string) (v : value) (o : list (string * value))
  : list (string * value) :=
  match o with
  | [] => [(k, v)]
  | (k', v') :: o' =>
      if String.eqb k k' then (k, v) :: o' else (k', v') :: assoc_set k v o'
  end.

(** [v.k] for the property names the program reads ([id], [name], [website],
    [username], [password], [category], [notes], [createdDate], [passwords],
    [categories]):
    none of them is a built-in property of a primitive or of an array. *)
Definition Get (v : value) (k : string) : result value :=
  match v with
  | JUndefined | JNull => Throw TypeError
  | JObj o => Ok (default JUndefined (assoc_get k o))
  | _ => Ok JUndefined
  end.

(** [v.k = x] in strict mode (class bodies are strict).  The program assigns
    only after [v.k === name] held for a string [name], hence to an object. *)
Definition Put (v : value) (k : string) (x : value) : result value :=
  match v with
  | JObj o => Ok (JObj (assoc_set k x o))
  | _ => Throw TypeError
  end.

Definition indexed (xs : list value) : list (string * value) :=
  imap (fun i x => (pretty i, x)) xs.

(** The own enumerable properties that an object spread [{...v}] copies. *)
Definition own_props (v : value) : list (string * value) :=
  match v with
  | JObj o => o
  | JArr xs => indexed xs
  | JStr s =>
      indexed (map (fun c => JStr (String c EmptyString)) (list_ascii_of_string s))
  | _ => []
  end.

(** Copying properties into an object literal under construction. *)
Definition assign_all (o : list (string * value)) (ps : list (string * value))
  : list (string * value) :=
  fold_left (fun acc kv => assoc_set (fst kv) (snd kv) acc) ps o.

(** The conversion of a value to text ([String(v)], a template literal, a
    property key, the argument of [new Date]), as far as it can throw.  An
    object converts through its methods [toString] and [valueOf]; an own
    property [toString] (a value of JSON, never a function) hides the
    method of the prototype, and then no conversion of the object returns.
    An array converts by joining the conversions of its elements,
    [undefined] and [null] as the empty text. *)
Fixpoint converts (v : value) : bool :=
  match v with
  | JObj o =>
      match assoc_get "toString" o with
      | Some _ => false
      | None => true
      end
  | JArr xs => forallb converts xs
  | _ => true
  end.

Definition ToString (v : value) : result unit :=
  if converts v then Ok tt else Throw TypeError.

(** *** Strings *)

(** [String.prototype.toLowerCase] on code units below 256: the letters A-Z
    and the Latin-1 capitals (0xC0-0xDE without the sign 0xD7) move down by
    32, each by itself.  (From code unit 256 on the method is no longer a
    map of code units: a capital sigma lowers by its place in the word.
    Such text is outside the model.) *)
Definition lower_char (c : ascii) : ascii :=
  let n := nat_of_ascii c in
  if ((65 <=? n)%nat && (n <=? 90)%nat)
     || ((192 <=? n)%nat && (n <=? 222)%nat && negb (n =? 215)%nat)
  then ascii_of_nat (n + 32)
  else c.

Fixpoint toLowerCase (s : string) : string :=
  match s with
  | EmptyString => EmptyString
  | String c s' => String (lower_char c) (toLowerCase s')
  end.

(** [s.includes(sub)] for strings. *)
Fixpoint includes (s sub : string) : bool :=
  String.prefix sub s ||
  match s with
  | EmptyString => false
  | String _ s' => includes s' sub
  end.

(** [v.toLowerCase()]: only strings have the method. *)
Definition call_toLowerCase (v : value) : result string :=
  match v with
  | JStr s => Ok (toLowerCase s)
  | _ => Throw TypeError
  end.

(** ** Binary data and base64 *)

(** A [Uint8Array] is a list of bytes; the number a byte stands for is
    [byte_val]. *)
Definition byte_val (b : byte) : Z := Z.of_N (Byte.to_N b).

Definition byte_of_Z (z : Z) : byte :=
  default x00 (Byte.of_N (Z.to_N (z mod 256))).

(** The binary string of a byte array: what [String.fromCharCode(...bytes)]
    returns when the engine accepts that many arguments ([spread] below). *)
Definition fromCharCode (bs : list byte) : string := string_of_list_byte bs.

(** [Uint8Array.from(s, c => c.charCodeAt(0))]. *)
Definition charCodes (s : string) : list byte := list_byte_of_string s.

Definition alphabet : string :=
  "ABCDEFGHIJKLMNOPQRSTUVWXYZabcdefghijklmnopqrstuvwxyz0123456789+/".

Definition pad_char : ascii := "="%char.

Definition sextet_char (n : Z) : ascii :=
  default pad_char (String.get (Z.to_nat n) alphabet).

Fixpoint index_of (c : ascii) (s : string) : option Z :=
  match s with
  | EmptyString => None
  | String c' s' =>
      if Ascii.eqb c c' then Some 0 else Z.succ <$> index_of c s'
  end.

Definition char_sextet (c : ascii) : option Z := index_of c alphabet.

(** The base64 text of a byte array, three bytes to four characters, the
    last group padded with [=]. *)
Fixpoint base64_chars (bs : list byte) : list ascii :=
  match bs with
  | [] => []
  | [a] =>
      [sextet_char (byte_val a / 4); sextet_char (byte_val a mod 4 * 16);
       pad_char; pad_char]
  | [a; b] =>
      [sextet_char (byte_val a / 4);
       sextet_char (byte_val a mod 4 * 16 + byte_val b / 16);
       sextet_char (byte_val b mod 16 * 4); pad_char]
  | a :: b :: c :: rest =>
      sextet_char (byte_val a / 4)
      :: sextet_char (byte_val a mod 4 * 16 + byte_val b / 16)
      :: sextet_char (byte_val b mod 16 * 4 + byte_val c / 64)
      :: sextet_char (byte_val c mod 64)
      :: base64_chars rest
  end.

(** [btoa(s)].  Every code unit of a modelled string is below 256, so the
    call never throws. *)
Definition btoa (s : string) : string :=
  string_of_list_ascii (base64_chars (charCodes s)).

(** TAB, LF, FF, CR and SPACE. *)
Definition is_ascii_whitespace (c : ascii) : bool :=
  let n := nat_of_ascii c in
  (n =? 9)%nat || (n =? 10)%nat || (n =? 12)%nat || (n =? 13)%nat
  || (n =? 32)%nat.

(** When the length is a multiple of four, one or two final [=] go. *)
Definition strip_padding (l : list ascii) : list ascii :=
  if (length l mod 4 =? 0)%nat then
    match rev l with
    | c1 :: c2 :: r =>
        if Ascii.eqb c1 pad_char then
          if Ascii.eqb c2 pad_char then rev r else rev (c2 :: r)
        else l
    | [c1] => if Ascii.eqb c1 pad_char then [] else l
    | [] => l
    end
  else l.

(** Sextets to bytes; of a final group of two or three sextets the bits
    beyond the last whole byte are dropped. *)
Fixpoint sextets_bytes (ss : list Z) : list byte :=
  match ss with
  | s1 :: s2 :: s3 :: s4 :: rest =>
      byte_of_Z (s1 * 4 + s2 / 16)
      :: byte_of_Z (s2 mod 16 * 16 + s3 / 4)
      :: byte_of_Z (s3 mod 4 * 64 + s4)
      :: sextets_bytes rest
  | [s1; s2; s3] =>
      [byte_of_Z (s1 * 4 + s2 / 16); byte_of_Z (s2 mod 16 * 16 + s3 / 4)]
  | [s1; s2] => [byte_of_Z (s1 * 4 + s2 / 16)]
  | _ => []
  end.

(** [atob(s)]: the forgiving base64 decoding of the HTML standard. *)
Definition atob (s : string) : result string :=
  let data :=
    strip_padding
      (List.filter (fun c => negb (is_ascii_whitespace c))
                   (list_ascii_of_string s)) in
  if (length data mod 4 =? 1)%nat then Throw InvalidCharacterError
  else match mapM char_sextet data with
       | None => Throw InvalidCharacterError
       | Some ss => Ok (fromCharCode (sextets_bytes ss))
       end.

(** ** The browser platform *)

(** Web Crypto, the text codecs, [JSON] and [Date] formatting, and the
    engine's limit on the arguments of a call, with their contracts: AES-GCM
    decryption inverts encryption under the same key and nonce; UTF-8
    decoding inverts encoding, and the character U+0000 encodes as the byte
    0; PBKDF2 uses its key material as an HMAC key, which HMAC pads with zero
    bytes up to the block size of the hash (64 bytes for SHA-256, RFC 2104),
    so a zero byte after material shorter than a block does not change the
    derived key; a digest (32 bytes) is within the limit on arguments. *)
Class Platform : Type := {
  CryptoKey : Type;
  (** [subtle.importKey] then [subtle.deriveKey] with PBKDF2 over SHA-256:
      key material, salt, iterations; the result is an AES-GCM 256 key. *)
  PBKDF2_AES_key : list byte -> list byte -> Z -> CryptoKey;
  (** [subtle.encrypt({name: 'AES-GCM', iv}, key, data)]. *)
  AES_GCM_encrypt : CryptoKey -> list byte -> list byte -> list byte;
  (** [subtle.decrypt]; [None] is the rejected promise. *)
  AES_GCM_decrypt : CryptoKey -> list byte -> list byte -> option (list byte);
  SHA256 : list byte -> list byte;
  TextEncoder_encode : string -> list byte;
  TextDecoder_decode : list byte -> string;
  (** [JSON.stringify]; [None] is the result [undefined]. *)
  JSON_stringify : value -> option string;
  (** [JSON.parse]; [None] is a thrown [SyntaxError]. *)
  JSON_parse : string -> option value;
  Date_toISOString : Z -> string;
  (** The most arguments a call may spread: past it, [f(...array)] throws a
      [RangeError]. *)
  argument_limit : nat;
  AES_GCM_decrypt_encrypt : forall k iv pt,
    AES_GCM_decrypt k iv (AES_GCM_encrypt k iv pt) = Some pt;
  TextDecoder_decode_encode : forall s,
    TextDecoder_decode (TextEncoder_encode s) = s;
  TextEncoder_encode_NUL : forall s,
    TextEncoder_encode (s +:+ String Ascii.zero EmptyString)
    = TextEncoder_encode s ++ [x00];
  PBKDF2_zero_padded_key : forall material salt iterations,
    (length material < 64)%nat ->
    PBKDF2_AES_key (material ++ [x00]) salt iterations
    = PBKDF2_AES_key material salt iterations;
  SHA256_within_limit : forall data,
    (length (SHA256 data) <= argument_limit)%nat
}.

(** [String.fromCharCode(...bytes)]: every byte is an argument of the
    call. *)
Definition spread `{Platform} (bytes : list byte) : result string :=
  if (length bytes <=? argument_limit)%nat then Ok (fromCharCode bytes)
  else Throw RangeError.

(** A payload is JSON-serializable when [JSON.stringify] yields a text that
    [JSON.parse] reads back as the same value. *)
Definition JSON_serializable `{Platform} (v : value) : Prop :=
  exists s, JSON_stringify v = Some s /\ JSON_parse s = Some v.

(** ** The running page *)

Inductive Screen : Type := SetupScreen | LoginScreen | MainApp.

(** The fields of a [PasswordManager] instance.  [passwords] and
    [categories] hold whatever value was last assigned, normally arrays. *)
Record Manager : Type := mkManager {
  masterPassword : option string;
  passwords : value;
  categories : value;
  sessionTimeout : option positive;
  isLocked : bool
}.

(** The manager object together with the part of the browser it touches:
    [localStorage], the random source and the clock (each a sequence of
    outcomes and the number already consumed), the pending timeouts that
    the manager armed (the session's: their callback is [lock]), the number
    of activity listeners registered, and the visible screen. *)
Record World : Type := mkWorld {
  this : Manager;
  localStorage : gmap string string;
  entropy : nat -> byte;
  drawn : nat;
  clock : nat -> Z;
  ticks : nat;
  timers : gset positive;
  next_timer : positive;
  listeners : nat;
  screen : Screen
}.

Definition with_this (f : Manager -> Manager) (w : World) : World :=
  mkWorld (f (this w)) (localStorage w) (entropy w) (drawn w) (clock w)
          (ticks w) (timers w) (next_timer w) (listeners w) (screen w).

Definition with_localStorage (f : gmap string string -> gmap string string)
  (w : World) : World :=
  mkWorld (this w) (f (localStorage w)) (entropy w) (drawn w) (clock w)
          (ticks w) (timers w) (next_timer w) (listeners w) (screen w).

Definition with_drawn (n : nat) (w : World) : World :=
  mkWorld (this w) (localStorage w) (entropy w) n (clock w)
          (ticks w) (timers w) (next_timer w) (listeners w) (screen w).

Definition with_ticks (n : nat) (w : World) : World :=
  mkWorld (this w) (localStorage w) (entropy w) (drawn w) (clock w)
          n (timers w) (next_timer w) (listeners w) (screen w).

Definition with_timers (f : gset positive -> gset positive) (w : World)
  : World :=
  mkWorld (this w) (localStorage w) (entropy w) (drawn w) (clock w)
          (ticks w) (f (timers w)) (next_timer w) (listeners w) (screen w).

Definition with_next_timer (p : positive) (w : World) : World :=
  mkWorld (this w) (localStorage w) (entropy w) (drawn w) (clock w)
          (ticks w) (timers w) p (listeners w) (screen w).

Definition with_listeners (n : nat) (w : World) : World :=
  mkWorld (this w) (localStorage w) (entropy w) (drawn w) (clock w)
          (ticks w) (timers w) (next_timer w) n (screen w).

Definition with_screen (s : Screen) (w : World) : World :=
  mkWorld (this w) (localStorage w) (entropy w) (drawn w) (clock w)
          (ticks w) (timers w) (next_timer w) (listeners w) s.

Definition set_masterPassword (p : option string) (m : Manager) : Manager :=
  mkManager p (passwords m) (categories m) (sessionTimeout m) (isLocked m).
Definition set_passwords (v : value) (m : Manager) : Manager :=
  mkManager (masterPassword m) v (categories m) (sessionTimeout m) (isLocked m).
Definition set_categories (v : value) (m : Manager) : Manager :=
  mkManager (masterPassword m) (passwords m) v (sessionTimeout m) (isLocked m).
Definition set_sessionTimeout (t : option positive) (m : Manager) : Manager :=
  mkManager (masterPassword m) (passwords m) (categories m) t (isLocked m).
Definition set_isLocked (b : bool) (m : Manager) : Manager :=
  mkManager (masterPassword m) (passwords m) (categories m) (sessionTimeout m) b.

(** *** Computations *)

(** A computation runs in a world and ends with a value or a thrown error;
    either way the world it leaves is the one it reached. *)
Definition M (A : Type) : Type := World -> result A * World.

Definition result_bind {A B : Type} (r : result A) (f : A -> result B)
  : result B :=
  match r with
  | Ok a => f a
  | Throw e => Throw e
  end.

Definition ret {A : Type} (a : A) : M A := fun w => (Ok a, w).
Definition bind {A B : Type} (m : M A) (f : A -> M B) : M B := fun w =>
  match m w with
  | (Ok a, w') => f a w'
  | (Throw e, w') => (Throw e, w')
  end.

Notation "'let?' x ':=' r 'in' k" := (result_bind r (fun x => k))
  (at level 10, x name, r at level 100, k at level 200).
Notation "'let!' x ':=' m 'in' k" := (bind m (fun x => k))
  (at level 10, x name, m at level 100, k at level 200).
Notation "m ';;' k" := (bind m (fun _ => k))
  (at level 100, k at level 200, right associativity).

Definition throw {A : Type} (e : error) : M A := fun w => (Throw e, w).
Definition lift {A : Type} (r : result A) : M A := fun w => (r, w).
Definition gets {A : Type} (f : World -> A) : M A := fun w => (Ok (f w), w).
Definition modify (f : World -> World) : M unit := fun w => (Ok tt, f w).

(** [arr.filter(p)] and [arr.findIndex(p)] for a callback that may throw. *)
Fixpoint filterM (p : value -> result bool) (xs : list value)
  : result (list value) :=
  match xs with
  | [] => Ok []
  | x :: rest =>
      let? b := p x in
      let? kept := filterM p rest in
      Ok (if b then x :: kept else kept)
  end.

Fixpoint findIndex (p : value -> result bool) (xs : list value)
  : result (option nat) :=
  match xs with
  | [] => Ok None
  | x :: rest =>
      let? b := p x in
      if b then Ok (Some 0%nat)
      else let? i := findIndex p rest in Ok (S <$> i)
  end.

(** [crypto.getRandomValues(new Uint8Array(n))]. *)
Definition getRandomValues (n : nat) : M (list byte) := fun w =>
  (Ok (map (entropy w) (seq (drawn w) n)), with_drawn (drawn w + n) w).

(** [Date.now()]. *)
Definition Date_now : M Z := fun w =>
  (Ok (clock w (ticks w)), with_ticks (S (ticks w)) w).

(** [localStorage.getItem(k)] ([None] is [null]) and
    [localStorage.setItem(k, v)]. *)
Definition getItem (k : string) : M (option string) :=
  gets (fun w => localStorage w !! k).
Definition setItem (k v : string) : M unit :=
  modify (with_localStorage (fun store => <[k := v]> store)).

(** [setTimeout(f, ms)] as the manager calls it, with the callback that
    locks: it returns a fresh handle, a name for this timeout among the
    manager's (the numbers a browser hands out are shared with the other
    timeouts of the page; nothing reads them).  [clearTimeout]. *)
Definition setTimeout : M positive := fun w =>
  (Ok (next_timer w),
   with_next_timer (Pos.succ (next_timer w))
     (with_timers (fun ts => {[next_timer w]} ∪ ts) w)).
Definition clearTimeout (t : positive) : M unit :=
  modify (with_timers (fun ts => ts ∖ {[t]})).

(** ** [CryptoManager] *)

Module CryptoManager.
Section with_platform.
Context `{Platform}.

Definition deriveKey (password : string) (salt : list byte) : CryptoKey :=
  let keyMaterial := TextEncoder_encode password in
  PBKDF2_AES_key keyMaterial salt 100000.

(** [encoder.encode(JSON.stringify(data))]: the argument [undefined] encodes
    as the empty string. *)
Definition plaintext (data : value) : list byte :=
  TextEncoder_encode (default EmptyString (JSON_stringify data)).

Definition encrypt (data : value) (password : string) : M string :=
  let! salt := getRandomValues 16 in
  let! iv := getRandomValues 12 in
  let key := deriveKey password salt in
  let encrypted := AES_GCM_encrypt key iv (plaintext data) in
  let combined := salt ++ iv ++ encrypted in
  let! binary := lift (spread combined) in
  ret (btoa binary).

(** The body of the [try] block: whatever fails in it is rethrown as the one
    error of the [catch] clause. *)
Definition open_sealed (key : CryptoKey) (iv encrypted : list byte)
  : result value :=
  match AES_GCM_decrypt key iv encrypted with
  | None => Throw DecryptionError
  | Some decrypted =>
      match JSON_parse (TextDecoder_decode decrypted) with
      | None => Throw DecryptionError
      | Some data => Ok data
      end
  end.

Definition decrypt (encryptedData : string) (password : string)
  : result value :=
  let? binary := atob encryptedData in
  let combined := charCodes binary in
  let salt := take 16 combined in
  let iv := take 12 (drop 16 combined) in
  let encrypted := drop 28 combined in
  let key := deriveKey password salt in
  open_sealed key iv encrypted.

(** The digest is spread too; it is within the limit
    ([SHA256_within_limit]), so this call of [String.fromCharCode] returns
    the binary string. *)
Definition hashPassword (password : string) : string :=
  btoa (fromCharCode (SHA256 (TextEncoder_encode password))).

End with_platform.
End CryptoManager.

(** ** [PasswordManager] *)

Module PasswordManager.
Section with_platform.
Context `{Platform}.

(** The [constructor]. *)
Definition new : Manager :=
  mkManager None (JArr [])
    (JArr [JStr "Personal"; JStr "Work"; JStr "Banking"; JStr "Social Media";
           JStr "Shopping"; JStr "Other"])
    None true.

(** A [null] password reaches the text encoder as the string [null]. *)
Definition USVString (p : option string) : string := default "null"%string p.

Definition new_Date_toISOString : M string :=
  let! t := Date_now in ret (Date_toISOString t).

(** *** Searching and rendering *)

Definition in_category (category : value) (p : value) : result bool :=
  let? c := Get p "category" in Ok (strict_equal c category).

Definition field_includes (p : value) (k : string) (lowerQuery : string)
  : result bool :=
  let? v := Get p k in
  let? s := call_toLowerCase v in
  Ok (includes s lowerQuery).

(** [a || b] where evaluating [b] may throw. *)
Definition or_else (a b : result bool) : result bool :=
  let? x := a in if x then Ok true else b.

Definition matches_query (lowerQuery : string) (p : value) : result bool :=
  or_else (field_includes p "name" lowerQuery)
    (or_else (field_includes p "website" lowerQuery)
       (or_else (field_includes p "username" lowerQuery)
          (field_includes p "category" lowerQuery))).

Definition filter_array (f : value -> result bool) (results : value)
  : result value :=
  match results with
  | JArr xs => let? kept := filterM f xs in Ok (JArr kept)
  | _ => Throw TypeError
  end.

Definition searchPasswords (query category : value) : M value :=
  let! results := gets (fun w => passwords (this w)) in
  let! results :=
    (if truthy category && negb (strict_equal category (JStr "All"))
     then lift (filter_array (in_category category) results)
     else ret results) in
  if truthy query then
    let! lowerQuery := lift (call_toLowerCase query) in
    lift (filter_array (matches_query lowerQuery) results)
  else ret results.

(** [v.length] of the value a field holds: reading it of [undefined] or
    [null] throws. *)
Definition Get_length (v : value) : result value :=
  match v with
  | JUndefined | JNull => Throw TypeError
  | JArr xs => Ok (JNum (Z.of_nat (length xs)))
  | JStr s => Ok (JNum (Z.of_nat (String.length s)))
  | JObj o => Ok (default JUndefined (assoc_get "length" o))
  | _ => Ok JUndefined
  end.

(** The [forEach] of [renderCategories]: for each category the records are
    filtered by it and counted (only arrays have [filter]), and the
    category is written as text. *)
Fixpoint category_buttons (categories : list value) (passwords : value)
  : result unit :=
  match categories with
  | [] => Ok tt
  | cat :: rest =>
      let? _ := filter_array (in_category cat) passwords in
      let? _ := ToString cat in
      category_buttons rest passwords
  end.

(** [renderCategories] writes to the document only; what is kept is what it
    reads of the vault and where that throws: [this.passwords.length],
    written as text, then [this.categories.forEach] (only arrays have it)
    with a button for each category. *)
Definition renderCategories : M unit :=
  let! ps := gets (fun w => passwords (this w)) in
  let! n := lift (Get_length ps) in
  let! _ := lift (ToString n) in
  let! cs := gets (fun w => categories (this w)) in
  match cs with
  | JArr names => lift (category_buttons names ps)
  | _ => throw TypeError
  end.

(** The properties of a record that [createPasswordCard] writes as text, in
    the order it reads them.  ([website], [username] and [notes] are
    written when they are truthy; a value that does not convert is an
    object or an array, and those are.) *)
Definition card_fields : list string :=
  ["id"; "name"; "website"; "category"; "username"; "password"; "notes";
   "createdDate"]%string.

Fixpoint written (pwd : value) (keys : list string) : result unit :=
  match keys with
  | [] => Ok tt
  | k :: rest =>
      let? v := Get pwd k in
      let? _ := ToString v in
      written pwd rest
  end.

(** [createPasswordCard(pwd)] builds text for the document; it throws where
    a property read or a conversion to text throws. *)
Definition createPasswordCard (pwd : value) : result unit :=
  written pwd card_fields.

(** [passwords.map(pwd => this.createPasswordCard(pwd))]. *)
Fixpoint cards (passwords : list value) : result unit :=
  match passwords with
  | [] => Ok tt
  | pwd :: rest => let? _ := createPasswordCard pwd in cards rest
  end.

(** [renderPasswords(category, searchQuery)]: the search, the count
    [passwords.length] written as text, the test [passwords.length === 0],
    and a card for each record found.  Only arrays have [map]. *)
Definition renderPasswords (category searchQuery : value) : M unit :=
  let! found := searchPasswords searchQuery category in
  let! n := lift (Get_length found) in
  let! _ := lift (ToString n) in
  if strict_equal n (JNum 0) then ret tt
  else
    match found with
    | JArr xs => lift (cards xs)
    | _ => throw TypeError
    end.

(** Of the three [show] methods the model keeps the screen; [showMainApp]
    renders the categories and, with the default arguments ['All'] and
    [''], the records. *)
Definition showSetupScreen : M unit := modify (with_screen SetupScreen).
Definition showLoginScreen : M unit := modify (with_screen LoginScreen).
Definition showMainApp : M unit :=
  modify (with_screen MainApp) ;;
  renderCategories ;;
  renderPasswords (JStr "All") (JStr "").

Definition init : M unit :=
  let! hasMasterPassword := getItem "masterPasswordHash" in
  match hasMasterPassword with
  | Some (String _ _) => showLoginScreen
  | _ => showSetupScreen
  end.

Definition clearSessionTimeout : M unit :=
  let! t := gets (fun w => sessionTimeout (this w)) in
  match t with
  | Some id =>
      clearTimeout id ;;
      modify (with_this (set_sessionTimeout None))
  | None => ret tt
  end.

(** The closure [resetTimeout]; the timeout it arms calls [lock]. *)
Definition resetTimeout : M unit :=
  clearSessionTimeout ;;
  let! id := setTimeout in
  modify (with_this (set_sessionTimeout (Some id))).

Definition startSessionTimeout : M unit :=
  clearSessionTimeout ;;
  resetTimeout ;;
  modify (fun w => with_listeners (listeners w + 4) w).

Definition saveData : M unit :=
  let! data := gets (fun w => JObj [("passwords", passwords (this w));
                                    ("categories", categories (this w))]) in
  let! pw := gets (fun w => USVString (masterPassword (this w))) in
  let! encrypted := CryptoManager.encrypt data pw in
  setItem "encryptedData" encrypted.

Definition loadData : M unit :=
  let! encrypted := getItem "encryptedData" in
  match encrypted with
  | Some (String c s) =>
      let! pw := gets (fun w => USVString (masterPassword (this w))) in
      let! data := lift (CryptoManager.decrypt (String c s) pw) in
      let! ps := lift (Get data "passwords") in
      modify (with_this (set_passwords (js_or ps (JArr [])))) ;;
      let! cs := lift (Get data "categories") in
      let! current := gets (fun w => categories (this w)) in
      modify (with_this (set_categories (js_or cs current)))
  | _ => ret tt
  end.

Definition setupMasterPassword (password : string) : M unit :=
  if (String.length password <? 8)%nat then throw WeakPasswordError
  else
    let hash := CryptoManager.hashPassword password in
    setItem "masterPasswordHash" hash ;;
    modify (with_this (set_masterPassword (Some password))) ;;
    modify (with_this (set_isLocked false)) ;;
    saveData ;;
    showMainApp ;;
    startSessionTimeout.

Definition login (password : string) : M unit :=
  let! storedHash := getItem "masterPasswordHash" in
  let inputHash := CryptoManager.hashPassword password in
  if bool_decide (storedHash = Some inputHash) then
    modify (with_this (set_masterPassword (Some password))) ;;
    modify (with_this (set_isLocked false)) ;;
    loadData ;;
    showMainApp ;;
    startSessionTimeout
  else throw AuthenticationError.

Definition lock : M unit :=
  modify (with_this (set_isLocked true)) ;;
  modify (with_this (set_masterPassword None)) ;;
  modify (with_this (set_passwords (JArr []))) ;;
  clearSessionTimeout ;;
  showLoginScreen.

Definition addPassword (passwordData : value) : M value :=
  let! now := Date_now in
  let! name := lift (Get passwordData "name") in
  let! website := lift (Get passwordData "website") in
  let! username := lift (Get passwordData "username") in
  let! pass := lift (Get passwordData "password") in
  let! category := lift (Get passwordData "category") in
  let! notes := lift (Get passwordData "notes") in
  let! createdDate := new_Date_toISOString in
  let! lastModified := new_Date_toISOString in
  let password :=
    JObj [("id", JStr (pretty now));
          ("name", name);
          ("website", js_or website (JStr ""));
          ("username", js_or username (JStr ""));
          ("password", pass);
          ("category", js_or category (JStr "Other"));
          ("notes", js_or notes (JStr ""));
          ("createdDate", JStr createdDate);
          ("lastModified", JStr lastModified)] in
  let! ps := gets (fun w => passwords (this w)) in
  match ps with
  | JArr xs =>
      modify (with_this (set_passwords (JArr (password :: xs)))) ;;
      saveData ;;
      ret password
  | _ => throw TypeError
  end.

(** The object literal [{...old, ...updates, lastModified: stamp}]: it
    starts as a copy of the own properties of [old], then takes those of
    [updates], then the stamp. *)
Definition merged (old updates : value) (stamp : string) : value :=
  JObj (assoc_set "lastModified" (JStr stamp)
          (assign_all (own_props old) (own_props updates))).

Definition has_id (id : value) (p : value) : result bool :=
  let? v := Get p "id" in Ok (strict_equal v id).

Definition updatePassword (id updates : value) : M unit :=
  let! ps := gets (fun w => passwords (this w)) in
  match ps with
  | JArr xs =>
      let! index := lift (findIndex (has_id id) xs) in
      match index with
      | Some i =>
          let! stamp := new_Date_toISOString in
          let old := default JUndefined (xs !! i) in
          modify (with_this
                    (set_passwords (JArr (<[i := merged old updates stamp]> xs)))) ;;
          saveData
      | None => ret tt
      end
  | _ => throw TypeError
  end.

Definition lacks_id (id : value) (p : value) : result bool :=
  let? v := Get p "id" in Ok (negb (strict_equal v id)).

Definition deletePassword (id : value) : M unit :=
  let! ps := gets (fun w => passwords (this w)) in
  match ps with
  | JArr xs =>
      let! kept := lift (filterM (lacks_id id) xs) in
      modify (with_this (set_passwords (JArr kept))) ;;
      saveData
  | _ => throw TypeError
  end.

(** [this.categories.includes(name)] finds an element of an array, or a
    substring of a string; [push] exists on arrays only. *)
Definition addCategory (name : string) : M unit :=
  let! cs := gets (fun w => categories (this w)) in
  match cs with
  | JArr xs =>
      if existsb (strict_equal (JStr name)) xs then ret tt
      else
        modify (with_this (set_categories (JArr (xs ++ [JStr name])))) ;;
        saveData
  | JStr s => if includes s name then ret tt else throw TypeError
  | _ => throw TypeError
  end.

(** The [forEach] of [deleteCategory]: records are rewritten in place one
    after the other, so those before a throwing element stay rewritten. *)
Fixpoint reassign (name : string) (xs : list value)
  : list value * option error :=
  match xs with
  | [] => ([], None)
  | p :: rest =>
      match Get p "category" with
      | Throw e => (p :: rest, Some e)
      | Ok c =>
          if strict_equal c (JStr name) then
            match Put p "category" (JStr "Other") with
            | Ok p' => let (rest', e) := reassign name rest in (p' :: rest', e)
            | Throw e => (p :: rest, Some e)
            end
          else let (rest', e) := reassign name rest in (p :: rest', e)
      end
  end.

Definition deleteCategory (name : string) : M unit :=
  let! ps := gets (fun w => passwords (this w)) in
  match ps with
  | JArr xs =>
      let (xs', e) := reassign name xs in
      modify (with_this (set_passwords (JArr xs'))) ;;
      match e with
      | Some e => throw e
      | None =>
          let! cs := gets (fun w => categories (this w)) in
          match cs with
          | JArr names =>
              modify (with_this
                        (set_categories
                           (JArr (List.filter
                                    (fun c => negb (strict_equal c (JStr name)))
                                    names)))) ;;
              saveData
          | _ => throw TypeError
          end
      end
  | _ => throw TypeError
  end.

End with_platform.
End PasswordManager.

(** ** An executable platform

    A small instance of [Platform] on which the definitions above run: a
    JSON printer and reader for [value], bytes for code units, a key that is
    the zero-padded material followed by the salt, and a sealing scheme that
    writes key and nonce before the data and a checksum after it.  It stands
    in for the browser when a statement is evaluated on concrete input; it
    is neither PBKDF2 nor AES-GCM, and it keeps nothing secret. *)

Module Model.

Definition dquote : ascii := ascii_of_nat 34.
Definition backslash : ascii := ascii_of_nat 92.

Fixpoint escape (cs : list ascii) : list ascii :=
  match cs with
  | [] => []
  | c :: rest =>
      if Ascii.eqb c dquote || Ascii.eqb c backslash
      then backslash :: c :: escape rest
      else c :: escape rest
  end.

Definition quote (s : string) : list ascii :=
  dquote :: escape (list_ascii_of_string s) ++ [dquote].

Fixpoint join (sep : list ascii) (parts : list (list ascii)) : list ascii :=
  match parts with
  | [] => []
  | [p] => p
  | p :: rest => p ++ sep ++ join sep rest
  end.

(** [JSON.stringify]: [undefined] has no text, is [null] inside an array and
    is left out of an object. *)
Fixpoint json_text (v : value) : option (list ascii) :=
  match v with
  | JUndefined => None
  | JNull => Some (list_ascii_of_string "null")
  | JBool b => Some (list_ascii_of_string (if b then "true" else "false"))
  | JNum z => Some (list_ascii_of_string (pretty z))
  | JStr s => Some (quote s)
  | JArr xs =>
      let parts :=
        map (fun x => default (list_ascii_of_string "null") (json_text x)) xs in
      Some ("["%char :: join [","%char] parts ++ ["]"%char])
  | JObj o =>
      let parts :=
        concat (map (fun kx =>
                       match json_text (snd kx) with
                       | Some t => [quote (fst kx) ++ ":"%char :: t]
                       | None => []
                       end) o) in
      Some ("{"%char :: join [","%char] parts ++ ["}"%char])
  end.

Definition stringify (v : value) : option string :=
  string_of_list_ascii <$> json_text v.

Definition is_digit (c : ascii) : bool :=
  let n := nat_of_ascii c in (48 <=? n)%nat && (n <=? 57)%nat.

Fixpoint read_digits (acc : Z) (cs : list ascii) : Z * list ascii :=
  match cs with
  | c :: rest =>
      if is_digit c
      then read_digits (acc * 10 + (Z.of_nat (nat_of_ascii c) - 48)) rest
      else (acc, cs)
  | [] => (acc, [])
  end.

(** The characters of a string literal, after its opening quote. *)
Fixpoint read_string (cs : list ascii) : option (list ascii * list ascii) :=
  match cs with
  | [] => None
  | c :: rest =>
      if Ascii.eqb c dquote then Some ([], rest)
      else if Ascii.eqb c backslash then
        match rest with
        | e :: rest' =>
            match read_string rest' with
            | Some (s, r) => Some (e :: s, r)
            | None => None
            end
        | [] => None
        end
      else
        match read_string rest with
        | Some (s, r) => Some (c :: s, r)
        | None => None
        end
  end.

Definition starts (lit : string) (cs : list ascii) : option (list ascii) :=
  let l := list_ascii_of_string lit in
  if bool_decide (take (length l) cs = l) then Some (drop (length l) cs)
  else None.

Fixpoint read_value (fuel : nat) (cs : list ascii)
  : option (value * list ascii) :=
  match fuel with
  | O => None
  | S fuel' =>
      match cs with
      | [] => None
      | c :: rest =>
          if Ascii.eqb c dquote then
            match read_string rest with
            | Some (s, r) => Some (JStr (string_of_list_ascii s), r)
            | None => None
            end
          else if Ascii.eqb c "["%char then
            match rest with
            | c' :: rest' =>
                if Ascii.eqb c' "]"%char then Some (JArr [], rest')
                else read_elements fuel' rest
            | [] => None
            end
          else if Ascii.eqb c "{"%char then
            match rest with
            | c' :: rest' =>
                if Ascii.eqb c' "}"%char then Some (JObj [], rest')
                else read_members fuel' rest
            | [] => None
            end
          else if Ascii.eqb c "-"%char then
            let (n, r) := read_digits 0 rest in Some (JNum (- n), r)
          else if is_digit c then
            let (n, r) := read_digits 0 cs in Some (JNum n, r)
          else
            match starts "null" cs, starts "true" cs, starts "false" cs with
            | Some r, _, _ => Some (JNull, r)
            | _, Some r, _ => Some (JBool true, r)
            | _, _, Some r => Some (JBool false, r)
            | _, _, _ => None
            end
      end
  end
with read_elements (fuel : nat) (cs : list ascii)
  : option (value * list ascii) :=
  match fuel with
  | O => None
  | S fuel' =>
      match read_value fuel' cs with
      | Some (v, c :: rest) =>
          if Ascii.eqb c "]"%char then Some (JArr [v], rest)
          else if Ascii.eqb c ","%char then
            match read_elements fuel' rest with
            | Some (JArr vs, r) => Some (JArr (v :: vs), r)
            | _ => None
            end
          else None
      | _ => None
      end
  end
with read_members (fuel : nat) (cs : list ascii)
  : option (value * list ascii) :=
  match fuel with
  | O => None
  | S fuel' =>
      match cs with
      | q :: cs' =>
          if Ascii.eqb q dquote then
            match read_string cs' with
            | Some (k, colon :: cs'') =>
                if Ascii.eqb colon ":"%char then
                  match read_value fuel' cs'' with
                  | Some (v, c :: rest) =>
                      let key := string_of_list_ascii k in
                      if Ascii.eqb c "}"%char then Some (JObj [(key, v)], rest)
                      else if Ascii.eqb c ","%char then
                        match read_members fuel' rest with
                        | Some (JObj kvs, r) => Some (JObj ((key, v) :: kvs), r)
                        | _ => None
                        end
                      else None
                  | _ => None
                  end
                else None
            | _ => None
            end
          else None
      | [] => None
      end
  end.

(** [JSON.parse] of a text without white space. *)
Definition parse (s : string) : option value :=
  let cs := list_ascii_of_string s in
  match read_value (S (length cs)) cs with
  | Some (v, []) => Some v
  | _ => None
  end.

Definition key_of (material salt : list byte) (iterations : Z) : list byte :=
  take 64 (material ++ replicate 64 x00) ++ salt.

(** A byte list written so that its end can be told: a one before each
    byte, a zero after the last. *)
Fixpoint frame (bs : list byte) : list byte :=
  match bs with
  | [] => [x00]
  | b :: rest => x01 :: b :: frame rest
  end.

(** The byte list a framed text starts with, and what follows it. *)
Fixpoint unframe (bs : list byte) : option (list byte * list byte) :=
  match bs with
  | [] => None
  | mark :: rest =>
      if Byte.eqb mark x00 then Some ([], rest)
      else if Byte.eqb mark x01 then
        match rest with
        | b :: rest' =>
            match unframe rest' with
            | Some (content, after) => Some (b :: content, after)
            | None => None
            end
        | [] => None
        end
      else None
  end.

(** The sum of the bytes, modulo 256. *)
Definition checksum (bs : list byte) : byte :=
  byte_of_Z (fold_right (fun b sum => byte_val b + sum) 0 bs).

(** The sealed text names the key and the nonce it was made with, then has
    the data, and ends with the checksum of all that: it opens under that
    key and nonce only, and not at all once a byte of it is changed. *)
Definition seal (key iv data : list byte) : list byte :=
  let body := frame key ++ frame iv ++ data in
  body ++ [checksum body].

Definition bytes_eqb (a b : list byte) : bool :=
  (length a =? length b)%nat && forallb (fun p => Byte.eqb (fst p) (snd p)) (combine a b).

Definition unseal (key iv sealed : list byte) : option (list byte) :=
  let body := take (length sealed - 1) sealed in
  match drop (length sealed - 1) sealed, unframe body with
  | [sum], Some (k, rest) =>
      match unframe rest with
      | Some (n, data) =>
          if Byte.eqb sum (checksum body) && bytes_eqb k key && bytes_eqb n iv
          then Some data
          else None
      | None => None
      end
  | _, _ => None
  end.

Definition digest (data : list byte) : list byte :=
  take 32 (data ++ replicate 32 x00).

Definition iso (t : Z) : string := "T" +:+ pretty t.

(** The limit on arguments of one engine: 65536. *)
Definition limit : nat := N.to_nat 65536.

End Model.

(** ** The page around the manager *)

(** *** [escapeHtml]

    The method assigns its argument to [textContent] of a fresh [div] and
    reads [innerHTML] back: the one text node is serialized by the fragment
    serialization algorithm of the HTML standard, which escapes the
    ampersand, the no-break space and the two angle brackets of a text node
    and nothing else.  The argument is a string here, as the fields of a
    record saved through the form are. *)

Definition nbsp : ascii := ascii_of_nat 160.

Definition escape_text_char (c : ascii) : string :=
  if Ascii.eqb c "&" then "&amp;"
  else if Ascii.eqb c nbsp then "&nbsp;"
  else if Ascii.eqb c "<" then "&lt;"
  else if Ascii.eqb c ">" then "&gt;"
  else String c EmptyString.

Fixpoint escapeHtml (text : string) : string :=
  match text with
  | EmptyString => EmptyString
  | String c rest => (escape_text_char c +:+ escapeHtml rest)%string
  end.

(** *** [updatePasswordStrength] *)

Definition code (c : ascii) : nat := nat_of_ascii c.

(** The character classes [[a-z]], [[A-Z]], [[0-9]] and [[^a-zA-Z0-9]]. *)
Definition a_z (c : ascii) : bool := (97 <=? code c)%nat && (code c <=? 122)%nat.
Definition A_Z (c : ascii) : bool := (65 <=? code c)%nat && (code c <=? 90)%nat.
Definition zero_nine (c : ascii) : bool :=
  (48 <=? code c)%nat && (code c <=? 57)%nat.
Definition not_alphanumeric (c : ascii) : bool :=
  negb (a_z c || A_Z c || zero_nine c).

(** [/[class]/.test(s)]: some code unit of [s] is in the class. *)
Fixpoint test (class : ascii -> bool) (s : string) : bool :=
  match s with
  | EmptyString => false
  | String c rest => class c || test class rest
  end.

(** The counter [strength] after the six tests. *)
Definition strength (password : string) : nat :=
  ((if (8 <=? String.length password)%nat then 1 else 0)
   + (if (12 <=? String.length password)%nat then 1 else 0)
   + (if (16 <=? String.length password)%nat then 1 else 0)
   + (if test a_z password && test A_Z password then 1 else 0)
   + (if test zero_nine password then 1 else 0)
   + (if test not_alphanumeric password then 1 else 0))%nat.

Record Level : Type := mkLevel {
  level_class : string;
  level_text : string;
  level_width : string
}.

Definition levels : list Level :=
  [mkLevel "bg-red-500" "Very Weak" "w-1/6";
   mkLevel "bg-red-500" "Weak" "w-2/6";
   mkLevel "bg-orange-500" "Fair" "w-3/6";
   mkLevel "bg-yellow-500" "Good" "w-4/6";
   mkLevel "bg-green-500" "Strong" "w-5/6";
   mkLevel "bg-green-600" "Very Strong" "w-full"].

(** [s.replace(pattern, replacement)] for a string pattern and a replacement
    without [$]: the first occurrence is replaced. *)
Fixpoint replace (pattern replacement s : string) : string :=
  if String.prefix pattern s then
    (replacement +:+ String.substring (String.length pattern)
                       (String.length s - String.length pattern) s)%string
  else
    match s with
    | EmptyString => EmptyString
    | String c rest => String c (replace pattern replacement rest)
    end.

(** The two elements the function writes to. *)
Record StrengthMeter : Type := mkStrengthMeter {
  indicator_className : string;
  text_textContent : string;
  text_className : string
}.

(** Reading a property of [levels[i]] past the end of the array would throw;
    the index is [Math.min(strength, 5)]. *)
Definition updatePasswordStrength (password : string) (meter : StrengthMeter)
  : result StrengthMeter :=
  match password with
  | EmptyString =>
      Ok (mkStrengthMeter "h-2 rounded-full bg-gray-700" "" (text_className meter))
  | _ =>
      match levels !! Nat.min (strength password) 5 with
      | Some level =>
          Ok (mkStrengthMeter
                ("h-2 rounded-full " +:+ level_class level +:+ " "
                 +:+ level_width level +:+ " transition-all")%string
                (level_text level)
                ("text-sm font-medium "
                 +:+ replace "bg-" "text-" (level_class level))%string)
      | None => Throw TypeError
      end
  end.

(** *** The handlers of the forms *)

(** What [showToast] is called with: a message of the handler, or the
    message of the error caught ([None] stands for the engine's text of a
    built-in error).  [showToast] appends an element with the message to
    the document and arms the timeouts that fade and remove it; those are
    the document's, they touch nothing of the manager.  Of a toast the model
    keeps that it was shown: a handler returns the toasts it showed, in
    order. *)
Inductive Toast : Type :=
| Success (message : string)
| Failure (message : option string).

Definition error_message (e : error) : option string :=
  match e with
  | Error message => Some message
  | _ => None
  end.

(** [try { await m; showToast(done); after } catch (error) {
    showToast(error.message, 'error') }]: the toasts the handler shows.
    What [after] throws is caught as well, when the toast of success is
    already shown. *)
Definition try_toast (m : M unit) (done : string) (after : M unit)
  : M (list Toast) := fun w =>
  match m w with
  | (Ok _, w') =>
      match after w' with
      | (Ok _, w'') => (Ok [Success done], w'')
      | (Throw e, w'') => (Ok [Success done; Failure (error_message e)], w'')
      end
  | (Throw e, w') => (Ok [Failure (error_message e)], w')
  end.

Module Page.
Section with_platform.
Context `{Platform}.

Import PasswordManager.

(** The [submit] handler of the setup form. *)
Definition setup_form_submit (password confirm : string) : M (list Toast) :=
  if bool_decide (password = confirm) then
    try_toast (setupMasterPassword password)
              "Master password created successfully" (ret tt)
  else ret [Failure (Some "Passwords do not match"%string)].

(** The [submit] handler of the login form. *)
Definition login_form_submit (password : string) : M (list Toast) :=
  try_toast (login password) "Logged in successfully" (ret tt).

(** The [click] handler of the lock button. *)
Definition lock_button_click : M (list Toast) :=
  lock ;; ret [Success "App locked"].

(** The values of the six inputs of the password form. *)
Record PasswordForm : Type := mkPasswordForm {
  pwd_name : string;
  pwd_website : string;
  pwd_username : string;
  pwd_password : string;
  pwd_category : string;
  pwd_notes : string
}.

Definition passwordData (form : PasswordForm) : value :=
  JObj [("name"%string, JStr (pwd_name form));
        ("website"%string, JStr (pwd_website form));
        ("username"%string, JStr (pwd_username form));
        ("password"%string, JStr (pwd_password form));
        ("category"%string, JStr (pwd_category form));
        ("notes"%string, JStr (pwd_notes form))].

(** What the handler of the password form does after its toast:
    [closePasswordModal()], which is document work, and the two
    renderings. *)
Definition rendering : M unit :=
  renderCategories ;; renderPasswords (JStr "All") (JStr "").

(** The [submit] handler of the password form; [editId] is
    [dataset.editId], absent when the modal was opened for a new record. *)
Definition password_form_submit (form : PasswordForm) (editId : option string)
  : M (list Toast) :=
  match editId with
  | Some (String c id) =>
      try_toast (updatePassword (JStr (String c id)) (passwordData form))
                "Password updated successfully" rendering
  | _ =>
      try_toast (addPassword (passwordData form) ;; ret tt)
                "Password saved successfully" rendering
  end.

(** An activity event ([mousedown], [keydown], [scroll], [touchstart]) runs
    the closure [resetTimeout] of every [startSessionTimeout] so far: each
    call registered four listeners, one per kind of event, and nothing ever
    removes them. *)
Fixpoint repeat_reset (n : nat) : M unit :=
  match n with
  | O => ret tt
  | S n' => resetTimeout ;; repeat_reset n'
  end.

Definition activity : M unit := fun w =>
  repeat_reset (listeners w / 4)%nat w.

(** The timeout [t] expires: a pending timeout leaves the timer table and
    runs its callback, [this.lock()]. *)
Definition timeout_expires (t : positive) : M unit := fun w =>
  if bool_decide (t ∈ timers w) then
    (modify (with_timers (fun ts => ts ∖ {[t]})) ;; lock) w
  else (Ok tt, w).

End with_platform.
End Page.

(** * The vocabulary of the statements

    Definitions the properties are stated with: what the operations compute
    on a well-formed vault, the predicates of the specification, each claim
    that fails as it is stated, and the concrete worlds and records the
    statements are evaluated on. *)

(** ** Base64 texts *)

(** The data characters of the base64 text, as sextets, and its padding. *)
Fixpoint sextets (bs : list byte) : list Z :=
  match bs with
  | [] => []
  | [a] => [byte_val a / 4; byte_val a mod 4 * 16]
  | [a; b] =>
      [byte_val a / 4; byte_val a mod 4 * 16 + byte_val b / 16;
       byte_val b mod 16 * 4]
  | a :: b :: c :: rest =>
      byte_val a / 4
      :: (byte_val a mod 4 * 16 + byte_val b / 16)
      :: (byte_val b mod 16 * 4 + byte_val c / 64)
      :: byte_val c mod 64
      :: sextets rest
  end.

Fixpoint padding (bs : list byte) : list ascii :=
  match bs with
  | [] => []
  | [_] => [pad_char; pad_char]
  | [_; _] => [pad_char]
  | _ :: _ :: _ :: rest => padding rest
  end.

Definition one_changed {A : Type} (l l' : list A) : Prop :=
  exists pre x y post,
    l = pre ++ x :: post /\ l' = pre ++ y :: post /\ x <> y.

(** One character of a string replaced by another. *)
Definition one_char_changed (s s' : string) : Prop :=
  one_changed (list_ascii_of_string s) (list_ascii_of_string s').

(** The sextets of the text with the lowest unused bit of the last data
    character set: in a final group of one byte the second character carries
    four bits that belong to no byte, in a final group of two bytes the third
    carries two. *)
Fixpoint slack_sextets (bs : list byte) : list Z :=
  match bs with
  | [] => []
  | [a] => [byte_val a / 4; byte_val a mod 4 * 16 + 1]
  | [a; b] =>
      [byte_val a / 4; byte_val a mod 4 * 16 + byte_val b / 16;
       byte_val b mod 16 * 4 + 1]
  | a :: b :: c :: rest =>
      byte_val a / 4
      :: (byte_val a mod 4 * 16 + byte_val b / 16)
      :: (byte_val b mod 16 * 4 + byte_val c / 64)
      :: byte_val c mod 64
      :: slack_sextets rest
  end.

Definition slack_text (bs : list byte) : string :=
  string_of_list_ascii (map sextet_char (slack_sextets bs) ++ padding bs).

Section vocabulary.
Context {platform : Platform}.

Import PasswordManager.

(** ** The session timer *)

(** The session timer is the only timeout the manager ever has pending:
    [resetTimeout] clears the old one before it arms the next. *)
Definition timer_invariant (w : World) : Prop :=
  match sessionTimeout (this w) with
  | Some t => timers w ⊆ {[t]}
  | None => timers w = ∅
  end.

(** ** Persistence, records and categories *)

(** The bytes inside a blob: salt, nonce, ciphertext with its tag. *)
Definition combined (data : value) (password : string) (salt iv : list byte)
  : list byte :=
  salt ++ iv ++
  AES_GCM_encrypt (CryptoManager.deriveKey password salt) iv
                  (CryptoManager.plaintext data).

(** The bytes of the blob are no more than the engine lets a call spread:
    [encrypt] returns. *)
Definition within_limit (data : value) (password : string)
  (salt iv : list byte) : bool :=
  (length (combined data password salt iv) <=? argument_limit)%nat.

(** The blob [encrypt] returns when it returns, as a function of the random
    bytes drawn. *)
Definition sealed (data : value) (password : string) (salt iv : list byte)
  : string :=
  btoa (fromCharCode
          (salt ++ iv ++
           AES_GCM_encrypt (CryptoManager.deriveKey password salt) iv
                           (CryptoManager.plaintext data))).

Definition salt_at (w : World) : list byte :=
  map (entropy w) (seq (drawn w) 16).
Definition iv_at (w : World) : list byte :=
  map (entropy w) (seq (drawn w + 16) 12).

(** The payload [saveData] serializes and the blob it stores. *)
Definition payload (m : Manager) : value :=
  JObj [("passwords"%string, passwords m); ("categories"%string, categories m)].

Definition stored_blob (w : World) : string :=
  sealed (payload (this w)) (USVString (masterPassword (this w)))
         (salt_at w) (iv_at w).

(** The vault in memory, encrypted under the master password in memory with
    the random bytes that come next, is within the engine's limit:
    [saveData] returns. *)
Definition fits (w : World) : bool :=
  within_limit (payload (this w)) (USVString (masterPassword (this w)))
               (salt_at w) (iv_at w).

(** The world with another record list and another category set. *)
Definition with_vault (xs names : list value) (w : World) : World :=
  with_this (fun m => set_categories (JArr names) (set_passwords (JArr xs) m))
            w.

Definition is_object (v : value) : bool :=
  match v with
  | JObj _ => true
  | _ => false
  end.

(** A vault as the data model has it: an array of objects and an array of
    category names. *)
Definition vault (m : Manager) (xs names : list value) : Prop :=
  passwords m = JArr xs /\ categories m = JArr names
  /\ Forall (fun p => is_object p = true) xs.

(** What the [forEach] of [deleteCategory] makes of one record. *)
Definition moved (name : string) (p : value) : value :=
  match p with
  | JObj o =>
      if strict_equal (default JUndefined (assoc_get "category" o)) (JStr name)
      then JObj (assoc_set "category" (JStr "Other") o)
      else p
  | _ => p
  end.

Definition without (name : string) (names : list value) : list value :=
  List.filter (fun c => negb (strict_equal c (JStr name))) names.

(** ** The operations read on a vault of objects *)

(** [p.k] where it cannot throw. *)
Definition field (p : value) (k : string) : value :=
  match Get p k with
  | Ok v => v
  | Throw _ => JUndefined
  end.

Fixpoint index_where (f : value -> bool) (xs : list value) : option nat :=
  match xs with
  | [] => None
  | x :: rest => if f x then Some 0%nat else S <$> index_where f rest
  end.

(** The record [addPassword] builds from its argument and three readings of
    the clock. *)
Definition new_record (fields : value) (t0 t1 t2 : Z) : value :=
  JObj [("id"%string, JStr (pretty t0));
        ("name"%string, field fields "name");
        ("website"%string, js_or (field fields "website") (JStr ""));
        ("username"%string, js_or (field fields "username") (JStr ""));
        ("password"%string, field fields "password");
        ("category"%string, js_or (field fields "category") (JStr "Other"));
        ("notes"%string, js_or (field fields "notes") (JStr ""));
        ("createdDate"%string, JStr (Date_toISOString t1));
        ("lastModified"%string, JStr (Date_toISOString t2))].

Definition added (fields : value) (w : World) : value :=
  new_record fields (clock w (ticks w)) (clock w (S (ticks w)))
             (clock w (S (S (ticks w)))).

Definition updated (id updates : value) (xs : list value) (w : World)
  : list value :=
  match index_where (fun p => strict_equal (field p "id") id) xs with
  | Some i =>
      <[i := merged (default JUndefined (xs !! i)) updates
                    (Date_toISOString (clock w (ticks w)))]> xs
  | None => xs
  end.

Definition remaining (id : value) (xs : list value) : list value :=
  List.filter (fun p => negb (strict_equal (field p "id") id)) xs.

(** ** The category invariant *)

(** Every record is an object whose [category] is an entry of the category
    set. *)
Definition categories_valid (m : Manager) : Prop :=
  exists xs names,
    passwords m = JArr xs /\ categories m = JArr names
    /\ Forall (fun p => is_object p = true /\ field p "category" ∈ names) xs.

(** The operations that persist. *)
Inductive operation : Type :=
| AddRecord (fields : value)
| UpdateRecord (id partialFields : value)
| DeleteRecord (id : value)
| AddCategory (name : string)
| DeleteCategory (name : string).

Definition run (op : operation) : M unit :=
  match op with
  | AddRecord fields => addPassword fields ;; ret tt
  | UpdateRecord id partialFields => updatePassword id partialFields
  | DeleteRecord id => deletePassword id
  | AddCategory name => addCategory name
  | DeleteCategory name => deleteCategory name
  end.

(** The invariant as claimed: kept by every operation on every argument. *)
Definition C3_as_stated : Prop :=
  forall (w : World) (op : operation) (w' : World),
    categories_valid (this w) ->
    run op w = (Ok tt, w') ->
    categories_valid (this w').

(** The arguments under which the code does keep it: a new record names a
    category of the set (or none, and ['Other'] is in the set); an update
    carries no category outside the set; the category deleted is not
    ['Other'], and ['Other'] is in the set. *)
Definition admissible (names : list value) (op : operation) : Prop :=
  match op with
  | AddRecord fields =>
      fields <> JUndefined /\ fields <> JNull
      /\ js_or (field fields "category") (JStr "Other") ∈ names
  | UpdateRecord _ partialFields =>
      forall c, ("category"%string, c) ∈ own_props partialFields -> c ∈ names
  | DeleteCategory name =>
      name <> "Other"%string /\ JStr "Other" ∈ names
  | DeleteRecord _ | AddCategory _ => True
  end.

(** ** Updating a record *)

(** [r], at index [i], is the record that [updatePassword id] rewrites: the
    first entry whose [id] is strictly equal to [id], as [findIndex] finds
    it. *)
Definition first_with_id (id : value) (xs : list value) (i : nat) (r : value)
  : Prop :=
  xs !! i = Some r
  /\ strict_equal (field r "id") id = true
  /\ forall j q, (j < i)%nat -> xs !! j = Some q ->
                 strict_equal (field q "id") id = false.

(** The claim as stated: whatever the update carries, [id] and
    [createdDate] stay and [lastModified] is stamped. *)
Definition C6_as_stated : Prop :=
  forall (w : World) (xs names : list value) (id partialFields : value)
         (i : nat) (r : value),
    vault (this w) xs names ->
    first_with_id id xs i r ->
    exists w' xs' r',
      updatePassword id partialFields w = (Ok tt, w')
      /\ passwords (this w') = JArr xs'
      /\ xs' !! i = Some r'
      /\ field r' "id" = field r "id"
      /\ field r' "createdDate" = field r "createdDate"
      /\ field r' "lastModified"
         = JStr (Date_toISOString (clock w (ticks w))).

(** The claim as stated, in the part that fails: [deletePassword] of an id
    that no record has raises no error. *)
Definition C9_as_stated : Prop :=
  forall (w : World) (xs names : list value) (id : value),
    vault (this w) xs names ->
    Forall (fun p => strict_equal (field p "id") id = false) xs ->
    fst (deletePassword id w) = Ok tt.

(** ** The round trip *)

(** [decrypt(encrypt(P, W), W)]. *)
Definition round_trip (P : value) (W : string) : M value :=
  let! blob := CryptoManager.encrypt P W in
  lift (CryptoManager.decrypt blob W).

(** The claim as stated: the round trip gives the payload back, for every
    payload. *)
Definition C1_as_stated : Prop :=
  forall (P : value) (W : string) (w : World),
    JSON_serializable P -> fst (round_trip P W w) = Ok P.

(** ** When decryption fails *)

(** AEAD verification fails for a password on decoded bytes: the key is the
    one derived from the password and the first 16 bytes, the nonce the next
    12, the ciphertext the rest. *)
Definition rejects (password : string) (bytes : list byte) : Prop :=
  AES_GCM_decrypt (CryptoManager.deriveKey password (take 16 bytes))
                  (take 12 (drop 16 bytes)) (drop 28 bytes) = None.

(** AEAD verification succeeds, but the plaintext is no JSON text. *)
Definition unreadable (password : string) (bytes : list byte) : Prop :=
  exists decrypted,
    AES_GCM_decrypt (CryptoManager.deriveKey password (take 16 bytes))
                    (take 12 (drop 16 bytes)) (drop 28 bytes) = Some decrypted
    /\ JSON_parse (TextDecoder_decode decrypted) = None.

(** The key HMAC makes of key material no longer than its block: the
    material, padded with zero bytes to 64 (RFC 2104). *)
Definition hmac_key (material : list byte) : list byte :=
  material ++ replicate (64 - length material) x00.

(** The primitives as the specification takes them, without forgeries and
    without collisions (what AES-GCM and PBKDF2 give up to a chance that is
    negligible, here without that chance): only what [encrypt] made under
    a key and a nonce opens under them; what it makes under different keys
    or nonces differs; a sealed text with one byte changed opens under no
    key and nonce; and derived keys are equal only for equal salts and
    equal HMAC keys. *)
Class Ideal : Prop := {
  opens_only_sealed : forall k iv sealed data,
    AES_GCM_decrypt k iv sealed = Some data ->
    sealed = AES_GCM_encrypt k iv data;
  sealed_apart : forall k k' iv iv' data data',
    AES_GCM_encrypt k iv data = AES_GCM_encrypt k' iv' data' ->
    k = k' /\ iv = iv';
  tamper_evident : forall k iv data sealed' k' iv',
    one_changed (AES_GCM_encrypt k iv data) sealed' ->
    AES_GCM_decrypt k' iv' sealed' = None;
  keys_apart : forall material material' salt salt' iterations,
    PBKDF2_AES_key material salt iterations
    = PBKDF2_AES_key material' salt' iterations ->
    salt = salt'
    /\ ((length material <= 64)%nat -> (length material' <= 64)%nat ->
        hmac_key material = hmac_key material')
}.

(** The claim as stated: every other passphrase, and every change of one
    character of the blob under every passphrase, ends in the decryption
    error. *)
Definition C2_as_stated : Prop :=
  (forall (P : value) (W1 W2 : string) (w w' : World) (blob : string),
      CryptoManager.encrypt P W1 w = (Ok blob, w') ->
      W2 <> W1 ->
      CryptoManager.decrypt blob W2 = Throw DecryptionError)
  /\ (forall (P : value) (W W' : string) (w w' : World) (blob blob' : string),
         CryptoManager.encrypt P W w = (Ok blob, w') ->
         one_char_changed blob blob' ->
         CryptoManager.decrypt blob' W' = Throw DecryptionError).

(** ** Search *)

(** In the words of the specification: [s] contains [q] as a
    case-insensitive substring when some substring of [s] is [q] up to the
    case of its letters. *)
Definition contains_ci (s q : string) : Prop :=
  exists pre mid post,
    s = (pre +:+ mid +:+ post)%string /\ toLowerCase mid = toLowerCase q.

Definition searched_fields : list string :=
  ["name"; "website"; "username"; "category"]%string.

(** A record as the data model has it: an object whose four searched fields
    are strings. *)
Definition searchable (p : value) : Prop :=
  is_object p = true
  /\ forall k, k ∈ searched_fields -> exists s, field p k = JStr s.

(** In the words of the specification. *)
Definition matches_spec (q : string) (p : value) : Prop :=
  exists k s, k ∈ searched_fields /\ field p k = JStr s /\ contains_ci s q.

(** The filter is ["All"] or absent. *)
Definition filter_off_as_stated (c : value) : Prop :=
  c = JStr "All" \/ c = JNull \/ c = JUndefined.

(** What the code takes for no filter: ["All"] or any falsy value, the empty
    string among them. *)
Definition filter_off (c : value) : Prop :=
  c = JStr "All" \/ truthy c = false.

Definition selected_as_stated (q : string) (c : value) (p : value) : Prop :=
  (filter_off_as_stated c \/ field p "category" = c) /\ matches_spec q p.

Definition selected (q : string) (c : value) (p : value) : Prop :=
  (filter_off c \/ field p "category" = c) /\ matches_spec q p.

(** The claim as stated, for a query string and a filter that is a string or
    absent: the result is the vault's list filtered by the stated condition,
    and the world is unchanged. *)
Definition C8_as_stated : Prop :=
  forall (w : World) (xs : list value) (q : string) (c : value),
    passwords (this w) = JArr xs ->
    Forall searchable xs ->
    (exists s, c = JStr s) \/ c = JNull \/ c = JUndefined ->
    exists f : value -> bool,
      (forall p, searchable p -> (f p = true <-> selected_as_stated q c p))
      /\ searchPasswords (JStr q) c w = (Ok (JArr (List.filter f xs)), w).

(** The test the code applies to one record. *)
Definition lower_includes (p : value) (k : string) (q : string) : bool :=
  match field p k with
  | JStr s => includes (toLowerCase s) (toLowerCase q)
  | _ => false
  end.

Definition matchesb (q : string) (p : value) : bool :=
  lower_includes p "name" q || lower_includes p "website" q
  || lower_includes p "username" q || lower_includes p "category" q.

Definition filteringb (c : value) : bool :=
  truthy c && negb (strict_equal c (JStr "All")).

Definition selectedb (q : string) (c : value) (p : value) : bool :=
  (negb (filteringb c) || strict_equal (field p "category") c)
  && matchesb q p.

(** The character U+0000, and a passphrase with it appended. *)
Definition NUL : string := String Ascii.zero EmptyString.

(** ** Concrete worlds and records *)

(** A world to evaluate in: a fresh manager on the setup screen, an empty
    store, a counting random source and a clock that starts at an arbitrary
    instant and advances by a millisecond per reading. *)
Definition world0 : World :=
  mkWorld PasswordManager.new ∅
          (fun n => byte_of_Z (Z.of_nat n * 7 + 3)) 0
          (fun n => 1700000000000 + Z.of_nat n) 0
          ∅ 1%positive 0 SetupScreen.

(** An unlocked session with an empty vault and the default categories. *)
Definition unlocked : World :=
  mkWorld
    (mkManager (Some "CorrectHorse1"%string) (JArr [])
       (categories PasswordManager.new) None false)
    ∅ (fun n => byte_of_Z (Z.of_nat n * 7 + 3)) 0
    (fun n => 1700000000000 + Z.of_nat n) 0 ∅ 1%positive 0 MainApp.

(** A new record under a category that is not in the set. *)
Definition gym : value :=
  JObj [("name"%string, JStr "Gym"); ("password"%string, JStr "p@ss");
        ("category"%string, JStr "Fitness")].

(** A vault with one record in the category ['Other']. *)
Definition with_other_record : World :=
  with_this
    (set_passwords
       (JArr [JObj [("id"%string, JStr "1"); ("name"%string, JStr "Misc");
                    ("category"%string, JStr "Other")]]))
    unlocked.

(** A vault with one record, and an update that carries an [id] and a
    [createdDate]. *)
Definition example_record : value :=
  JObj [("id"%string, JStr "1700000000000");
        ("name"%string, JStr "Example");
        ("password"%string, JStr "p@ss");
        ("category"%string, JStr "Other");
        ("createdDate"%string, JStr "2023-11-14");
        ("lastModified"%string, JStr "2023-11-14")].

Definition with_one_record : World :=
  with_this (set_passwords (JArr [example_record])) unlocked.

Definition relabel : value :=
  JObj [("id"%string, JStr "7"); ("createdDate"%string, JStr "1999-01-01")].

(** A vault with two records, of the categories ['Banking'] and
    ['Personal']. *)
Definition bank_record : value :=
  JObj [("id"%string, JStr "1700000000001");
        ("name"%string, JStr "Savings");
        ("website"%string, JStr "MyBank.com");
        ("username"%string, JStr "alice");
        ("password"%string, JStr "p@ss");
        ("category"%string, JStr "Banking");
        ("notes"%string, JStr "");
        ("createdDate"%string, JStr "2023-11-14");
        ("lastModified"%string, JStr "2023-11-14")].

Definition mail_record : value :=
  JObj [("id"%string, JStr "1700000000000");
        ("name"%string, JStr "Mail");
        ("website"%string, JStr "example.org");
        ("username"%string, JStr "alice");
        ("password"%string, JStr "hunter2");
        ("category"%string, JStr "Personal");
        ("notes"%string, JStr "");
        ("createdDate"%string, JStr "2023-11-13");
        ("lastModified"%string, JStr "2023-11-13")].

Definition with_two_records : World :=
  with_this (set_passwords (JArr [bank_record; mail_record])) unlocked.

(** The argument of an [addPassword] call that gives no name. *)
Definition nameless_fields : value := JObj [("password"%string, JStr "x")].

Definition default_names : list value :=
  [JStr "Personal"; JStr "Work"; JStr "Banking"; JStr "Social Media";
   JStr "Shopping"; JStr "Other"].

(** The payload of the empty vault and the blob the executable platform
    makes of it in the world [unlocked]. *)
Definition empty_payload : value := payload (this unlocked).

Definition stored0 : string :=
  "AwoRGB8mLTQ7QklQV15lbHN6gYiPlp2kq7K5wAFDAW8BcgFyAWUBYwF0AUgBbwFyAXMBZQExAQABAAEAAQABAAEAAQABAAEAAQABAAEAAQABAAEAAQABAAEAAQABAAEAAQABAAEAAQABAAEAAQABAAEAAQABAAEAAQABAAEAAQABAAEAAQABAAEAAQABAAEAAQABAAEAAQABAAEAAQMBCgERARgBHwEmAS0BNAE7AUIBSQFQAVcBXgFlAWwAAXMBegGBAYgBjwGWAZ0BpAGrAbIBuQHAAHsicGFzc3dvcmRzIjpbXSwiY2F0ZWdvcmllcyI6WyJQZXJzb25hbCIsIldvcmsiLCJCYW5raW5nIiwiU29jaWFsIE1lZGlhIiwiU2hvcHBpbmciLCJPdGhlciJdfWA=".

(** [stored0] with its last data character [A] replaced by [B]. *)
Definition tampered0 : string :=
  "AwoRGB8mLTQ7QklQV15lbHN6gYiPlp2kq7K5wAFDAW8BcgFyAWUBYwF0AUgBbwFyAXMBZQExAQABAAEAAQABAAEAAQABAAEAAQABAAEAAQABAAEAAQABAAEAAQABAAEAAQABAAEAAQABAAEAAQABAAEAAQABAAEAAQABAAEAAQABAAEAAQABAAEAAQABAAEAAQABAAEAAQABAAEAAQMBCgERARgBHwEmAS0BNAE7AUIBSQFQAVcBXgFlAWwAAXMBegGBAYgBjwGWAZ0BpAGrAbIBuQHAAHsicGFzc3dvcmRzIjpbXSwiY2F0ZWdvcmllcyI6WyJQZXJzb25hbCIsIldvcmsiLCJCYW5raW5nIiwiU29jaWFsIE1lZGlhIiwiU2hvcHBpbmciLCJPdGhlciJdfWB=".

(** A text of 70000 characters, the payload that is this text, and a
    session whose one record has it for its notes. *)
Definition long_text : string :=
  string_of_list_ascii (replicate (N.to_nat 70000) "a"%char).

Definition large_payload : value := JStr long_text.

Definition large_record : value :=
  JObj [("id"%string, JStr "1700000000000");
        ("name"%string, JStr "Diary");
        ("website"%string, JStr "");
        ("username"%string, JStr "");
        ("password"%string, JStr "p@ss");
        ("category"%string, JStr "Personal");
        ("notes"%string, JStr long_text);
        ("createdDate"%string, JStr "2023-11-14T22:13:20.000Z");
        ("lastModified"%string, JStr "2023-11-14T22:13:20.000Z")].

Definition with_large_record : World :=
  with_this (set_passwords (JArr [large_record])) unlocked.

Definition work_fields : value :=
  JObj [("name"%string, JStr "Payroll"); ("password"%string, JStr "p@ss");
        ("category"%string, JStr "Work")].

Definition rename : value := JObj [("name"%string, JStr "Renamed")].

(** A session whose store holds the encryption of the object [{}], which
    has neither field. *)
Definition bare_blob : string :=
  sealed (JObj []) "CorrectHorse1" (salt_at unlocked) (iv_at unlocked).

Definition with_bare_store : World :=
  with_localStorage (fun store => <["encryptedData"%string := bare_blob]> store)
    with_two_records.

(** A session with a category of the user's own: after [lock] the name is
    still in memory. *)
Definition with_own_category : World :=
  with_this (set_categories (JArr (default_names ++ [JStr "Clinic"])))
    with_two_records.

End vocabulary.

(** ** The session and the store *)

Section page_vocabulary.
Context {platform : Platform}.

Import PasswordManager.

(** The store holds an encryption of the payload of [m] under [password],
    made with some salt and nonce of the right lengths. *)
Definition holds_sealed (w : World) (m : Manager) (password : string) : Prop :=
  exists salt iv,
    length salt = 16%nat /\ length iv = 12%nat
    /\ localStorage w !! "encryptedData"%string
       = Some (sealed (payload m) password salt iv).

(** The store is up to date: it holds the vault in memory under the master
    password in memory. *)
Definition persisted (w : World) : Prop :=
  holds_sealed w (this w) (USVString (masterPassword (this w))).

(** The vault in memory is an array of objects and an array of names. *)
Definition well_formed (w : World) : Prop :=
  exists xs names, vault (this w) xs names.

(** A record the page can show: an object whose fields on a card convert
    to text. *)
Definition presentable (p : value) : bool :=
  is_object p && forallb (fun k => converts (field p k)) card_fields.

(** A vault the page can render: an array of records it can show and an
    array of categories that convert to text. *)
Definition renderable (m : Manager) (xs names : list value) : Prop :=
  passwords m = JArr xs /\ categories m = JArr names
  /\ Forall (fun p => presentable p = true) xs
  /\ Forall (fun c => converts c = true) names.

(** The world in which [setupMasterPassword] saves: the verifier is in the
    store, the master password is set and the lock flag is cleared. *)
Definition entering (password : string) (w : World) : World :=
  with_this (fun m => set_isLocked false (set_masterPassword (Some password) m))
    (with_localStorage
       (fun store =>
          <["masterPasswordHash"%string :=
              CryptoManager.hashPassword password]> store)
       w).

(** What belongs to the session and not to the vault: the master password,
    the lock, the timers and listeners, the screen, and the verifier in the
    store. *)
Record Session : Type := mkSession {
  session_password : option string;
  session_locked : bool;
  session_timeout : option positive;
  session_timers : gset positive;
  session_next_timer : positive;
  session_listeners : nat;
  session_screen : Screen;
  session_verifier : option string
}.

Definition session (w : World) : Session :=
  mkSession (masterPassword (this w)) (isLocked (this w))
            (sessionTimeout (this w)) (timers w) (next_timer w)
            (listeners w) (screen w)
            (localStorage w !! "masterPasswordHash"%string).

(** A computation leaves an observation of the world as it was, whatever
    its outcome. *)
Definition keeps {A B : Type} (f : World -> B) (m : M A) : Prop :=
  forall w, f (snd (m w)) = f w.

(** A computation only reads the manager: it leaves the world as it was,
    and its outcome depends on the manager alone. *)
Definition reads_manager {A : Type} (m : M A) : Prop :=
  forall w,
    snd (m w) = w
    /\ forall w', this w' = this w -> fst (m w') = fst (m w).

(** What can happen to a page, one event after the other.  An operation is
    called from a handler; what it throws ends the handler and goes no
    further, and what it wrote before stays written. *)
Inductive event : Type :=
| SetupSubmitted (password confirm : string)
| LoginSubmitted (password : string)
| LockClicked
| Activity
| TimeoutExpired (t : positive)
| Operation (op : operation).

Definition happens (e : event) : M unit :=
  match e with
  | SetupSubmitted password confirm =>
      Page.setup_form_submit password confirm ;; ret tt
  | LoginSubmitted password => Page.login_form_submit password ;; ret tt
  | LockClicked => Page.lock_button_click ;; ret tt
  | Activity => Page.activity
  | TimeoutExpired t => Page.timeout_expires t
  | Operation op => fun w => (Ok tt, snd (run op w))
  end.

(** The world after a list of events. *)
Fixpoint after (es : list event) (w : World) : World :=
  match es with
  | [] => w
  | e :: rest => after rest (snd (happens e w))
  end.

(** No operation of the list throws the [RangeError] of a save past the
    engine's limit on arguments, each run in the world the one before
    left. *)
Fixpoint within_limits (ops : list operation) (w : World) : Prop :=
  match ops with
  | [] => True
  | op :: rest =>
      fst (run op w) <> Throw RangeError
      /\ within_limits rest (snd (run op w))
  end.

(** The timeout the manager has stored and the timeouts pending. *)
Definition timing (w : World) : option positive * gset positive :=
  (sessionTimeout (this w), timers w).

(** ** More concrete worlds *)

(** The values of a password form, with no category chosen. *)
Definition mail_form : Page.PasswordForm :=
  Page.mkPasswordForm "Mail" "example.org" "alice" "hunter2" "" "".

(** A page just loaded (a fresh manager, nothing armed) over a store that
    holds the verifier of a master password and the given blob. *)
Definition reloaded (blob : string) : World :=
  mkWorld PasswordManager.new
          (<["encryptedData"%string := blob]>
             (<["masterPasswordHash"%string :=
                  CryptoManager.hashPassword "CorrectHorse1"]> ∅))
          (fun n => byte_of_Z (Z.of_nat n * 7 + 3)) 28
          (fun n => 1700000000000 + Z.of_nat n) 0
          ∅ 1%positive 0 LoginScreen.

(** The store as a session on the empty vault left it. *)
Definition returning : World :=
  reloaded (sealed (payload (this unlocked)) "CorrectHorse1"
                   (salt_at unlocked) (iv_at unlocked)).

(** The store with a blob that is base64 but was not made by [encrypt]. *)
Definition corrupted : World := reloaded "AAAA".

(** The vault of two records under a clock that stands still. *)
Definition frozen : World :=
  mkWorld (this with_two_records) ∅
          (fun n => byte_of_Z (Z.of_nat n * 7 + 3)) 0
          (fun _ => 1700000000500) 0 ∅ 1%positive 0 MainApp.

(** A session that setup has just opened on a fresh page. *)
Definition opened : World :=
  snd (setupMasterPassword "CorrectHorse1" world0).

End page_vocabulary.

(** How often a character occurs in a text. *)
Fixpoint occurrences (c : ascii) (s : string) : nat :=
  match s with
  | EmptyString => 0
  | String c' rest =>
      ((if Ascii.eqb c' c then 1 else 0) + occurrences c rest)%nat
  end.


(** * Properties *)

(** ** The executable platform satisfies the contracts *)

Lemma bytes_eqb_refl (a : list byte) : Model.bytes_eqb a a = true.
Proof.
  unfold Model.bytes_eqb. rewrite Nat.eqb_refl. simpl.
  induction a as [|b a IH]; simpl; [reflexivity|].
  rewrite IH, andb_true_r. now apply Byte.byte_dec_lb.
Qed.

Lemma unframe_frame (bs rest : list byte) :
  Model.unframe (Model.frame bs ++ rest) = Some (bs, rest).
Proof.
  induction bs as [|b bs IH]; [reflexivity|].
  simpl. now rewrite IH.
Qed.

Lemma unseal_seal (key iv data : list byte) :
  Model.unseal key iv (Model.seal key iv data) = Some data.
Proof.
  unfold Model.unseal, Model.seal. cbv zeta.
  set (body := Model.frame key ++ Model.frame iv ++ data).
  rewrite length_app. cbn [length].
  replace (length body + 1 - 1)%nat with (length body) by lia.
  rewrite take_app_length, drop_app_length.
  unfold body at 1. rewrite unframe_frame, unframe_frame.
  rewrite !bytes_eqb_refl.
  now rewrite (Byte.byte_dec_lb eq_refl).
Qed.

Lemma digest_length (data : list byte) : length (Model.digest data) = 32%nat.
Proof.
  unfold Model.digest. rewrite length_take, length_app, length_replicate. lia.
Qed.

Lemma encode_NUL (s : string) :
  list_byte_of_string (s +:+ String Ascii.zero EmptyString)
  = list_byte_of_string s ++ [x00].
Proof.
  induction s as [|c s IH]; [reflexivity|].
  change (list_byte_of_string (String c (s +:+ String Ascii.zero EmptyString))
          = byte_of_ascii c :: list_byte_of_string s ++ [x00]).
  change (byte_of_ascii c
            :: list_byte_of_string (s +:+ String Ascii.zero EmptyString)
          = byte_of_ascii c :: list_byte_of_string s ++ [x00]).
  now rewrite IH.
Qed.

Lemma key_of_zero_padded (material salt : list byte) (iterations : Z) :
  (length material < 64)%nat ->
  Model.key_of (material ++ [x00]) salt iterations
  = Model.key_of material salt iterations.
Proof.
  intros Hlen. unfold Model.key_of. f_equal.
  rewrite <- app_assoc.
  change ([x00] ++ replicate 64 x00) with (replicate 65 x00).
  rewrite !take_app, !take_replicate.
  f_equal. f_equal. lia.
Qed.

Lemma digest_within_limit (data : list byte) :
  (length (Model.digest data) <= Model.limit)%nat.
Proof. rewrite digest_length. unfold Model.limit. lia. Qed.

#[global] Instance model_platform : Platform := {|
  CryptoKey := list byte;
  PBKDF2_AES_key := Model.key_of;
  AES_GCM_encrypt := Model.seal;
  AES_GCM_decrypt := Model.unseal;
  SHA256 := Model.digest;
  TextEncoder_encode := list_byte_of_string;
  TextDecoder_decode := string_of_list_byte;
  JSON_stringify := Model.stringify;
  JSON_parse := Model.parse;
  Date_toISOString := Model.iso;
  AES_GCM_decrypt_encrypt := unseal_seal;
  TextDecoder_decode_encode := string_of_list_byte_of_string;
  argument_limit := Model.limit;
  TextEncoder_encode_NUL := encode_NUL;
  PBKDF2_zero_padded_key := key_of_zero_padded;
  SHA256_within_limit := digest_within_limit
|}.


(** ** Base64 *)

Lemma byte_val_bounds (b : byte) : 0 <= byte_val b < 256.
Proof.
  unfold byte_val. pose proof (Byte.to_N_bounded b) as Hb. lia.
Qed.

Lemma byte_of_Z_val (b : byte) : byte_of_Z (byte_val b) = b.
Proof.
  unfold byte_of_Z. pose proof (byte_val_bounds b) as Hb.
  rewrite Z.mod_small by assumption.
  unfold byte_val. now rewrite N2Z.id, Byte.of_to_N.
Qed.

Lemma charCodes_fromCharCode (bs : list byte) : charCodes (fromCharCode bs) = bs.
Proof. apply list_byte_of_string_of_list_byte. Qed.

(** Below 64, by enumeration. *)
Lemma below_64 (P : Z -> Prop) :
  (forall k : nat, (k < 64)%nat -> P (Z.of_nat k)) ->
  forall n, 0 <= n < 64 -> P n.
Proof.
  intros HP n Hn. rewrite <- (Z2Nat.id n) by lia. apply HP. lia.
Qed.

Lemma char_sextet_char (n : Z) :
  0 <= n < 64 -> char_sextet (sextet_char n) = Some n.
Proof.
  revert n. apply below_64. intros k Hk.
  do 64 (destruct k as [|k]; [reflexivity|]). lia.
Qed.

Lemma sextet_char_plain (n : Z) :
  0 <= n < 64 ->
  is_ascii_whitespace (sextet_char n) = false
  /\ Ascii.eqb (sextet_char n) pad_char = false.
Proof.
  revert n. apply below_64. intros k Hk.
  do 64 (destruct k as [|k]; [split; reflexivity|]). lia.
Qed.

(** Induction over a byte array three bytes at a time. *)
Lemma triples_ind (P : list byte -> Prop) :
  P [] ->
  (forall a, P [a]) ->
  (forall a b, P [a; b]) ->
  (forall a b c rest, P rest -> P (a :: b :: c :: rest)) ->
  forall bs, P bs.
Proof.
  intros H0 H1 H2 H3 bs.
  assert (forall n bs, (length bs <= n)%nat -> P bs) as Hall.
  { induction n as [|n IH]; intros [|a [|b [|c rest]]] Hlen; simpl in Hlen;
      try lia; auto.
    apply H3, IH. lia. }
  now apply (Hall (length bs)).
Qed.

Lemma base64_chars_split (bs : list byte) :
  base64_chars bs = map sextet_char (sextets bs) ++ padding bs.
Proof.
  induction bs as [| | |a b c rest IH] using triples_ind; try reflexivity.
  simpl. now rewrite IH.
Qed.

Lemma sextets_range (bs : list byte) :
  Forall (fun n => 0 <= n < 64) (sextets bs).
Proof.
  induction bs as [|a|a b|a b c rest IH] using triples_ind; simpl;
    repeat constructor; try assumption;
    try pose proof (byte_val_bounds a); try pose proof (byte_val_bounds b);
    try pose proof (byte_val_bounds c);
    Z.div_mod_to_equations; lia.
Qed.

(** Lengths: the data characters number 0, 2 or 3 beyond a multiple of
    four, and the padding completes them to a multiple of four. *)
Lemma sextets_length (bs : list byte) :
  exists k,
    (padding bs = [] /\ length (sextets bs) = 4 * k)%nat
    \/ (padding bs = [pad_char; pad_char] /\ length (sextets bs) = 4 * k + 2)%nat
    \/ (padding bs = [pad_char] /\ length (sextets bs) = 4 * k + 3)%nat.
Proof.
  induction bs as [|a|a b|a b c rest IH] using triples_ind.
  - exists 0%nat. now left.
  - exists 0%nat. right. now left.
  - exists 0%nat. right. now right.
  - destruct IH as [k Hk]. exists (S k). simpl.
    destruct Hk as [[Hp Hl]|[[Hp Hl]|[Hp Hl]]]; rewrite Hp, Hl;
      [left|right; left|right; right]; split; (reflexivity || lia).
Qed.

Lemma mod4 (k r : nat) : (r < 4)%nat -> ((4 * k + r) mod 4 = r)%nat.
Proof.
  intros Hr. rewrite Nat.add_comm, Nat.mul_comm, Nat.Div0.mod_add.
  now apply Nat.mod_small.
Qed.

Lemma sextets_bytes_sextets (bs : list byte) : sextets_bytes (sextets bs) = bs.
Proof.
  assert (forall a b, 0 <= a < 256 -> 0 <= b < 256 ->
            a / 4 * 4 + (a mod 4 * 16 + b / 16) / 16 = a) as E1
    by (intros; Z.div_mod_to_equations; lia).
  assert (forall a b c, 0 <= a < 256 -> 0 <= b < 256 -> 0 <= c < 256 ->
            (a mod 4 * 16 + b / 16) mod 16 * 16
            + (b mod 16 * 4 + c / 64) / 4 = b) as E2
    by (intros; Z.div_mod_to_equations; lia).
  assert (forall b c, 0 <= b < 256 -> 0 <= c < 256 ->
            (b mod 16 * 4 + c / 64) mod 4 * 64 + c mod 64 = c) as E3
    by (intros; Z.div_mod_to_equations; lia).
  assert (forall a, 0 <= a < 256 -> a / 4 * 4 + (a mod 4 * 16) / 16 = a) as E4
    by (intros; Z.div_mod_to_equations; lia).
  assert (forall a b, 0 <= a < 256 -> 0 <= b < 256 ->
            (a mod 4 * 16 + b / 16) mod 16 * 16 + (b mod 16 * 4) / 4 = b) as E5
    by (intros; Z.div_mod_to_equations; lia).
  induction bs as [|a|a b|a b c rest IH] using triples_ind; simpl.
  - reflexivity.
  - pose proof (byte_val_bounds a).
    now rewrite E4, byte_of_Z_val.
  - pose proof (byte_val_bounds a). pose proof (byte_val_bounds b).
    now rewrite E1, E5, !byte_of_Z_val.
  - pose proof (byte_val_bounds a). pose proof (byte_val_bounds b).
    pose proof (byte_val_bounds c).
    now rewrite E1, E2, E3, !byte_of_Z_val, IH.
Qed.

Lemma mapM_char_sextet (ns : list Z) :
  Forall (fun n => 0 <= n < 64) ns ->
  mapM char_sextet (map sextet_char ns) = Some ns.
Proof.
  intros Hns. apply mapM_Some.
  induction Hns as [|n ns Hn _ IH]; simpl; constructor;
    [now apply char_sextet_char|assumption].
Qed.

Lemma filter_plain (ns : list Z) (pad : list ascii) :
  Forall (fun n => 0 <= n < 64) ns ->
  Forall (fun c => c = pad_char) pad ->
  List.filter (fun c => negb (is_ascii_whitespace c))
              (map sextet_char ns ++ pad)
  = map sextet_char ns ++ pad.
Proof.
  intros Hns Hpad. induction Hns as [|n ns Hn _ IH]; simpl.
  - induction Hpad as [|c pad -> _ IH]; simpl; [reflexivity|].
    now rewrite IH.
  - destruct (sextet_char_plain n Hn) as [-> _]. simpl. now rewrite IH.
Qed.

Lemma padding_pads (bs : list byte) :
  Forall (fun c => c = pad_char) (padding bs).
Proof.
  induction bs as [|a|a b|a b c rest IH] using triples_ind; simpl;
    repeat constructor; assumption.
Qed.

(** The last data character is no [=]. *)
Lemma rev_data_head (ns : list Z) :
  Forall (fun n => 0 <= n < 64) ns ->
  match rev (map sextet_char ns) with
  | c :: _ => Ascii.eqb c pad_char = false
  | [] => ns = []
  end.
Proof.
  intros Hns. destruct ns as [|n ns] using rev_ind; [reflexivity|].
  rewrite map_app, rev_app_distr. simpl.
  apply Forall_app in Hns as [_ Hn]. apply Forall_cons in Hn as [Hn _].
  now destruct (sextet_char_plain n Hn).
Qed.

Lemma strip_padding_data (ns : list Z) (pad : list ascii) (k : nat) :
  Forall (fun n => 0 <= n < 64) ns ->
  (pad = [] /\ length ns = 4 * k)%nat
  \/ (pad = [pad_char; pad_char] /\ length ns = 4 * k + 2)%nat
  \/ (pad = [pad_char] /\ length ns = 4 * k + 3)%nat ->
  strip_padding (map sextet_char ns ++ pad) = map sextet_char ns.
Proof.
  intros Hrange Hshape.
  pose proof (rev_data_head _ Hrange) as Hhead.
  unfold strip_padding.
  destruct Hshape as [[Hp Hl]|[[Hp Hl]|[Hp Hl]]];
    rewrite Hp, length_app, length_map, Hl; simpl length.
  - rewrite (mod4 k 0) by lia. simpl. rewrite app_nil_r.
    destruct (rev (map sextet_char ns)) as [|c1 [|c2 r]] eqn:Hrev.
    + reflexivity.
    + now rewrite Hhead.
    + now rewrite Hhead.
  - replace (4 * k + 2 + 2)%nat with (4 * S k + 0)%nat by lia.
    rewrite mod4 by lia. simpl.
    rewrite rev_app_distr. simpl. now rewrite rev_involutive.
  - replace (4 * k + 3 + 1)%nat with (4 * S k + 0)%nat by lia.
    rewrite mod4 by lia. simpl.
    rewrite rev_app_distr. simpl.
    destruct (rev (map sextet_char ns)) as [|c2 r] eqn:Hrev.
    + rewrite Hhead in Hl. simpl in Hl. lia.
    + rewrite Hhead.
      change (rev r ++ [c2]) with (rev (c2 :: r)).
      now rewrite <- Hrev, rev_involutive.
Qed.

(** Any text whose data characters stand for sextets that regroup to [bs]
    decodes to [bs]. *)
Lemma atob_text (bs : list byte) (ns : list Z) :
  Forall (fun n => 0 <= n < 64) ns ->
  length ns = length (sextets bs) ->
  sextets_bytes ns = bs ->
  atob (string_of_list_ascii (map sextet_char ns ++ padding bs))
  = Ok (fromCharCode bs).
Proof.
  intros Hrange Hlen Hbytes. unfold atob.
  rewrite list_ascii_of_string_of_list_ascii.
  rewrite filter_plain by (assumption || apply padding_pads).
  destruct (sextets_length bs) as [k Hshape].
  rewrite (strip_padding_data ns (padding bs) k), length_map
    by (assumption || now rewrite Hlen).
  rewrite Hlen.
  destruct Hshape as [[_ Hl]|[[_ Hl]|[_ Hl]]]; rewrite Hl.
  - rewrite <- (Nat.add_0_r (4 * k)), mod4 by lia. simpl.
    now rewrite mapM_char_sextet, Hbytes.
  - rewrite mod4 by lia. simpl. now rewrite mapM_char_sextet, Hbytes.
  - rewrite mod4 by lia. simpl. now rewrite mapM_char_sextet, Hbytes.
Qed.

(** [atob] inverts [btoa] on every binary string. *)
Lemma atob_btoa (bs : list byte) :
  atob (btoa (fromCharCode bs)) = Ok (fromCharCode bs).
Proof.
  unfold btoa. rewrite charCodes_fromCharCode, base64_chars_split.
  apply atob_text;
    [apply sextets_range|reflexivity|apply sextets_bytes_sextets].
Qed.

(** *** Texts that differ in one character *)

Lemma slack_sextets_range (bs : list byte) :
  Forall (fun n => 0 <= n < 64) (slack_sextets bs).
Proof.
  induction bs as [|a|a b|a b c rest IH] using triples_ind; simpl;
    repeat constructor; try assumption;
    try pose proof (byte_val_bounds a); try pose proof (byte_val_bounds b);
    try pose proof (byte_val_bounds c);
    Z.div_mod_to_equations; lia.
Qed.

Lemma slack_sextets_length (bs : list byte) :
  length (slack_sextets bs) = length (sextets bs).
Proof.
  induction bs as [|a|a b|a b c rest IH] using triples_ind; simpl;
    congruence.
Qed.

Lemma sextets_bytes_slack (bs : list byte) :
  sextets_bytes (slack_sextets bs) = bs.
Proof.
  assert (forall a b, 0 <= a < 256 -> 0 <= b < 256 ->
            a / 4 * 4 + (a mod 4 * 16 + b / 16) / 16 = a) as E1
    by (intros; Z.div_mod_to_equations; lia).
  assert (forall a b c, 0 <= a < 256 -> 0 <= b < 256 -> 0 <= c < 256 ->
            (a mod 4 * 16 + b / 16) mod 16 * 16
            + (b mod 16 * 4 + c / 64) / 4 = b) as E2
    by (intros; Z.div_mod_to_equations; lia).
  assert (forall b c, 0 <= b < 256 -> 0 <= c < 256 ->
            (b mod 16 * 4 + c / 64) mod 4 * 64 + c mod 64 = c) as E3
    by (intros; Z.div_mod_to_equations; lia).
  assert (forall a, 0 <= a < 256 ->
            a / 4 * 4 + (a mod 4 * 16 + 1) / 16 = a) as E4
    by (intros; Z.div_mod_to_equations; lia).
  assert (forall a b, 0 <= a < 256 -> 0 <= b < 256 ->
            (a mod 4 * 16 + b / 16) mod 16 * 16 + (b mod 16 * 4 + 1) / 4 = b)
    as E5 by (intros; Z.div_mod_to_equations; lia).
  induction bs as [|a|a b|a b c rest IH] using triples_ind; simpl.
  - reflexivity.
  - pose proof (byte_val_bounds a).
    now rewrite E4, byte_of_Z_val.
  - pose proof (byte_val_bounds a). pose proof (byte_val_bounds b).
    now rewrite E1, E5, !byte_of_Z_val.
  - pose proof (byte_val_bounds a). pose proof (byte_val_bounds b).
    pose proof (byte_val_bounds c).
    now rewrite E1, E2, E3, !byte_of_Z_val, IH.
Qed.

Lemma slack_sextets_last (bs : list byte) :
  padding bs <> [] ->
  exists pre x,
    sextets bs = pre ++ [x] /\ slack_sextets bs = pre ++ [x + 1]
    /\ 0 <= x /\ x + 1 < 64.
Proof.
  induction bs as [|a|a b|a b c rest IH] using triples_ind; simpl;
    intros Hpad.
  - congruence.
  - exists [byte_val a / 4], (byte_val a mod 4 * 16).
    pose proof (byte_val_bounds a).
    repeat split; Z.div_mod_to_equations; lia.
  - exists [byte_val a / 4; byte_val a mod 4 * 16 + byte_val b / 16],
           (byte_val b mod 16 * 4).
    pose proof (byte_val_bounds b).
    repeat split; Z.div_mod_to_equations; lia.
  - destruct (IH Hpad) as (pre & x & -> & -> & Hx).
    eexists (_ :: _ :: _ :: _ :: pre), x. repeat split; apply Hx.
Qed.

Lemma sextet_char_inj (m n : Z) :
  0 <= m < 64 -> 0 <= n < 64 -> sextet_char m = sextet_char n -> m = n.
Proof.
  intros Hm Hn Heq.
  pose proof (char_sextet_char m Hm) as Em.
  rewrite Heq, (char_sextet_char n Hn) in Em. congruence.
Qed.

(** When the text is padded, changing one character of it can leave the
    bytes it decodes to unchanged. *)
Lemma slack_bits_ignored (bs : list byte) :
  padding bs <> [] ->
  one_char_changed (btoa (fromCharCode bs)) (slack_text bs)
  /\ atob (slack_text bs) = Ok (fromCharCode bs).
Proof.
  intros Hpad. split.
  - unfold one_char_changed, btoa, slack_text.
    rewrite charCodes_fromCharCode, base64_chars_split,
      !list_ascii_of_string_of_list_ascii.
    destruct (slack_sextets_last bs Hpad) as (pre & x & -> & -> & Hx0 & Hx1).
    exists (map sextet_char pre), (sextet_char x), (sextet_char (x + 1)),
           (padding bs).
    rewrite !map_app, <- !app_assoc. simpl.
    repeat split. intros Heq. apply sextet_char_inj in Heq; lia.
  - apply atob_text;
      [apply slack_sextets_range|apply slack_sextets_length
      |apply sextets_bytes_slack].
Qed.

(** A text that starts with a character outside the alphabet is refused. *)
Lemma strip_padding_head (c : ascii) (r : list ascii) :
  Ascii.eqb c pad_char = false ->
  exists r', strip_padding (c :: r) = c :: r'.
Proof.
  intros Hc. unfold strip_padding.
  destruct (_ =? 0)%nat; [|now exists r].
  destruct r as [|z r0 _] using rev_ind.
  - simpl. rewrite Hc. now exists [].
  - destruct r0 as [|y r1 _] using rev_ind.
    + simpl. destruct (Ascii.eqb z pad_char).
      * rewrite Hc. simpl. now exists [].
      * now exists [z].
    + replace (rev (c :: (r1 ++ [y]) ++ [z])) with (z :: y :: rev (c :: r1))
        by (simpl; now rewrite !rev_app_distr).
      destruct (Ascii.eqb z pad_char); [|now eexists].
      destruct (Ascii.eqb y pad_char).
      * rewrite rev_involutive. now eexists.
      * change (y :: rev (c :: r1)) with (rev ((c :: r1) ++ [y])) ||
        replace (y :: rev (c :: r1)) with (rev ((c :: r1) ++ [y]))
          by (now rewrite rev_app_distr).
        rewrite rev_involutive. now eexists.
Qed.

Lemma atob_bad_head (c : ascii) (rest : string) :
  char_sextet c = None ->
  is_ascii_whitespace c = false ->
  Ascii.eqb c pad_char = false ->
  atob (String c rest) = Throw InvalidCharacterError.
Proof.
  intros Hc Hws Hpad. unfold atob. simpl. rewrite Hws. simpl.
  destruct (strip_padding_head c
              (List.filter (fun c0 => negb (is_ascii_whitespace c0))
                           (list_ascii_of_string rest)) Hpad) as [r' ->].
  destruct (_ =? 1)%nat; [reflexivity|].
  simpl. now rewrite Hc.
Qed.

Lemma atob_error (s : string) (e : error) :
  atob s = Throw e -> e = InvalidCharacterError.
Proof.
  unfold atob. destruct (_ =? 1)%nat; [congruence|].
  destruct (mapM _ _); congruence.
Qed.



Section properties.
Context {platform : Platform}.

Import PasswordManager.

(** ** Setup *)

(** C7.  A master password of fewer than eight code units makes
    [setupMasterPassword] throw the weak-password error and leaves the world
    exactly as it was: nothing was hashed or encrypted (the random source is
    untouched), nothing was written to [localStorage], the manager's fields
    are unchanged.  In particular no [masterPasswordHash] appears in a store
    that had none. *)
Theorem C7_setup_rejects_short_password (password : string) (w : World) :
  (String.length password < 8)%nat ->
  setupMasterPassword password w = (Throw WeakPasswordError, w)
  /\ (localStorage w !! "masterPasswordHash"%string = None ->
      localStorage (snd (setupMasterPassword password w))
        !! "masterPasswordHash"%string = None).
Proof.
  intros Hshort. unfold setupMasterPassword.
  apply Nat.ltb_lt in Hshort. rewrite Hshort. split; [reflexivity|].
  intros Hnone. exact Hnone.
Qed.



(** ** Locking *)

(** What [lock] does to each part of the world. *)
Lemma lock_run (w : World) :
  lock w =
  (Ok tt,
   mkWorld (mkManager None (JArr []) (categories (this w)) None true)
           (localStorage w) (entropy w) (drawn w) (clock w) (ticks w)
           (match sessionTimeout (this w) with
            | Some t => timers w ∖ {[t]}
            | None => timers w
            end)
           (next_timer w) (listeners w) LoginScreen).
Proof.
  destruct w as [[mp ps cs st lk] store en dr ck tk tm nt ls sc].
  destruct st as [t|]; reflexivity.
Qed.

Lemma resetTimeout_timer_invariant (w : World) :
  timer_invariant w -> timer_invariant (snd (resetTimeout w)).
Proof.
  destruct w as [[mp ps cs st lk] store en dr ck tk tm nt ls sc].
  unfold timer_invariant. destruct st as [t|]; simpl; intros Hinv; set_solver.
Qed.

Lemma lock_no_pending_timer (w : World) :
  timer_invariant w -> timers (snd (lock w)) = ∅.
Proof.
  rewrite lock_run. unfold timer_invariant. simpl.
  destruct (sessionTimeout (this w)) as [t|]; [|done].
  intros Hinv. set_solver.
Qed.

(** C5.  [lock] returns normally and leaves the session locked, the master
    password cleared, the record list empty, no session timer stored and the
    stored timer no longer pending (none pending at all when the session
    timer was the only one); the category set, however, stays in memory as
    it was. *)
Theorem C5_lock_retains_categories (w : World) :
  fst (lock w) = Ok tt
  /\ isLocked (this (snd (lock w))) = true
  /\ masterPassword (this (snd (lock w))) = None
  /\ passwords (this (snd (lock w))) = JArr []
  /\ sessionTimeout (this (snd (lock w))) = None
  /\ (forall t, sessionTimeout (this w) = Some t -> t ∉ timers (snd (lock w)))
  /\ (timer_invariant w -> timers (snd (lock w)) = ∅)
  /\ screen (snd (lock w)) = LoginScreen
  /\ categories (this (snd (lock w))) = categories (this w).
Proof.
  repeat split; try (rewrite lock_run; reflexivity).
  - intros t Ht. rewrite lock_run. simpl. rewrite Ht. set_solver.
  - apply lock_no_pending_timer.
Qed.

(** ** Reloading *)

Lemma bind_run {A B : Type} (m : M A) (f : A -> M B) (w w' : World) (a : A) :
  m w = (Ok a, w') -> bind m f w = f a w'.
Proof. intros Hm. unfold bind. now rewrite Hm. Qed.

(** C10.  When the store holds a blob that decrypts to an object, [loadData]
    returns normally with [passwords] set to the object's [passwords] field,
    or to the empty array when that field is missing or falsy, and with
    [categories] set to the object's [categories] field, or left as it was in
    memory when that field is missing or falsy. *)
Theorem C10_loadData_defaults (w : World) (blob : string)
    (data : list (string * value)) :
  localStorage w !! "encryptedData"%string = Some blob ->
  blob <> EmptyString ->
  CryptoManager.decrypt blob (USVString (masterPassword (this w)))
    = Ok (JObj data) ->
  let ps := default JUndefined (assoc_get "passwords" data) in
  let cs := default JUndefined (assoc_get "categories" data) in
  exists w',
    loadData w = (Ok tt, w')
    /\ passwords (this w') = js_or ps (JArr [])
    /\ categories (this w') = js_or cs (categories (this w))
    /\ (truthy ps = false -> passwords (this w') = JArr [])
    /\ (truthy cs = false -> categories (this w') = categories (this w))
    /\ localStorage w' = localStorage w.
Proof.
  intros Hblob Hne Hdec ps cs.
  unfold loadData.
  erewrite bind_run; [|unfold getItem, gets; rewrite Hblob; reflexivity].
  destruct blob as [|c s]; [congruence|].
  unfold bind at 1. unfold gets at 1.
  unfold bind at 1. unfold lift at 1. rewrite Hdec.
  unfold bind, lift, gets, modify. simpl.
  fold ps. fold cs.
  eexists. split; [reflexivity|]. simpl.
  repeat split.
  - intros Hf. unfold js_or. now rewrite Hf.
  - intros Hf. unfold js_or. now rewrite Hf.
Qed.



(** ** Persistence *)

(** [encrypt] draws its 28 random bytes and then returns the blob or, past
    the limit on arguments, throws. *)
Lemma encrypt_run (data : value) (password : string) (w : World) :
  CryptoManager.encrypt data password w =
  (if within_limit data password (salt_at w) (iv_at w)
   then Ok (sealed data password (salt_at w) (iv_at w))
   else Throw RangeError,
   with_drawn (drawn w + 16 + 12) w).
Proof.
  unfold CryptoManager.encrypt, bind, getRandomValues, lift, ret, spread,
    within_limit, combined, sealed, salt_at, iv_at.
  cbn [drawn with_drawn entropy].
  now destruct (_ <=? _)%nat.
Qed.

Lemma salt_at_length (w : World) : length (salt_at w) = 16%nat.
Proof. unfold salt_at. now rewrite length_map, length_seq. Qed.

Lemma iv_at_length (w : World) : length (iv_at w) = 12%nat.
Proof. unfold iv_at. now rewrite length_map, length_seq. Qed.

(** [saveData] consumes 28 random bytes and leaves the manager untouched;
    when the vault fits it overwrites the one slot of the store and returns,
    otherwise it throws and the store is as it was. *)
Lemma saveData_run (w : World) :
  saveData w =
  if fits w then
    (Ok tt,
     with_localStorage
       (fun store => <["encryptedData"%string := stored_blob w]> store)
       (with_drawn (drawn w + 16 + 12) w))
  else (Throw RangeError, with_drawn (drawn w + 16 + 12) w).
Proof.
  unfold saveData, bind at 1, gets at 1, bind at 1, gets at 1, bind.
  rewrite encrypt_run. unfold fits, stored_blob, payload.
  now destruct (within_limit _ _ _ _).
Qed.

Lemma saveData_this (w : World) : this (snd (saveData w)) = this w.
Proof. rewrite saveData_run. now destruct (fits w). Qed.

Lemma passwords_set (v : value) (w : World) :
  passwords (this (with_this (set_passwords v) w)) = v.
Proof. now destruct w as [[]]. Qed.

Lemma categories_set (v : value) (w : World) :
  categories (this (with_this (set_categories v) w)) = v.
Proof. now destruct w as [[]]. Qed.

Lemma saveData_fits (w : World) :
  fits w = true ->
  saveData w =
  (Ok tt,
   with_localStorage
     (fun store => <["encryptedData"%string := stored_blob w]> store)
     (with_drawn (drawn w + 16 + 12) w)).
Proof. intros Hfits. now rewrite saveData_run, Hfits. Qed.

(** [saveData] returns exactly when the vault fits. *)
Lemma saveData_Ok (w : World) : fst (saveData w) = Ok tt <-> fits w = true.
Proof.
  rewrite saveData_run. destruct (fits w); simpl; [tauto|].
  split; discriminate.
Qed.

(** Whether the vault fits depends on the vault, the master password and
    the random bytes to come. *)
Lemma fits_same (w w' : World) :
  this w' = this w -> entropy w' = entropy w -> drawn w' = drawn w ->
  fits w' = fits w.
Proof.
  intros Ht He Hd. unfold fits, salt_at, iv_at. now rewrite Ht, He, Hd.
Qed.

(** ** Records and categories *)

Lemma assoc_get_set (k k' : string) (v : value) (o : list (string * value)) :
  assoc_get k (assoc_set k' v o) =
  if String.eqb k k' then Some v else assoc_get k o.
Proof.
  induction o as [|[k0 v0] o IH]; simpl.
  - destruct (String.eqb k k'); reflexivity.
  - destruct (String.eqb k' k0) eqn:E0; simpl.
    + apply String.eqb_eq in E0. subst k0.
      destruct (String.eqb k k'); reflexivity.
    + destruct (String.eqb k k0) eqn:E1.
      * apply String.eqb_eq in E1. subst k0.
        rewrite String.eqb_sym in E0. now rewrite E0.
      * exact IH.
Qed.

Lemma Get_object (o : list (string * value)) (k : string) :
  Get (JObj o) k = Ok (default JUndefined (assoc_get k o)).
Proof. reflexivity. Qed.

Lemma strict_equal_JStr (v : value) (s : string) :
  strict_equal v (JStr s) = true <-> v = JStr s.
Proof.
  destruct v; simpl; try (split; [discriminate|congruence]).
  rewrite String.eqb_eq. split; congruence.
Qed.

Lemma reassign_objects (name : string) (xs : list value) :
  Forall (fun p => is_object p = true) xs ->
  reassign name xs = (map (moved name) xs, None).
Proof.
  induction 1 as [|p xs Hp _ IH]; [reflexivity|].
  destruct p as [| | | | | |o]; try discriminate.
  simpl. rewrite IH.
  destruct (strict_equal _ _); reflexivity.
Qed.

Lemma moved_object (name : string) (p : value) :
  is_object p = true -> is_object (moved name p) = true.
Proof.
  destruct p; try discriminate. intros _. simpl.
  destruct (strict_equal _ _); reflexivity.
Qed.

Lemma deleteCategory_run (w : World) (xs names : list value) (name : string) :
  vault (this w) xs names ->
  deleteCategory name w =
  saveData (with_this (set_categories (JArr (without name names)))
              (with_this (set_passwords (JArr (map (moved name) xs))) w)).
Proof.
  intros (Hps & Hcs & Hobj).
  unfold deleteCategory, bind, gets, modify at 1. rewrite Hps.
  rewrite (reassign_objects _ _ Hobj). simpl. rewrite Hcs. reflexivity.
Qed.

Lemma not_in_without (name : string) (names : list value) :
  JStr name ∉ without name names.
Proof.
  unfold without. rewrite list_elem_of_In, filter_In.
  intros [_ Hneq]. apply negb_true_iff in Hneq.
  assert (strict_equal (JStr name) (JStr name) = true) as Heq
    by now apply strict_equal_JStr.
  congruence.
Qed.

(** What [saveData] returns, and the world it leaves. *)
Lemma saveData_outcome (w : World) :
  saveData w
  = (if fits w then Ok tt else Throw RangeError, snd (saveData w)).
Proof. rewrite saveData_run. now destruct (fits w). Qed.

Lemma with_vault_this (xs names : list value) (w : World) :
  passwords (this (with_vault xs names w)) = JArr xs
  /\ categories (this (with_vault xs names w)) = JArr names.
Proof. now destruct w as [[]]. Qed.

Lemma deleteCategory_vault (w : World) (xs names : list value) (name : string) :
  vault (this w) xs names ->
  deleteCategory name w
  = saveData (with_vault (map (moved name) xs) (without name names) w).
Proof. apply deleteCategory_run. Qed.

(** C4.  In a vault whose entries are objects, [deleteCategory C] leaves a
    record whose category was [C] at the same place with category ['Other']
    and its other fields as they were, and [C] is no longer an entry of the
    category set; this is so whether or not the save that ends the call
    returns.  The call returns normally exactly when the vault it leaves is
    within the engine's limit on arguments. *)
Theorem C4_deleteCategory_reassigns (w : World) (xs names : list value)
    (C : string) (i : nat) (r : value) :
  vault (this w) xs names ->
  xs !! i = Some r ->
  Get r "category" = Ok (JStr C) ->
  exists w' xs' names' r',
    snd (deleteCategory C w) = w'
    /\ (fst (deleteCategory C w) = Ok tt
        <-> fits (with_vault xs' names' w) = true)
    /\ passwords (this w') = JArr xs'
    /\ categories (this w') = JArr names'
    /\ length xs' = length xs
    /\ xs' !! i = Some r'
    /\ Get r' "category" = Ok (JStr "Other")
    /\ (forall k, k <> "category"%string -> Get r' k = Get r k)
    /\ JStr C ∉ names'.
Proof.
  intros Hv Hi Hcat.
  exists (snd (deleteCategory C w)), (map (moved C) xs), (without C names),
         (moved C r).
  rewrite (deleteCategory_vault _ _ _ _ Hv).
  split; [reflexivity|]. split; [apply saveData_Ok|].
  rewrite saveData_this.
  destruct (with_vault_this (map (moved C) xs) (without C names) w)
    as [Hps' Hcs'].
  split; [exact Hps'|]. split; [exact Hcs'|].
  destruct Hv as (_ & _ & Hobj).
  assert (is_object r = true) as Hr.
  { rewrite Forall_forall in Hobj. apply Hobj.
    eapply list_elem_of_lookup_2; eauto. }
  destruct r as [| | | | | |o]; try discriminate.
  rewrite Get_object in Hcat. injection Hcat as Hcat.
  repeat split.
  - now rewrite length_map.
  - now rewrite list_lookup_fmap, Hi.
  - simpl. rewrite Hcat.
    replace (strict_equal (JStr C) (JStr C)) with true
      by (symmetry; now apply strict_equal_JStr).
    rewrite Get_object, assoc_get_set. reflexivity.
  - intros k Hk. simpl. rewrite Hcat.
    replace (strict_equal (JStr C) (JStr C)) with true
      by (symmetry; now apply strict_equal_JStr).
    rewrite !Get_object, assoc_get_set.
    destruct (String.eqb k "category") eqn:E; [|reflexivity].
    apply String.eqb_eq in E. contradiction.
  - apply not_in_without.
Qed.



(** *** Reading the operations on a vault of objects *)

Lemma Get_field (p : value) (k : string) :
  is_object p = true -> Get p k = Ok (field p k).
Proof. destruct p; try discriminate. reflexivity. Qed.

Lemma findIndex_objects (id : value) (xs : list value) :
  Forall (fun p => is_object p = true) xs ->
  findIndex (has_id id) xs
  = Ok (index_where (fun p => strict_equal (field p "id") id) xs).
Proof.
  induction 1 as [|p xs Hp _ IH]; [reflexivity|].
  simpl. unfold has_id at 1. rewrite (Get_field _ _ Hp). simpl.
  destruct (strict_equal _ _); [reflexivity|].
  now rewrite IH.
Qed.

Lemma filterM_objects (f : value -> result bool) (g : value -> bool)
    (xs : list value) :
  Forall (fun p => f p = Ok (g p)) xs ->
  filterM f xs = Ok (List.filter g xs).
Proof.
  induction 1 as [|p xs Hp _ IH]; [reflexivity|].
  simpl. rewrite Hp, IH. simpl. reflexivity.
Qed.

Lemma index_where_Some (f : value -> bool) (xs : list value) (i : nat) :
  index_where f xs = Some i ->
  exists p, xs !! i = Some p /\ f p = true
            /\ forall j q, (j < i)%nat -> xs !! j = Some q -> f q = false.
Proof.
  revert i. induction xs as [|x xs IH]; intros i; simpl; [discriminate|].
  destruct (f x) eqn:Hfx.
  - intros [= <-]. exists x. repeat split; [assumption|]. intros j q Hj. lia.
  - destruct (index_where f xs) as [i'|]; [|discriminate].
    intros [= <-]. destruct (IH i' eq_refl) as (p & Hp & Hfp & Hbefore).
    exists p. repeat split; [assumption..|].
    intros [|j] q Hj Hq; simpl in Hq.
    + congruence.
    + apply (Hbefore j); [lia|assumption].
Qed.

Lemma index_where_None (f : value -> bool) (xs : list value) :
  index_where f xs = None <-> Forall (fun p => f p = false) xs.
Proof.
  induction xs as [|x xs IH]; simpl.
  - split; [constructor|reflexivity].
  - destruct (f x) eqn:Hfx.
    + split; [discriminate|]. intros Hall.
      apply Forall_cons in Hall as [Hx _]. congruence.
    + destruct (index_where f xs).
      * split; [discriminate|]. intros Hall.
        apply Forall_cons in Hall as [_ Hrest].
        apply IH in Hrest. discriminate.
      * split; [|reflexivity]. intros _. constructor; [assumption|].
        now apply IH.
Qed.

(** [addPassword] puts the record in memory and then saves: it returns the
    record when the save returns, and throws what the save throws. *)
Lemma addPassword_run (fields : value) (w : World) (xs : list value) :
  passwords (this w) = JArr xs ->
  fields <> JUndefined -> fields <> JNull ->
  let saving :=
    with_this (set_passwords (JArr (added fields w :: xs)))
              (with_ticks (S (S (S (ticks w)))) w) in
  addPassword fields w =
  (if fits saving then Ok (added fields w) else Throw RangeError,
   snd (saveData saving)).
Proof.
  intros Hps Hu Hn saving.
  unfold addPassword, bind, Date_now, new_Date_toISOString, bind, Date_now,
    lift, gets, ret.
  destruct fields; try congruence; simpl; rewrite Hps;
    match goal with
    | |- context [saveData ?w1] => change w1 with saving
    end;
    rewrite (saveData_outcome saving); now destruct (fits saving).
Qed.

Lemma updatePassword_run (id updates : value) (w : World)
    (xs names : list value) :
  vault (this w) xs names ->
  updatePassword id updates w =
  match index_where (fun p => strict_equal (field p "id") id) xs with
  | Some _ =>
      saveData (with_this (set_passwords (JArr (updated id updates xs w)))
                  (with_ticks (S (ticks w)) w))
  | None => (Ok tt, w)
  end.
Proof.
  intros (Hps & _ & Hobj).
  unfold updatePassword, bind at 1, gets at 1. rewrite Hps.
  unfold bind at 1, lift at 1. rewrite (findIndex_objects _ _ Hobj).
  unfold updated.
  destruct (index_where _ xs) as [i|]; reflexivity.
Qed.

Lemma deletePassword_run (id : value) (w : World) (xs names : list value) :
  vault (this w) xs names ->
  deletePassword id w =
  saveData (with_this (set_passwords (JArr (remaining id xs))) w).
Proof.
  intros (Hps & _ & Hobj).
  unfold deletePassword, bind at 1, gets at 1. rewrite Hps.
  unfold bind at 1, lift at 1.
  rewrite (filterM_objects _ (fun p => negb (strict_equal (field p "id") id))).
  - reflexivity.
  - eapply Forall_impl; [exact Hobj|]. intros p Hp. simpl in Hp.
    unfold lacks_id. now rewrite (Get_field _ _ Hp).
Qed.

Lemma addCategory_run (name : string) (w : World) (names : list value) :
  categories (this w) = JArr names ->
  addCategory name w =
  if existsb (strict_equal (JStr name)) names then (Ok tt, w)
  else saveData (with_this (set_categories (JArr (names ++ [JStr name]))) w).
Proof.
  intros Hcs. unfold addCategory, bind at 1, gets at 1. rewrite Hcs.
  destruct (existsb _ names); reflexivity.
Qed.



(** *** The category invariant *)

Lemma unlocked_valid : categories_valid (this unlocked).
Proof. eexists _, _. repeat split. constructor. Qed.

Lemma Fitness_not_default :
  JStr "Fitness" ∉
    [JStr "Personal"; JStr "Work"; JStr "Banking"; JStr "Social Media";
     JStr "Shopping"; JStr "Other"].
Proof.
  intros Hin.
  repeat (apply elem_of_cons in Hin as [Hin|Hin]; [discriminate|]).
  now apply elem_of_nil in Hin.
Qed.

Lemma saveData_cases (w : World) :
  fst (saveData w) = Ok tt \/ fst (saveData w) = Throw RangeError.
Proof. rewrite saveData_run. destruct (fits w); auto. Qed.

(** [addPassword] with a category outside the set stores the record under
    that very category; it returns normally where the vault fits. *)
Lemma addRecord_outside_set :
  fits (with_vault [added gym unlocked] default_names unlocked) = true ->
  exists w',
    run (AddRecord gym) unlocked = (Ok tt, w')
    /\ ~ categories_valid (this w').
Proof.
  intros Hfits. eexists. split.
  - unfold run, bind.
    rewrite (addPassword_run gym unlocked []);
      [|reflexivity|discriminate..].
    cbv zeta.
    erewrite fits_same; [rewrite Hfits| |reflexivity..]; reflexivity.
  - rewrite saveData_this.
    intros (xs & names & Hps & Hcs & Hall). simpl in Hps, Hcs.
    injection Hps as <-. injection Hcs as <-.
    apply Forall_cons in Hall as [[_ Hin] _].
    now apply Fitness_not_default in Hin.
Qed.

Lemma C3_as_stated_fails :
  fits (with_vault [added gym unlocked] default_names unlocked) = true ->
  ~ C3_as_stated.
Proof.
  intros Hfits Hclaim.
  destruct (addRecord_outside_set Hfits) as (w' & Hrun & Hbad).
  apply Hbad. exact (Hclaim _ _ _ unlocked_valid Hrun).
Qed.

Lemma deleteCategory_Other_orphans :
  categories_valid (this with_other_record)
  /\ ~ categories_valid
        (this (snd (run (DeleteCategory "Other") with_other_record))).
Proof.
  split.
  - eexists _, _. split; [reflexivity|]. split; [reflexivity|].
    constructor; [|constructor]. split; [reflexivity|].
    unfold field. simpl. set_solver.
  - unfold run.
    rewrite (deleteCategory_run _ [JObj [("id"%string, JStr "1");
                                         ("name"%string, JStr "Misc");
                                         ("category"%string, JStr "Other")]]
               default_names) by (repeat split; repeat constructor).
    rewrite saveData_this.
    intros (xs & names & Hps & Hcs & Hall). simpl in Hps, Hcs.
    injection Hps as <-. injection Hcs as <-.
    apply Forall_cons in Hall as [[_ Hin] _].
    unfold field in Hin. simpl in Hin.
    repeat (apply elem_of_cons in Hin as [Hin|Hin]; [discriminate|]).
    now apply elem_of_nil in Hin.
Qed.



Lemma assign_all_cons (o : list (string * value)) (kv : string * value)
    (ps : list (string * value)) :
  assign_all o (kv :: ps) = assign_all (assoc_set (fst kv) (snd kv) o) ps.
Proof. reflexivity. Qed.

(** A property read after a spread comes from the spread object or was
    there before. *)
Lemma assoc_get_assign_all (k : string) (ps o : list (string * value)) :
  assoc_get k (assign_all o ps) = assoc_get k o
  \/ exists v, (k, v) ∈ ps /\ assoc_get k (assign_all o ps) = Some v.
Proof.
  revert o. induction ps as [|[k' v'] ps IH]; intros o; [now left|].
  rewrite assign_all_cons. simpl fst. simpl snd.
  destruct (IH (assoc_set k' v' o)) as [Hsame|(v & Hin & Hv)].
  - rewrite Hsame, assoc_get_set.
    destruct (String.eqb k k') eqn:E; [|now left].
    apply String.eqb_eq in E. subst k'.
    right. exists v'. split; [apply elem_of_cons; now left|reflexivity].
  - right. exists v. split; [apply elem_of_cons; now right|assumption].
Qed.

Lemma assoc_get_assign_all_absent (k : string) (ps o : list (string * value)) :
  (forall v, (k, v) ∉ ps) ->
  assoc_get k (assign_all o ps) = assoc_get k o.
Proof.
  intros Habsent.
  destruct (assoc_get_assign_all k ps o) as [Hsame|(v & Hin & _)];
    [assumption|].
  now apply Habsent in Hin.
Qed.

Lemma Forall_List_filter {A : Type} (P : A -> Prop) (g : A -> bool)
    (xs : list A) :
  Forall P xs -> Forall P (List.filter g xs).
Proof.
  induction 1 as [|x xs Hx _ IH]; simpl; [constructor|].
  destruct (g x); [constructor|]; assumption.
Qed.

Lemma field_merged_category (o : list (string * value)) (updates : value)
    (stamp : string) (names : list value) :
  field (JObj o) "category" ∈ names ->
  (forall c, ("category"%string, c) ∈ own_props updates -> c ∈ names) ->
  field (merged (JObj o) updates stamp) "category" ∈ names.
Proof.
  intros Hold Hnew. unfold merged, field. simpl.
  rewrite assoc_get_set. simpl.
  destruct (assoc_get_assign_all "category" (own_props updates) o)
    as [Hsame|(v & Hin & Hv)].
  - rewrite Hsame. exact Hold.
  - rewrite Hv. simpl. now apply Hnew.
Qed.

Lemma field_moved_category (name : string) (p : value) (names : list value) :
  name <> "Other"%string ->
  JStr "Other" ∈ names ->
  field p "category" ∈ names ->
  field (moved name p) "category" ∈ without name names.
Proof.
  intros Hname Hother Hin.
  assert (forall c, c ∈ names -> strict_equal c (JStr name) = false ->
                    c ∈ without name names) as Hkeep.
  { intros c Hc Hne. unfold without.
    apply list_elem_of_In, filter_In. split; [now apply list_elem_of_In|].
    now rewrite Hne. }
  destruct p as [| | | | | |o]; simpl;
    try (apply Hkeep; [exact Hin|reflexivity]).
  unfold field in Hin. simpl in Hin.
  destruct (strict_equal _ (JStr name)) eqn:E.
  - unfold field. simpl. rewrite assoc_get_set. simpl.
    apply Hkeep; [assumption|].
    change (String.eqb "Other" name = false).
    apply String.eqb_neq. congruence.
  - unfold field. simpl. now apply Hkeep.
Qed.

(** C3, as the code has it.  From a vault that satisfies the category
    invariant, each persisting operation on an admissible argument leaves a
    vault that satisfies it, whether the save that ends it returns or
    throws: [addPassword] when the category of the new record (['Other']
    when none is given) is in the set, [updatePassword] when the update
    carries no category outside the set, [deleteCategory] when the name is
    not ['Other'] and ['Other'] is in the set, [deletePassword] and
    [addCategory] always.  The operation returns normally or, when the
    vault it leaves is past the engine's limit on arguments, throws a
    [RangeError]. *)
Theorem C3_invariant_kept_when_admissible (w : World) (op : operation)
    (names : list value) :
  categories_valid (this w) ->
  categories (this w) = JArr names ->
  admissible names op ->
  categories_valid (this (snd (run op w)))
  /\ (fst (run op w) = Ok tt \/ fst (run op w) = Throw RangeError).
Proof.
  intros (xs & names' & Hps & Hcs & Hall) Hnames Hadm.
  assert (names' = names) as -> by congruence.
  assert (vault (this w) xs names) as Hv.
  { repeat split; [assumption..|].
    eapply Forall_impl; [exact Hall|]. now intros p [Hp _]. }
  destruct op as [fields|id updates|id|name|name]; simpl in Hadm |- *.
  - destruct Hadm as (Hu & Hn & Hin).
    unfold bind. rewrite (addPassword_run _ _ _ Hps Hu Hn). cbv zeta.
    split.
    + assert (categories_valid
                (this (snd (saveData
                   (with_this (set_passwords (JArr (added fields w :: xs)))
                      (with_ticks (S (S (S (ticks w)))) w))))))
        as Hvalid.
      { rewrite saveData_this.
        exists (added fields w :: xs), names. simpl.
        repeat split; [assumption|]. constructor; [|assumption].
        split; [reflexivity|exact Hin]. }
      now destruct (fits _).
    + destruct (fits _); auto.
  - rewrite (updatePassword_run _ _ _ _ _ Hv). unfold updated.
    destruct (index_where _ xs) as [i|] eqn:Hidx.
    + split; [|apply saveData_cases]. rewrite saveData_this.
      destruct (index_where_Some _ _ _ Hidx) as (old & Hold & _).
      exists (<[i := merged (default JUndefined (xs !! i)) updates
                        (Date_toISOString (clock w (ticks w)))]> xs), names.
      simpl. repeat split; [assumption|].
      apply Forall_insert; [assumption|].
      rewrite Hold. simpl. split; [reflexivity|].
      rewrite Forall_forall in Hall.
      destruct (Hall old) as [Hobj Hin];
        [eapply list_elem_of_lookup_2; eassumption|].
      destruct old as [| | | | | |o]; try discriminate.
      now apply field_merged_category.
    + split; [now exists xs, names|now left].
  - rewrite (deletePassword_run _ _ _ _ Hv).
    split; [|apply saveData_cases]. rewrite saveData_this.
    exists (remaining id xs), names. simpl. repeat split; [assumption|].
    now apply Forall_List_filter.
  - rewrite (addCategory_run _ _ _ Hcs).
    destruct (existsb _ names).
    + split; [now exists xs, names|now left].
    + split; [|apply saveData_cases]. rewrite saveData_this.
      exists xs, (names ++ [JStr name]). simpl. repeat split; [assumption|].
      eapply Forall_impl; [exact Hall|]. intros p [Hp Hin].
      split; [assumption|]. apply elem_of_app. now left.
  - destruct Hadm as [Hname Hother].
    rewrite (deleteCategory_run _ _ _ _ Hv).
    split; [|apply saveData_cases]. rewrite saveData_this.
    exists (map (moved name) xs), (without name names). simpl.
    repeat split. apply Forall_fmap.
    eapply Forall_impl; [exact Hall|]. intros p [Hp Hin]. simpl.
    split; [now apply moved_object|now apply field_moved_category].
Qed.



(** ** Updating a record *)

Lemma index_where_first (f : value -> bool) (xs : list value) (i : nat)
    (p : value) :
  xs !! i = Some p ->
  f p = true ->
  (forall j q, (j < i)%nat -> xs !! j = Some q -> f q = false) ->
  index_where f xs = Some i.
Proof.
  revert i. induction xs as [|x xs IH]; intros i Hi Hp Hbefore;
    [discriminate|].
  destruct i as [|i]; simpl in *.
  - injection Hi as ->. now rewrite Hp.
  - rewrite (Hbefore 0%nat x) by (lia || reflexivity).
    rewrite (IH i Hi Hp); [reflexivity|].
    intros j q Hj Hq. apply (Hbefore (S j)); [lia|exact Hq].
Qed.

Lemma with_one_record_vault :
  vault (this with_one_record) [example_record]
        [JStr "Personal"; JStr "Work"; JStr "Banking"; JStr "Social Media";
         JStr "Shopping"; JStr "Other"].
Proof. repeat split. repeat constructor. Qed.

(** An update that carries [id] and [createdDate] overwrites both. *)
Lemma update_overwrites_id :
  exists r',
    passwords
      (this (snd (updatePassword (JStr "1700000000000") relabel
                    with_one_record)))
    = JArr [r']
    /\ field r' "id" = JStr "7"
    /\ field r' "createdDate" = JStr "1999-01-01".
Proof.
  assert (index_where
            (fun p => strict_equal (field p "id") (JStr "1700000000000"))
            [example_record] = Some 0%nat) as Hidx by reflexivity.
  eexists.
  rewrite (updatePassword_run _ _ _ _ _ with_one_record_vault), Hidx.
  rewrite saveData_this, passwords_set.
  unfold updated. rewrite Hidx.
  repeat (split; [reflexivity|]). reflexivity.
Qed.

Lemma example_record_first :
  first_with_id (JStr "1700000000000") [example_record] 0 example_record.
Proof. repeat split. intros j q Hj. lia. Qed.

Lemma C6_as_stated_fails : ~ C6_as_stated.
Proof.
  intros Hclaim.
  destruct (Hclaim _ _ _ _ relabel _ _ with_one_record_vault
                   example_record_first)
    as (w' & xs' & r' & Hrun & Hps & Hi & Hid & _).
  destruct update_overwrites_id as (r2 & Hps2 & Hid2 & _).
  rewrite Hrun in Hps2. cbn [snd] in Hps2.
  rewrite Hps in Hps2. injection Hps2 as ->.
  injection Hi as <-. rewrite Hid2 in Hid. discriminate.
Qed.

Lemma lookup_insert_same (xs : list value) (i : nat) (old new : value) :
  xs !! i = Some old -> <[i := new]> xs !! i = Some new.
Proof.
  intros Hold. apply list_lookup_insert_eq.
  now apply lookup_lt_Some in Hold.
Qed.

Lemma field_merged (o : list (string * value)) (updates : value)
    (stamp k : string) :
  k <> "lastModified"%string ->
  (forall v, (k, v) ∉ own_props updates) ->
  field (merged (JObj o) updates stamp) k = field (JObj o) k.
Proof.
  intros Hk Habsent. unfold merged, field. simpl.
  rewrite assoc_get_set.
  apply String.eqb_neq in Hk. rewrite Hk.
  now rewrite assoc_get_assign_all_absent.
Qed.

Lemma field_merged_stamp (old updates : value) (stamp : string) :
  field (merged old updates stamp) "lastModified" = JStr stamp.
Proof. unfold merged, field. simpl. now rewrite assoc_get_set. Qed.

(** Whether a vault fits depends on the records, the categories, the master
    password and the random bytes to come. *)
Lemma fits_vault (w1 w : World) (xs names : list value) :
  masterPassword (this w1) = masterPassword (this w) ->
  passwords (this w1) = JArr xs ->
  categories (this w1) = JArr names ->
  entropy w1 = entropy w -> drawn w1 = drawn w ->
  fits w1 = fits (with_vault xs names w).
Proof.
  destruct w as [[mp ps cs st lk] store en dr ck tk tm nt ls sc].
  destruct w1 as [[mp1 ps1 cs1 st1 lk1] store1 en1 dr1 ck1 tk1 tm1 nt1 ls1 sc1].
  unfold fits, payload, salt_at, iv_at. simpl.
  now intros -> -> -> -> ->.
Qed.




(** ** Encryption and decryption *)

(** The three slices [decrypt] takes of the decoded bytes. *)
Lemma slices (salt iv encrypted : list byte) :
  length salt = 16%nat -> length iv = 12%nat ->
  take 16 (salt ++ iv ++ encrypted) = salt
  /\ take 12 (drop 16 (salt ++ iv ++ encrypted)) = iv
  /\ drop 28 (salt ++ iv ++ encrypted) = encrypted.
Proof.
  intros Hs Hi. repeat split.
  - now rewrite take_app_length' by lia.
  - rewrite drop_app_length' by lia. now rewrite take_app_length' by lia.
  - replace 28%nat with (16 + 12)%nat by reflexivity.
    rewrite <- drop_drop, drop_app_length' by lia.
    now rewrite drop_app_length' by lia.
Qed.

(** [decrypt] of a blob made by [encrypt]: base64 and the slicing cancel, and
    what is left is the AEAD opening under the key of the second password. *)
Lemma decrypt_sealed (data : value) (pw pw' : string) (salt iv : list byte) :
  length salt = 16%nat -> length iv = 12%nat ->
  CryptoManager.decrypt (sealed data pw salt iv) pw'
  = CryptoManager.open_sealed (CryptoManager.deriveKey pw' salt) iv
      (AES_GCM_encrypt (CryptoManager.deriveKey pw salt) iv
                       (CryptoManager.plaintext data)).
Proof.
  intros Hs Hi. unfold CryptoManager.decrypt, sealed.
  rewrite atob_btoa. simpl. rewrite charCodes_fromCharCode.
  destruct (slices salt iv
              (AES_GCM_encrypt (CryptoManager.deriveKey pw salt) iv
                               (CryptoManager.plaintext data)) Hs Hi)
    as (-> & -> & ->).
  reflexivity.
Qed.

(** With the same password the AEAD opens, and the outcome is that of
    [JSON.parse] on the text [JSON.stringify] gave. *)
Lemma decrypt_own_blob (data : value) (pw : string) (w : World) :
  CryptoManager.decrypt (sealed data pw (salt_at w) (iv_at w)) pw
  = match JSON_parse (default EmptyString (JSON_stringify data)) with
    | Some v => Ok v
    | None => Throw DecryptionError
    end.
Proof.
  rewrite decrypt_sealed by (apply salt_at_length || apply iv_at_length).
  unfold CryptoManager.open_sealed, CryptoManager.plaintext.
  now rewrite AES_GCM_decrypt_encrypt, TextDecoder_decode_encode.
Qed.

(** Past the engine's limit [encrypt] throws, and the round trip with it:
    the claim as stated does not hold. *)
Lemma C1_as_stated_fails (P : value) (W : string) (w : World) :
  JSON_serializable P ->
  within_limit P W (salt_at w) (iv_at w) = false ->
  ~ C1_as_stated.
Proof.
  intros Hser Hfits Hstated. specialize (Hstated P W w Hser).
  unfold round_trip, bind in Hstated. rewrite encrypt_run, Hfits in Hstated.
  discriminate.
Qed.




(** *** When decryption fails *)

Lemma decrypt_atob (blob blob' password : string) :
  atob blob' = atob blob ->
  CryptoManager.decrypt blob' password = CryptoManager.decrypt blob password.
Proof. intros Heq. unfold CryptoManager.decrypt. now rewrite Heq. Qed.

(** A blob whose text is padded has a character that can be changed without
    any effect on what [decrypt] returns, under every password. *)
Lemma padded_blob_has_free_character (P : value) (W : string) (w : World) :
  padding (combined P W (salt_at w) (iv_at w)) <> [] ->
  exists blob',
    one_char_changed (sealed P W (salt_at w) (iv_at w)) blob'
    /\ forall W',
         CryptoManager.decrypt blob' W'
         = CryptoManager.decrypt (sealed P W (salt_at w) (iv_at w)) W'.
Proof.
  intros Hpad.
  destruct (slack_bits_ignored _ Hpad) as [Hchanged Hatob].
  exists (slack_text (combined P W (salt_at w) (iv_at w))).
  split; [exact Hchanged|].
  intros W'. apply decrypt_atob. rewrite Hatob.
  unfold sealed. now rewrite atob_btoa.
Qed.

(** Putting a character outside the base64 alphabet first in any blob makes
    [decrypt] throw the error of [atob], which the [try] does not cover. *)
Lemma bad_character_raises_atob_error (P : value) (W W' : string) (w : World) :
  exists blob',
    one_char_changed (sealed P W (salt_at w) (iv_at w)) blob'
    /\ CryptoManager.decrypt blob' W' = Throw InvalidCharacterError.
Proof.
  unfold sealed, btoa. rewrite charCodes_fromCharCode.
  unfold salt_at. simpl seq. simpl map. cbn [app].
  match goal with
  | |- context [base64_chars (?a :: ?b :: ?c :: ?rest)] =>
      change (base64_chars (a :: b :: c :: rest))
        with (sextet_char (byte_val a / 4)
              :: sextet_char (byte_val a mod 4 * 16 + byte_val b / 16)
              :: sextet_char (byte_val b mod 16 * 4 + byte_val c / 64)
              :: sextet_char (byte_val c mod 64)
              :: base64_chars rest);
      set (c0 := sextet_char (byte_val a / 4));
      set (tail := sextet_char (byte_val a mod 4 * 16 + byte_val b / 16)
                   :: sextet_char (byte_val b mod 16 * 4 + byte_val c / 64)
                   :: sextet_char (byte_val c mod 64)
                   :: base64_chars rest);
      assert (0 <= byte_val a / 4 < 64) as Hrange
        by (pose proof (byte_val_bounds a); Z.div_mod_to_equations; lia)
  end.
  exists (String "!"%char (string_of_list_ascii tail)). split.
  - unfold one_char_changed. simpl.
    rewrite !list_ascii_of_string_of_list_ascii.
    exists [], c0, "!"%char, tail. repeat split.
    intros Heq. pose proof (char_sextet_char _ Hrange) as Hc.
    fold c0 in Hc. rewrite Heq in Hc. discriminate.
  - unfold CryptoManager.decrypt.
    now rewrite atob_bad_head.
Qed.

(** A passphrase and the same passphrase followed by U+0000 derive the same
    key: the bytes differ by a final zero, which HMAC's key padding adds
    anyway. *)
Lemma trailing_NUL_same_key (W : string) (salt : list byte) :
  (length (TextEncoder_encode W) < 64)%nat ->
  CryptoManager.deriveKey (W +:+ NUL) salt = CryptoManager.deriveKey W salt.
Proof.
  intros Hshort. unfold CryptoManager.deriveKey, NUL.
  rewrite TextEncoder_encode_NUL. now apply PBKDF2_zero_padded_key.
Qed.

Lemma append_NUL_differs (W : string) : (W +:+ NUL)%string <> W.
Proof.
  induction W as [|c W IH]; [discriminate|].
  change (String c (W +:+ NUL) <> String c W). congruence.
Qed.

(** So a blob decrypts under a passphrase other than the one it was
    encrypted with. *)
Lemma other_passphrase_decrypts (P : value) (W : string) (w : World) :
  JSON_serializable P ->
  (length (TextEncoder_encode W) < 64)%nat ->
  (W +:+ NUL)%string <> W
  /\ CryptoManager.decrypt (sealed P W (salt_at w) (iv_at w)) (W +:+ NUL)
     = Ok P.
Proof.
  intros (s & Hs & Hp) Hshort. split; [apply append_NUL_differs|].
  rewrite decrypt_sealed by (apply salt_at_length || apply iv_at_length).
  rewrite trailing_NUL_same_key by assumption.
  unfold CryptoManager.open_sealed, CryptoManager.plaintext.
  rewrite AES_GCM_decrypt_encrypt, TextDecoder_decode_encode, Hs. simpl.
  now rewrite Hp.
Qed.

(** The passphrase followed by U+0000 is another passphrase and decrypts
    the blob: the claim as stated does not hold. *)
Lemma C2_as_stated_fails (P : value) (W : string) (w : World) :
  JSON_serializable P ->
  (length (TextEncoder_encode W) < 64)%nat ->
  within_limit P W (salt_at w) (iv_at w) = true ->
  ~ C2_as_stated.
Proof.
  intros Hser Hlen Hfits [Hwrong _].
  destruct (other_passphrase_decrypts P W w Hser Hlen) as [Hne Hdec].
  assert (CryptoManager.encrypt P W w
          = (Ok (sealed P W (salt_at w) (iv_at w)),
             with_drawn (drawn w + 16 + 12) w)) as Hrun
    by now rewrite encrypt_run, Hfits.
  rewrite (Hwrong _ _ _ _ _ _ Hrun Hne) in Hdec.
  discriminate.
Qed.

Lemma take_drop_slices (bytes : list byte) :
  take 16 bytes ++ take 12 (drop 16 bytes) ++ drop 28 bytes = bytes.
Proof.
  replace 28%nat with (16 + 12)%nat by reflexivity.
  rewrite <- drop_drop. now rewrite !take_drop.
Qed.

(** A change of one place of [a ++ b] is a change of one place of [a] or
    of [b]. *)
Lemma one_changed_app {A : Type} (a b l' : list A) :
  one_changed (a ++ b) l' ->
  (exists a', l' = a' ++ b /\ one_changed a a')
  \/ (exists b', l' = a ++ b' /\ one_changed b b').
Proof.
  intros (pre & x & y & post & Hl & Hl' & Hxy). subst l'.
  revert pre Hl. induction a as [|h a IH]; intros pre Hl.
  - right. exists (pre ++ y :: post). split; [reflexivity|].
    now exists pre, x, y, post.
  - destruct pre as [|h' pre]; simpl in Hl; injection Hl as Hh Hl.
    + left. subst h. exists (y :: a). split; [simpl; now rewrite Hl|].
      now exists [], x, y, a.
    + subst h'. destruct (IH pre Hl) as [(a' & Heq & Hch)|(b' & Heq & Hch)].
      * left. exists (h :: a'). split; [simpl; now rewrite Heq|].
        destruct Hch as (pre' & x' & y' & post' & Ha & Ha' & Hne).
        exists (h :: pre'), x', y', post'. subst a a'. now repeat split.
      * right. exists b'. split; [simpl; now rewrite Heq|exact Hch].
Qed.

Lemma one_changed_length {A : Type} (l l' : list A) :
  one_changed l l' -> length l' = length l.
Proof.
  intros (pre & x & y & post & -> & -> & _). now rewrite !length_app.
Qed.

Lemma one_changed_differ {A : Type} (l l' : list A) :
  one_changed l l' -> l <> l'.
Proof.
  intros (pre & x & y & post & -> & -> & Hxy) Heq.
  apply app_inv_head in Heq. congruence.
Qed.

(** [decrypt] on a text that decodes to a salt, a nonce and a sealed
    text. *)
Lemma decrypt_decoded (blob password : string) (salt iv encrypted : list byte) :
  atob blob = Ok (fromCharCode (salt ++ iv ++ encrypted)) ->
  length salt = 16%nat -> length iv = 12%nat ->
  CryptoManager.decrypt blob password
  = CryptoManager.open_sealed (CryptoManager.deriveKey password salt) iv
                              encrypted.
Proof.
  intros Hatob Hs Hi. unfold CryptoManager.decrypt. rewrite Hatob.
  cbn [result_bind]. rewrite charCodes_fromCharCode.
  now destruct (slices salt iv encrypted Hs Hi) as (-> & -> & ->).
Qed.

Lemma open_sealed_rejected (k : CryptoKey) (iv encrypted : list byte) :
  AES_GCM_decrypt k iv encrypted = None ->
  CryptoManager.open_sealed k iv encrypted = Throw DecryptionError.
Proof. intros Hnone. unfold CryptoManager.open_sealed. now rewrite Hnone. Qed.

(** With primitives without forgeries, a sealed text opens only under the
    key and the nonce it was made with. *)
Lemma opens_under_its_own `{!Ideal} (k k' : CryptoKey) (iv iv' data : list byte) :
  k' <> k \/ iv' <> iv ->
  AES_GCM_decrypt k' iv' (AES_GCM_encrypt k iv data) = None.
Proof.
  intros Hother.
  destruct (AES_GCM_decrypt k' iv' _) as [data'|] eqn:Hopen; [|reflexivity].
  apply opens_only_sealed, sealed_apart in Hopen as [Hk Hiv].
  destruct Hother as [Hne|Hne]; now destruct Hne.
Qed.




(** ** Operations on an id that is not there *)

Lemma remaining_absent (id : value) (xs : list value) :
  Forall (fun p => strict_equal (field p "id") id = false) xs ->
  remaining id xs = xs.
Proof.
  induction 1 as [|p xs Hp _ IH]; simpl; [reflexivity|].
  now rewrite Hp, IH.
Qed.

Lemma remaining_has_none (id : value) (xs : list value) :
  Forall (fun p => strict_equal (field p "id") id = false) (remaining id xs).
Proof.
  induction xs as [|p xs IH]; simpl; [constructor|].
  destruct (strict_equal (field p "id") id) eqn:E; simpl; [assumption|].
  now constructor.
Qed.

Lemma same_passwords (w : World) (v : value) :
  passwords (this w) = v -> with_this (set_passwords v) w = w.
Proof. destruct w as [[]]. simpl. now intros ->. Qed.

(** The blob in the store after a [saveData] that returned, read back with
    the password the manager holds. *)
Lemma saveData_readback (w : World) :
  fits w = true ->
  let w' := snd (saveData w) in
  exists blob,
    localStorage w' !! "encryptedData"%string = Some blob
    /\ CryptoManager.decrypt blob (USVString (masterPassword (this w)))
       = match JSON_parse
                 (default EmptyString (JSON_stringify (payload (this w)))) with
         | Some v => Ok v
         | None => Throw DecryptionError
         end.
Proof.
  intros Hfits. exists (stored_blob w). split.
  - rewrite (saveData_fits _ Hfits). simpl. apply lookup_insert_eq.
  - apply decrypt_own_blob.
Qed.

Lemma saveData_overflow (w : World) :
  fits w = false ->
  fst (saveData w) = Throw RangeError
  /\ localStorage (snd (saveData w)) = localStorage w.
Proof. intros Hfits. rewrite saveData_run, Hfits. now destruct w. Qed.

(** [deletePassword] of an id that no record has is [saveData]. *)
Lemma deletePassword_absent (w : World) (xs names : list value) (id : value) :
  vault (this w) xs names ->
  Forall (fun p => strict_equal (field p "id") id = false) xs ->
  deletePassword id w = saveData w.
Proof.
  intros Hv Habsent. pose proof Hv as (Hps & _).
  rewrite (deletePassword_run _ _ _ _ Hv), (remaining_absent _ _ Habsent).
  now rewrite (same_passwords _ _ Hps).
Qed.

(** The claim as stated does not hold: [deletePassword] of an id that no
    record has raises where the vault does not fit. *)
Lemma C9_as_stated_fails (w : World) (xs names : list value) (id : value) :
  vault (this w) xs names ->
  Forall (fun p => strict_equal (field p "id") id = false) xs ->
  fits w = false ->
  ~ C9_as_stated.
Proof.
  intros Hv Habsent Hfits Hstated.
  specialize (Hstated w xs names id Hv Habsent).
  rewrite (deletePassword_absent _ _ _ _ Hv Habsent) in Hstated.
  apply saveData_Ok in Hstated. congruence.
Qed.




(** ** Search *)

(** *** Substrings, and case *)

Lemma append_String (c : ascii) (a b : string) :
  (String c a +:+ b)%string = String c (a +:+ b)%string.
Proof. reflexivity. Qed.

Lemma prefix_spec (a s : string) :
  String.prefix a s = true <-> exists post, s = (a +:+ post)%string.
Proof.
  revert s. induction a as [|c a IH]; intros s.
  - split; [intros _; now exists s|intros _; now destruct s].
  - destruct s as [|d s]; simpl;
      [split; [discriminate|intros [post Hp]; discriminate]|].
    destruct (ascii_dec c d) as [->|Hne].
    + rewrite IH. split; intros [post Hp]; exists post.
      * rewrite append_String. now rewrite Hp.
      * rewrite append_String in Hp. congruence.
    + split; [discriminate|]. intros [post Hp].
      rewrite append_String in Hp. congruence.
Qed.

Lemma includes_spec (s sub : string) :
  includes s sub = true
  <-> exists pre post, s = (pre +:+ sub +:+ post)%string.
Proof.
  induction s as [|c s IH]; cbn [includes].
  - rewrite orb_false_r, prefix_spec. split.
    + intros [post Hp]. now exists EmptyString, post.
    + intros (pre & post & Hp). destruct pre; [now exists post|discriminate].
  - rewrite orb_true_iff, prefix_spec, IH. split.
    + intros [[post Hp]|(pre & post & Hp)].
      * now exists EmptyString, post.
      * exists (String c pre), post. rewrite append_String. now rewrite Hp.
    + intros (pre & post & Hp). destruct pre as [|d pre].
      * left. now exists post.
      * right. exists pre, post. rewrite append_String in Hp. congruence.
Qed.

Lemma toLowerCase_app (a b : string) :
  toLowerCase (a +:+ b) = (toLowerCase a +:+ toLowerCase b)%string.
Proof.
  induction a as [|c a IH]; [reflexivity|].
  rewrite append_String. simpl. now rewrite append_String, IH.
Qed.

Lemma toLowerCase_split (s a' b' : string) :
  toLowerCase s = (a' +:+ b')%string ->
  exists a b, s = (a +:+ b)%string /\ toLowerCase a = a' /\ toLowerCase b = b'.
Proof.
  revert s. induction a' as [|c a' IH]; intros s Hs.
  - now exists EmptyString, s.
  - rewrite append_String in Hs.
    destruct s as [|d s]; [discriminate|]. simpl in Hs.
    injection Hs as Hc Hs. destruct (IH s Hs) as (a & b & -> & Ha & Hb).
    exists (String d a), b. rewrite append_String. simpl. now rewrite Hc, Ha.
Qed.

Lemma includes_lower (s q : string) :
  includes (toLowerCase s) (toLowerCase q) = true <-> contains_ci s q.
Proof.
  rewrite includes_spec. split.
  - intros (pre' & post' & Hs).
    apply toLowerCase_split in Hs as (pre & rest & -> & _ & Hrest).
    apply toLowerCase_split in Hrest as (mid & post & -> & Hmid & _).
    now exists pre, mid, post.
  - intros (pre & mid & post & -> & Hmid).
    exists (toLowerCase pre), (toLowerCase post).
    now rewrite !toLowerCase_app, Hmid.
Qed.

(** *** The records a search selects *)

Lemma searchable_field (p : value) (k : string) :
  searchable p -> k ∈ searched_fields -> exists s, field p k = JStr s.
Proof. intros [_ Hp]. apply Hp. Qed.

Lemma field_includes_searchable (p : value) (k q : string) :
  searchable p -> k ∈ searched_fields ->
  field_includes p k (toLowerCase q) = Ok (lower_includes p k q).
Proof.
  intros Hp Hk. destruct (searchable_field p k Hp Hk) as [s Hs].
  unfold field_includes, lower_includes.
  destruct Hp as [Hobj _]. rewrite (Get_field _ _ Hobj), Hs. reflexivity.
Qed.

Lemma matches_query_searchable (q : string) (p : value) :
  searchable p ->
  matches_query (toLowerCase q) p = Ok (matchesb q p).
Proof.
  intros Hp. unfold matches_query, matchesb.
  rewrite !(field_includes_searchable p _ q Hp)
    by (unfold searched_fields; set_solver).
  simpl.
  destruct (lower_includes p "name" q); [reflexivity|].
  destruct (lower_includes p "website" q); [reflexivity|].
  destruct (lower_includes p "username" q); reflexivity.
Qed.

Lemma matchesb_spec (q : string) (p : value) :
  searchable p -> (matchesb q p = true <-> matches_spec q p).
Proof.
  intros Hp. unfold matchesb, matches_spec.
  assert (forall k, k ∈ searched_fields ->
            (lower_includes p k q = true
             <-> exists s, field p k = JStr s /\ contains_ci s q)) as Hk.
  { intros k Hin. destruct (searchable_field p k Hp Hin) as [s Hs].
    unfold lower_includes. rewrite Hs, includes_lower. split.
    - intros Hc. now exists s.
    - intros (s' & [= ->] & Hc). exact Hc. }
  rewrite !orb_true_iff, !Hk by (unfold searched_fields; set_solver).
  split.
  - intros [[[(s & Hs)|(s & Hs)]|(s & Hs)]|(s & Hs)];
      eexists _, s; (split; [|exact Hs]); unfold searched_fields; set_solver.
  - intros (k & s & Hin & Hs).
    unfold searched_fields in Hin.
    repeat (apply elem_of_cons in Hin as [->|Hin]);
      [left; left; left|left; left; right|left; right|right|];
      try (now exists s).
    now apply elem_of_nil in Hin.
Qed.

Lemma matchesb_empty (p : value) : searchable p -> matchesb "" p = true.
Proof.
  intros Hp. unfold matchesb, lower_includes.
  destruct (searchable_field p "name" Hp) as [s ->];
    [unfold searched_fields; set_solver|].
  simpl. destruct (toLowerCase s); reflexivity.
Qed.

Lemma strict_equal_JStr_l (s : string) (c : value) :
  strict_equal (JStr s) c = true <-> JStr s = c.
Proof.
  destruct c; simpl; try (split; [discriminate|congruence]).
  rewrite String.eqb_eq. split; congruence.
Qed.

Lemma filteringb_off (c : value) : filteringb c = false <-> filter_off c.
Proof.
  unfold filteringb, filter_off. rewrite andb_false_iff, negb_false_iff.
  rewrite strict_equal_JStr. tauto.
Qed.

Lemma selectedb_spec (q : string) (c : value) (p : value) :
  searchable p -> (selectedb q c p = true <-> selected q c p).
Proof.
  intros Hp. unfold selectedb, selected.
  rewrite andb_true_iff, orb_true_iff, negb_true_iff, filteringb_off.
  rewrite (matchesb_spec q p Hp).
  destruct (searchable_field p "category" Hp) as [s Hs];
    [unfold searched_fields; set_solver|].
  rewrite Hs, strict_equal_JStr_l. tauto.
Qed.

Lemma filter_filter_and {A : Type} (f g : A -> bool) (xs : list A) :
  List.filter g (List.filter f xs) = List.filter (fun x => f x && g x) xs.
Proof.
  induction xs as [|x xs IH]; simpl; [reflexivity|].
  destruct (f x); simpl; [destruct (g x)|]; now rewrite IH.
Qed.

Lemma filter_agree {A : Type} (P : A -> Prop) (f g : A -> bool) (xs : list A) :
  Forall P xs -> (forall x, P x -> f x = g x) ->
  List.filter f xs = List.filter g xs.
Proof.
  intros Hall Hfg. induction Hall as [|x xs Hx _ IH]; simpl; [reflexivity|].
  now rewrite (Hfg x Hx), IH.
Qed.

(** What [searchPasswords] returns on a vault of searchable records. *)
Lemma searchPasswords_run (w : World) (xs : list value) (q : string)
    (c : value) :
  passwords (this w) = JArr xs ->
  Forall searchable xs ->
  searchPasswords (JStr q) c w = (Ok (JArr (List.filter (selectedb q c) xs)), w).
Proof.
  intros Hps Hall.
  unfold searchPasswords, bind at 1, gets at 1. rewrite Hps.
  fold (filteringb c).
  assert (filterM (in_category c) xs
          = Ok (List.filter (fun p => strict_equal (field p "category") c) xs))
    as Hcat.
  { apply filterM_objects. eapply Forall_impl; [exact Hall|].
    intros p [Hobj _]. unfold in_category. now rewrite (Get_field _ _ Hobj). }
  assert (forall ys, Forall searchable ys ->
            filterM (matches_query (toLowerCase q)) ys
            = Ok (List.filter (matchesb q) ys)) as Hquery.
  { intros ys Hys. apply filterM_objects. eapply Forall_impl; [exact Hys|].
    intros p Hp. now apply matches_query_searchable. }
  unfold selectedb.
  destruct (filteringb c) eqn:Hc; unfold bind at 1.
  - unfold lift at 1, filter_array at 1. rewrite Hcat. simpl result_bind.
    cbv beta iota.
    destruct q as [|ch q].
    + simpl truthy. cbv iota. unfold ret. f_equal. f_equal.
      rewrite <- (filter_filter_and _ (matchesb "")).
      symmetry. erewrite (filter_agree searchable (matchesb "") (fun _ => true)).
      * clear. induction (List.filter _ xs) as [|x l IH]; simpl; congruence.
      * now apply Forall_List_filter.
      * intros p Hp. now apply matchesb_empty.
    + assert (truthy (JStr (String ch q)) = true) as -> by reflexivity.
      remember (String ch q) as q' eqn:Hq'. clear Hq'.
      unfold bind, lift. cbn [call_toLowerCase]. unfold filter_array.
      rewrite Hquery by now apply Forall_List_filter.
      simpl. now rewrite filter_filter_and.
  - unfold ret at 1. cbv beta iota.
    destruct q as [|ch q].
    + simpl truthy. cbv iota. unfold ret. f_equal. f_equal.
      symmetry. erewrite (filter_agree searchable _ (fun _ => true)).
      * clear. induction xs as [|x l IH]; simpl; congruence.
      * exact Hall.
      * intros p Hp. simpl. now apply matchesb_empty.
    + assert (truthy (JStr (String ch q)) = true) as -> by reflexivity.
      remember (String ch q) as q' eqn:Hq'. clear Hq'.
      unfold bind, lift. cbn [call_toLowerCase]. unfold filter_array.
      rewrite Hquery by assumption. reflexivity.
Qed.

(** C8, as the code has it.  For text in Latin-1 (code units below 256, as
    the strings of this model are, where [toLowerCase] lowers each code
    unit by itself): on a vault of searchable records and a query string,
    [searchPasswords] returns, in the order of the vault, exactly the
    records of which one of the fields name, website, username and
    category contains the query as a case-insensitive substring, restricted
    to the records whose category is the filter unless the filter is ["All"]
    or falsy (absent, [null] or the empty string); and it leaves the world,
    the store included, as it was. *)
Theorem C8_search_selects (w : World) (xs : list value) (q : string)
    (c : value) :
  passwords (this w) = JArr xs ->
  Forall searchable xs ->
  (forall p, searchable p -> (selectedb q c p = true <-> selected q c p))
  /\ searchPasswords (JStr q) c w
     = (Ok (JArr (List.filter (selectedb q c) xs)), w).
Proof.
  intros Hps Hall. split.
  - intros p Hp. now apply selectedb_spec.
  - now apply searchPasswords_run.
Qed.


Lemma two_records_searchable : Forall searchable [bank_record; mail_record].
Proof.
  repeat constructor; intros k Hk; unfold searched_fields in Hk;
    repeat (apply elem_of_cons in Hk as [->|Hk]; [eexists; reflexivity|]);
    now apply elem_of_nil in Hk.
Qed.

(** With the empty string for a filter the code does not filter by
    category. *)
Lemma search_with_empty_filter :
  searchPasswords (JStr "bank") (JStr "") with_two_records
  = (Ok (JArr [bank_record]), with_two_records).
Proof.
  now rewrite (searchPasswords_run with_two_records
                 [bank_record; mail_record] _ _ eq_refl
                 two_records_searchable).
Qed.

(** [addPassword] gives [website], [username] and [notes] a default but not
    [name]: after a call without a name the vault holds a record whose name
    is [undefined], and a search with a query then throws. *)
Lemma search_throws_on_missing_name :
  let w' := snd (addPassword nameless_fields unlocked) in
  passwords (this w') = JArr [added nameless_fields unlocked]
  /\ field (added nameless_fields unlocked) "name" = JUndefined
  /\ fst (searchPasswords (JStr "x") JNull w') = Throw TypeError.
Proof.
  intros w'.
  assert (this w'
          = this (with_this
                    (set_passwords (JArr [added nameless_fields unlocked]))
                    (with_ticks (S (S (S (ticks unlocked)))) unlocked)))
    as Hthis.
  { unfold w'.
    rewrite (addPassword_run nameless_fields unlocked []);
      [|reflexivity|discriminate..].
    apply saveData_this. }
  split; [now rewrite Hthis|]. split; [reflexivity|].
  unfold searchPasswords, bind, gets. now rewrite Hthis.
Qed.

Lemma C8_as_stated_fails : ~ C8_as_stated.
Proof.
  intros Hclaim.
  destruct (Hclaim with_two_records [bank_record; mail_record]
                   "bank"%string (JStr "") eq_refl
                   two_records_searchable) as (f & Hf & Hrun).
  { left. now exists ""%string. }
  rewrite search_with_empty_filter in Hrun.
  injection Hrun as Hrun.
  assert (f bank_record = true) as Hb.
  { simpl in Hrun. destruct (f bank_record); [reflexivity|].
    destruct (f mail_record); discriminate. }
  apply Hf in Hb as [[[Hoff|[Hoff|Hoff]]|Hcat] _];
    try discriminate.
  pose proof two_records_searchable as Hall.
  apply Forall_cons in Hall as [Hs _]. exact Hs.
Qed.


(** * More of the manager and of the page

    Properties of the session life cycle, of persistence, of the record and
    category operations and of the page's handlers, beyond the statements
    of the specification. *)

(** ** What a computation leaves alone *)

Lemma keeps_bind {A B C : Type} (f : World -> C) (m : M A) (k : A -> M B) :
  keeps f m -> (forall a, keeps f (k a)) -> keeps f (bind m k).
Proof.
  intros Hm Hk w. unfold bind. specialize (Hm w).
  destruct (m w) as [[a|e] w']; simpl in *; [|exact Hm].
  now rewrite Hk.
Qed.

Lemma keeps_pure {A B : Type} (f : World -> B) (m : M A) :
  (forall w, snd (m w) = w) -> keeps f m.
Proof. intros Hm w. now rewrite Hm. Qed.

Lemma keeps_modify {B : Type} (f : World -> B) (g : World -> World) :
  (forall w, f (g w) = f w) -> keeps f (modify g).
Proof. intros Hg w. apply Hg. Qed.

(** ** Rendering *)

Lemma written_object (o : list (string * value)) (keys : list string) :
  forallb (fun k => converts (field (JObj o) k)) keys = true ->
  written (JObj o) keys = Ok tt.
Proof.
  induction keys as [|k keys IH]; [reflexivity|].
  cbn [forallb written]. intros [Hk Hrest]%andb_true_iff.
  unfold field in Hk. cbn [Get] in *. cbn [result_bind].
  unfold ToString. rewrite Hk. cbn [result_bind]. now apply IH.
Qed.

Lemma presentable_object (p : value) :
  presentable p = true -> is_object p = true.
Proof. now intros [Hobj _]%andb_true_iff. Qed.

Lemma createPasswordCard_presentable (p : value) :
  presentable p = true -> createPasswordCard p = Ok tt.
Proof.
  intros [Hobj Hfields]%andb_true_iff.
  destruct p as [| | | | | |o]; try discriminate.
  now apply written_object.
Qed.

Lemma cards_presentable (xs : list value) :
  Forall (fun p => presentable p = true) xs -> cards xs = Ok tt.
Proof.
  induction 1 as [|p xs Hp _ IH]; [reflexivity|].
  cbn [cards]. now rewrite (createPasswordCard_presentable _ Hp).
Qed.

Lemma category_buttons_vault (names xs : list value) :
  Forall (fun p => is_object p = true) xs ->
  Forall (fun c => converts c = true) names ->
  category_buttons names (JArr xs) = Ok tt.
Proof.
  intros Hobj. induction 1 as [|c names Hc _ IH]; [reflexivity|].
  cbn [category_buttons filter_array].
  rewrite (filterM_objects _ (fun p => strict_equal (field p "category") c)).
  - cbn [result_bind]. unfold ToString. now rewrite Hc.
  - eapply Forall_impl; [exact Hobj|]. intros p Hp.
    unfold in_category. now rewrite (Get_field _ _ Hp).
Qed.

Lemma renderable_vault (m : Manager) (xs names : list value) :
  renderable m xs names -> vault m xs names.
Proof.
  intros (Hps & Hcs & Hshown & _). repeat split; [assumption..|].
  eapply Forall_impl; [exact Hshown|]. apply presentable_object.
Qed.

Lemma reads_bind {A B : Type} (m : M A) (k : A -> M B) :
  reads_manager m -> (forall a, reads_manager (k a)) ->
  reads_manager (bind m k).
Proof.
  intros Hm Hk w. unfold bind. destruct (Hm w) as [Hs Hf]. split.
  - destruct (m w) as [[a|e] w1]; simpl in Hs; subst w1;
      [apply Hk|reflexivity].
  - intros w' Hthis. specialize (Hf w' Hthis). destruct (Hm w') as [Hs' _].
    destruct (m w) as [[a|e] w1], (m w') as [[a'|e'] w1'];
      simpl in *; subst; try discriminate; injection Hf as ->;
      [now apply Hk|reflexivity].
Qed.

Lemma reads_gets {A : Type} (g : Manager -> A) :
  reads_manager (gets (fun w => g (this w))).
Proof. intros w. split; [reflexivity|]. intros w' Hthis. simpl. now rewrite Hthis. Qed.

Lemma reads_constant {A : Type} (m : M A) (r : result A) :
  (forall w, m w = (r, w)) -> reads_manager m.
Proof. intros Hm w. split; [now rewrite Hm|]. intros w' _. now rewrite !Hm. Qed.

Ltac reads_step :=
  match goal with
  | |- reads_manager (bind _ _) => apply reads_bind; [|intros ?]
  | |- reads_manager (gets (fun w => passwords (this w))) =>
      apply (reads_gets passwords)
  | |- reads_manager (gets (fun w => categories (this w))) =>
      apply (reads_gets categories)
  | |- reads_manager (ret ?a) => apply (reads_constant _ (Ok a)); reflexivity
  | |- reads_manager (throw ?e) =>
      apply (reads_constant _ (Throw e)); reflexivity
  | |- reads_manager (lift ?r) =>
      apply (reads_constant _ r); intros ?; unfold lift; now destruct r
  | |- reads_manager (match ?x with _ => _ end) => destruct x
  end.

(** Rendering reads the manager and writes to the document only. *)
Lemma rendering_reads_manager : reads_manager Page.rendering.
Proof.
  unfold Page.rendering, renderCategories, renderPasswords, searchPasswords.
  repeat reads_step.
Qed.

Lemma rendering_reads (w : World) : snd (Page.rendering w) = w.
Proof. apply rendering_reads_manager. Qed.

Lemma rendering_of_manager (w w' : World) :
  this w' = this w -> fst (Page.rendering w') = fst (Page.rendering w).
Proof. apply rendering_reads_manager. Qed.

(** On a vault that the page can render, rendering returns normally. *)
Lemma rendering_renderable (w : World) (xs names : list value) :
  renderable (this w) xs names -> Page.rendering w = (Ok tt, w).
Proof.
  intros (Hps & Hcs & Hshown & Hnames).
  unfold Page.rendering, renderCategories, renderPasswords, searchPasswords,
    bind, gets, lift, ret.
  rewrite Hps, Hcs. cbn [Get_length ToString converts].
  rewrite category_buttons_vault;
    [|eapply Forall_impl; [exact Hshown|]; apply presentable_object
     |exact Hnames].
  cbn. rewrite Hps. cbn. rewrite (cards_presentable _ Hshown).
  now destruct (_ =? 0).
Qed.

Lemma showMainApp_run (w : World) :
  showMainApp w
  = (fst (Page.rendering (with_screen MainApp w)), with_screen MainApp w).
Proof.
  change showMainApp with (modify (with_screen MainApp) ;; Page.rendering).
  unfold bind, modify. cbn [fst snd].
  rewrite <- (rendering_reads (with_screen MainApp w)) at 3.
  now destruct (Page.rendering _).
Qed.

Lemma showMainApp_renderable (w : World) (xs names : list value) :
  renderable (this w) xs names ->
  showMainApp w = (Ok tt, with_screen MainApp w).
Proof.
  intros Hr. rewrite showMainApp_run.
  rewrite (rendering_of_manager w) by now destruct w.
  now rewrite (rendering_renderable _ _ _ Hr).
Qed.

(** ** The session *)

(** The base64 text determines the bytes. *)
Lemma btoa_bytes_inj (a b : list byte) :
  btoa (fromCharCode a) = btoa (fromCharCode b) -> a = b.
Proof.
  intros Hab. pose proof (atob_btoa a) as Ha. rewrite Hab, atob_btoa in Ha.
  injection Ha as Ha.
  rewrite <- (charCodes_fromCharCode a), <- Ha.
  apply charCodes_fromCharCode.
Qed.

Lemma hashPassword_eq (p q : string) :
  CryptoManager.hashPassword p = CryptoManager.hashPassword q
  <-> SHA256 (TextEncoder_encode p) = SHA256 (TextEncoder_encode q).
Proof.
  unfold CryptoManager.hashPassword. split.
  - apply btoa_bytes_inj.
  - now intros ->.
Qed.

Lemma sealed_not_empty (data : value) (pw : string) (salt iv : list byte) :
  length salt = 16%nat -> sealed data pw salt iv <> EmptyString.
Proof.
  intros Hs Hempty. unfold sealed in Hempty.
  change EmptyString with (btoa (fromCharCode [])) in Hempty.
  apply btoa_bytes_inj in Hempty.
  apply (f_equal length) in Hempty. rewrite length_app, Hs in Hempty.
  simpl in Hempty. lia.
Qed.

(** [startSessionTimeout], part by part. *)
Lemma startSessionTimeout_run (w : World) :
  startSessionTimeout w =
  (Ok tt,
   mkWorld (set_sessionTimeout (Some (next_timer w)) (this w))
           (localStorage w) (entropy w) (drawn w) (clock w) (ticks w)
           ({[next_timer w]} ∪
            match sessionTimeout (this w) with
            | Some t => timers w ∖ {[t]}
            | None => timers w
            end)
           (Pos.succ (next_timer w)) (listeners w + 4) (screen w)).
Proof.
  destruct w as [[mp ps cs st lk] store en dr ck tk tm nt ls sc].
  destruct st as [t|]; reflexivity.
Qed.

(** [setupMasterPassword] with a password that is long enough: the verifier
    and the password are set, then come the save, the main screen and the
    timeout. *)
Lemma setupMasterPassword_steps (password : string) (w : World) :
  (8 <= String.length password)%nat ->
  setupMasterPassword password w
  = (saveData ;; showMainApp ;; startSessionTimeout) (entering password w).
Proof.
  intros Hlen. unfold setupMasterPassword.
  destruct (Nat.ltb_spec (String.length password) 8) as [Hlt|_]; [lia|].
  now destruct w as [[mp ps cs st lk] store en dr ck tk tm nt ls sc].
Qed.

Lemma fits_entering (password : string) (w : World) :
  fits (entering password w)
  = within_limit (payload (this w)) password (salt_at w) (iv_at w).
Proof. now destruct w as [[mp ps cs st lk] store en dr ck tk tm nt ls sc]. Qed.

(** The world that a [setupMasterPassword] that returns leaves. *)
Lemma setupMasterPassword_returns (password : string) (w : World) :
  (8 <= String.length password)%nat ->
  fst (setupMasterPassword password w) = Ok tt ->
  setupMasterPassword password w =
  (Ok tt,
   mkWorld (mkManager (Some password) (passwords (this w)) (categories (this w))
                      (Some (next_timer w)) false)
           (<["encryptedData"%string :=
                sealed (payload (this w)) password (salt_at w) (iv_at w)]>
              (<["masterPasswordHash"%string :=
                   CryptoManager.hashPassword password]> (localStorage w)))
           (entropy w) (drawn w + 16 + 12) (clock w) (ticks w)
           ({[next_timer w]} ∪
            match sessionTimeout (this w) with
            | Some t => timers w ∖ {[t]}
            | None => timers w
            end)
           (Pos.succ (next_timer w)) (listeners w + 4) MainApp).
Proof.
  intros Hlen. rewrite (setupMasterPassword_steps _ _ Hlen).
  unfold bind. rewrite saveData_run.
  destruct (fits (entering password w)); [|discriminate].
  rewrite showMainApp_run.
  destruct (fst (Page.rendering _)) as [[]|e]; [|discriminate].
  intros _. rewrite startSessionTimeout_run.
  destruct w as [[mp ps cs st lk] store en dr ck tk tm nt ls sc].
  destruct st as [t|]; reflexivity.
Qed.

(** It returns when the vault can be rendered and is within the limit. *)
Lemma setupMasterPassword_Ok (password : string) (w : World)
    (xs names : list value) :
  (8 <= String.length password)%nat ->
  renderable (this w) xs names ->
  within_limit (payload (this w)) password (salt_at w) (iv_at w) = true ->
  fst (setupMasterPassword password w) = Ok tt.
Proof.
  intros Hlen Hr Hfits. rewrite (setupMasterPassword_steps _ _ Hlen).
  unfold bind at 1. rewrite saveData_run, fits_entering, Hfits.
  unfold bind at 1.
  erewrite showMainApp_renderable;
    [|destruct w as [[mp ps cs st lk] store en dr ck tk tm nt ls sc];
      exact Hr].
  now rewrite startSessionTimeout_run.
Qed.

(** Whatever its outcome, with a password that is long enough the verifier
    is in the store afterwards. *)
Lemma setupMasterPassword_verifier (password : string) (w : World) :
  (8 <= String.length password)%nat ->
  localStorage (snd (setupMasterPassword password w))
    !! "masterPasswordHash"%string
  = Some (CryptoManager.hashPassword password).
Proof.
  intros Hlen. rewrite (setupMasterPassword_steps _ _ Hlen).
  unfold bind at 1. rewrite saveData_run.
  destruct (fits (entering password w)).
  - unfold bind at 1. rewrite showMainApp_run.
    destruct (fst (Page.rendering _)) as [[]|e];
      [rewrite startSessionTimeout_run|];
      cbn [snd localStorage with_screen with_localStorage with_drawn];
      (rewrite lookup_insert_ne by discriminate);
      destruct w as [[mp ps cs st lk] store en dr ck tk tm nt ls sc];
      apply lookup_insert_eq.
  - destruct w as [[mp ps cs st lk] store en dr ck tk tm nt ls sc].
    apply lookup_insert_eq.
Qed.

(** [loadData] on a blob that decrypts to an object. *)
Lemma loadData_run (w : World) (blob : string) (data : list (string * value)) :
  localStorage w !! "encryptedData"%string = Some blob ->
  blob <> EmptyString ->
  CryptoManager.decrypt blob (USVString (masterPassword (this w)))
    = Ok (JObj data) ->
  loadData w =
  (Ok tt,
   with_this
     (fun m =>
        set_categories
          (js_or (default JUndefined (assoc_get "categories" data))
                 (categories m))
          (set_passwords
             (js_or (default JUndefined (assoc_get "passwords" data)) (JArr []))
             m)) w).
Proof.
  intros Hblob Hne Hdec. unfold loadData.
  erewrite bind_run; [|unfold getItem, gets; rewrite Hblob; reflexivity].
  destruct blob as [|c s]; [congruence|].
  unfold bind at 1, gets at 1, bind at 1, lift at 1. rewrite Hdec.
  destruct w as [[mp ps cs st lk] store en dr ck tk tm nt ls sc].
  reflexivity.
Qed.

(** [loadData] when the store has no blob, or an empty one. *)
Lemma loadData_absent (w : World) :
  localStorage w !! "encryptedData"%string = None
  \/ localStorage w !! "encryptedData"%string = Some EmptyString ->
  loadData w = (Ok tt, w).
Proof.
  intros [Hnone|Hempty]; unfold loadData, bind, getItem, gets.
  - now rewrite Hnone.
  - now rewrite Hempty.
Qed.

(** [loadData] when the blob does not decrypt. *)
Lemma loadData_throws (w : World) (blob : string) (e : error) :
  localStorage w !! "encryptedData"%string = Some blob ->
  blob <> EmptyString ->
  CryptoManager.decrypt blob (USVString (masterPassword (this w))) = Throw e ->
  loadData w = (Throw e, w).
Proof.
  intros Hblob Hne Hdec. unfold loadData.
  erewrite bind_run; [|unfold getItem, gets; rewrite Hblob; reflexivity].
  destruct blob as [|c s]; [congruence|].
  unfold bind at 1, gets at 1, bind at 1, lift at 1. now rewrite Hdec.
Qed.

(** [login] up to the call of [loadData]. *)
Lemma login_run (password : string) (w : World) :
  login password w =
  if bool_decide (localStorage w !! "masterPasswordHash"%string
                  = Some (CryptoManager.hashPassword password))
  then
    (loadData ;; showMainApp ;; startSessionTimeout)
      (with_this (fun m => set_isLocked false (set_masterPassword (Some password) m)) w)
  else (Throw AuthenticationError, w).
Proof.
  unfold login, bind at 1, getItem, gets.
  destruct (bool_decide _); [|reflexivity].
  destruct w as [[mp ps cs st lk] store en dr ck tk tm nt ls sc]. reflexivity.
Qed.

Lemma decrypt_holds_sealed (w : World) (m : Manager) (password : string) :
  holds_sealed w m password ->
  JSON_serializable (payload m) ->
  exists blob,
    localStorage w !! "encryptedData"%string = Some blob
    /\ blob <> EmptyString
    /\ CryptoManager.decrypt blob password = Ok (payload m).
Proof.
  intros (salt & iv & Hs & Hi & Hblob) (s & Hstr & Hparse).
  eexists. split; [exact Hblob|]. split; [now apply sealed_not_empty|].
  rewrite decrypt_sealed by assumption.
  unfold CryptoManager.open_sealed, CryptoManager.plaintext.
  rewrite AES_GCM_decrypt_encrypt, TextDecoder_decode_encode, Hstr. simpl.
  now rewrite Hparse.
Qed.

Lemma login_restores_run (password : string) (w : World) (m : Manager)
    (xs names : list value) :
  localStorage w !! "masterPasswordHash"%string
    = Some (CryptoManager.hashPassword password) ->
  holds_sealed w m password ->
  JSON_serializable (payload m) ->
  renderable m xs names ->
  login password w =
  (Ok tt,
   mkWorld (mkManager (Some password) (JArr xs) (JArr names)
                      (Some (next_timer w)) false)
           (localStorage w) (entropy w) (drawn w) (clock w) (ticks w)
           ({[next_timer w]} ∪
            match sessionTimeout (this w) with
            | Some t => timers w ∖ {[t]}
            | None => timers w
            end)
           (Pos.succ (next_timer w)) (listeners w + 4) MainApp).
Proof.
  intros Hhash Hheld Hser (Hps & Hcs & Hshown & Hnames).
  destruct (decrypt_holds_sealed w m password Hheld Hser)
    as (blob & Hblob & Hne & Hdec).
  rewrite login_run, bool_decide_eq_true_2 by exact Hhash.
  unfold bind at 1.
  erewrite loadData_run; [| exact Hblob | exact Hne | exact Hdec ].
  unfold bind at 1.
  erewrite (showMainApp_renderable _ xs names).
  - rewrite startSessionTimeout_run.
    destruct w as [[mp ps cs st lk] store en dr ck tk tm nt ls sc].
    simpl. rewrite Hps, Hcs. reflexivity.
  - destruct w as [[mp ps cs st lk] store en dr ck tk tm nt ls sc].
    unfold renderable. simpl. rewrite Hps, Hcs. now repeat split.
Qed.

(** X1.  Setup.  With a master password of eight code units or more, on a
    vault that the page can render (records that are objects whose fields
    convert to text, categories that convert to text) and whose encryption
    is within the engine's limit on arguments, [setupMasterPassword]
    returns normally: the store then holds the verifier of the password
    and an encryption, under the password, of the vault in memory, which is
    left as it was; the session is unlocked on the main screen and its
    timeout is armed.  When the vault is JSON-serializable the stored blob
    decrypts to it under the password. *)
Theorem setup_opens_session (password : string) (w : World)
    (xs names : list value) :
  (8 <= String.length password)%nat ->
  renderable (this w) xs names ->
  within_limit (payload (this w)) password (salt_at w) (iv_at w) = true ->
  exists w',
    setupMasterPassword password w = (Ok tt, w')
    /\ localStorage w' !! "masterPasswordHash"%string
       = Some (CryptoManager.hashPassword password)
    /\ persisted w'
    /\ masterPassword (this w') = Some password
    /\ isLocked (this w') = false
    /\ passwords (this w') = passwords (this w)
    /\ categories (this w') = categories (this w)
    /\ screen w' = MainApp
    /\ sessionTimeout (this w') = Some (next_timer w)
    /\ next_timer w ∈ timers w'
    /\ (JSON_serializable (payload (this w)) ->
        exists blob,
          localStorage w' !! "encryptedData"%string = Some blob
          /\ CryptoManager.decrypt blob password = Ok (payload (this w))).
Proof.
  intros Hlen Hr Hfits.
  pose proof (setupMasterPassword_returns password w Hlen
                (setupMasterPassword_Ok _ _ _ _ Hlen Hr Hfits)) as Hrun.
  eexists. split; [exact Hrun|].
  assert (holds_sealed
            (snd (setupMasterPassword password w)) (this w) password) as Hheld.
  { rewrite Hrun.
    exists (salt_at w), (iv_at w).
    split; [apply salt_at_length|]. split; [apply iv_at_length|].
    simpl. apply lookup_insert_eq. }
  rewrite Hrun in Hheld.
  simpl. repeat split.
  - rewrite lookup_insert_ne by discriminate. apply lookup_insert_eq.
  - exact Hheld.
  - set_solver.
  - intros Hser.
    destruct (decrypt_holds_sealed _ _ _ Hheld Hser) as (blob & Hb & _ & Hd).
    now exists blob.
Qed.

(** X2.  Login refused.  When the store has no verifier, or the verifier of a
    password whose SHA-256 digest differs from that of the password
    entered, [login] throws the authentication error and changes nothing:
    nothing is decrypted and the session stays as it was. *)
Theorem login_refuses_other_digest (attempt : string) (w : World) :
  (localStorage w !! "masterPasswordHash"%string = None
   \/ exists password,
        localStorage w !! "masterPasswordHash"%string
          = Some (CryptoManager.hashPassword password)
        /\ SHA256 (TextEncoder_encode attempt)
           <> SHA256 (TextEncoder_encode password)) ->
  login attempt w = (Throw AuthenticationError, w).
Proof.
  intros Hstored. rewrite login_run, bool_decide_eq_false_2; [reflexivity|].
  destruct Hstored as [Hnone|(password & Hsome & Hdiff)].
  - rewrite Hnone. discriminate.
  - rewrite Hsome. intros Heq. injection Heq as Heq.
    apply Hdiff. symmetry. now apply hashPassword_eq.
Qed.

(** X3.  Login.  When the store holds the verifier of the password and an
    encryption under it of a JSON-serializable vault that the page can
    render (an array of records that are objects whose fields convert to
    text, and an array of names that convert to text), [login] returns
    normally whatever the manager held in memory: the records and the
    category set are those of the stored vault, the session is unlocked on
    the main screen, its timeout is armed and the store is not written. *)
Theorem login_restores_stored_vault (password : string) (w : World)
    (m : Manager) (xs names : list value) :
  localStorage w !! "masterPasswordHash"%string
    = Some (CryptoManager.hashPassword password) ->
  holds_sealed w m password ->
  JSON_serializable (payload m) ->
  renderable m xs names ->
  exists w',
    login password w = (Ok tt, w')
    /\ passwords (this w') = JArr xs
    /\ categories (this w') = JArr names
    /\ masterPassword (this w') = Some password
    /\ isLocked (this w') = false
    /\ screen w' = MainApp
    /\ sessionTimeout (this w') = Some (next_timer w)
    /\ localStorage w' = localStorage w.
Proof.
  intros Hhash Hheld Hser Hr. eexists.
  split; [exact (login_restores_run _ _ _ _ _ Hhash Hheld Hser Hr)|].
  repeat split.
Qed.

(** X4.  Login on a blob that does not open.  When the verifier matches but
    [decrypt] throws on the stored blob, [login] throws that error after it
    has set the master password and cleared the lock flag: the manager is
    left unlocked with the password in memory, while the records, the
    screen and the timers are as before and no timeout is armed. *)
Theorem login_unlocked_after_failed_decrypt (password blob : string)
    (e : error) (w : World) :
  localStorage w !! "masterPasswordHash"%string
    = Some (CryptoManager.hashPassword password) ->
  localStorage w !! "encryptedData"%string = Some blob ->
  blob <> EmptyString ->
  CryptoManager.decrypt blob password = Throw e ->
  exists w',
    login password w = (Throw e, w')
    /\ isLocked (this w') = false
    /\ masterPassword (this w') = Some password
    /\ passwords (this w') = passwords (this w)
    /\ categories (this w') = categories (this w)
    /\ sessionTimeout (this w') = sessionTimeout (this w)
    /\ timers w' = timers w
    /\ listeners w' = listeners w
    /\ screen w' = screen w.
Proof.
  intros Hhash Hblob Hne Hdec. eexists.
  rewrite login_run, bool_decide_eq_true_2 by exact Hhash.
  unfold bind at 1.
  erewrite loadData_throws; [| exact Hblob | exact Hne | exact Hdec ].
  split; [reflexivity|].
  destruct w as [[mp ps cs st lk] store en dr ck tk tm nt ls sc].
  repeat split.
Qed.

(** ** What the operations leave alone *)

Lemma keeps_session_saveData : keeps session saveData.
Proof.
  intros w. rewrite saveData_run. unfold session.
  destruct (fits w); simpl; [|reflexivity].
  now rewrite lookup_insert_ne by discriminate.
Qed.

Lemma keeps_session_Date_now : keeps session Date_now.
Proof. intros w. reflexivity. Qed.

(** One step through a computation that is built from the monad, the
    clock, the setters of the vault and [saveData]. *)
Ltac keeps_step :=
  match goal with
  | |- keeps _ (bind _ _) => apply keeps_bind; [|intros ?]
  | |- keeps _ saveData => apply keeps_session_saveData
  | |- keeps _ Date_now => apply keeps_session_Date_now
  | |- keeps _ (modify _) => apply keeps_modify; intros [[]]; reflexivity
  | |- keeps _ (ret _) => apply keeps_pure; reflexivity
  | |- keeps _ (throw _) => apply keeps_pure; reflexivity
  | |- keeps _ (lift _) => apply keeps_pure; reflexivity
  | |- keeps _ (gets _) => apply keeps_pure; reflexivity
  | |- keeps _ (match ?x with _ => _ end) => destruct x
  end.

Lemma keeps_session_run (op : operation) : keeps session (run op).
Proof.
  destruct op; unfold run, addPassword, updatePassword, deletePassword,
    addCategory, deleteCategory, new_Date_toISOString; repeat keeps_step.
Qed.

(** ** The store follows the vault *)

Lemma saveData_persisted (w : World) :
  fits w = true -> persisted (snd (saveData w)).
Proof.
  intros Hfits. rewrite (saveData_fits _ Hfits).
  exists (salt_at w), (iv_at w).
  split; [apply salt_at_length|]. split; [apply iv_at_length|].
  simpl. apply lookup_insert_eq.
Qed.

(** A save that returned has the store up to date. *)
Lemma saveData_returned_persisted (w : World) :
  fst (saveData w) = Ok tt -> persisted (snd (saveData w)).
Proof. intros Hok. now apply saveData_persisted, saveData_Ok. Qed.

Lemma saveData_not_overflow (w : World) :
  fst (saveData w) <> Throw RangeError -> fst (saveData w) = Ok tt.
Proof. now destruct (saveData_cases w). Qed.

Lemma added_object (fields : value) (w : World) :
  is_object (added fields w) = true.
Proof. reflexivity. Qed.

Lemma updated_objects (id updates : value) (xs : list value) (w : World) :
  Forall (fun p => is_object p = true) xs ->
  Forall (fun p => is_object p = true) (updated id updates xs w).
Proof.
  intros Hobj. unfold updated. destruct (index_where _ xs); [|exact Hobj].
  now apply Forall_insert.
Qed.

Lemma moved_objects (name : string) (xs : list value) :
  Forall (fun p => is_object p = true) xs ->
  Forall (fun p => is_object p = true) (map (moved name) xs).
Proof.
  intros Hobj. apply Forall_map. eapply Forall_impl; [exact Hobj|].
  intros p. apply moved_object.
Qed.

(** [addPassword] with defined fields, as an operation, is the save of the
    vault with the new record. *)
Lemma run_AddRecord (fields : value) (w : World) (xs : list value) :
  passwords (this w) = JArr xs ->
  fields <> JUndefined -> fields <> JNull ->
  run (AddRecord fields) w
  = saveData (with_this (set_passwords (JArr (added fields w :: xs)))
                        (with_ticks (S (S (S (ticks w)))) w)).
Proof.
  intros Hps Hu Hn. unfold run, bind.
  rewrite (addPassword_run _ _ _ Hps Hu Hn). cbn zeta.
  rewrite (saveData_outcome (with_this _ _)).
  now destruct (fits _).
Qed.

(** On a vault of objects an operation either leaves the manager and the
    store as they are, or ends with [saveData] on a vault of objects. *)
Lemma run_cases (op : operation) (w : World) (xs names : list value) :
  vault (this w) xs names ->
  (this (snd (run op w)) = this w
   /\ localStorage (snd (run op w)) = localStorage w
   /\ (fst (run op w) = Ok tt
       \/ exists fields, op = AddRecord fields
                         /\ (fields = JUndefined \/ fields = JNull)))
  \/ (exists w1, run op w = saveData w1 /\ well_formed w1).
Proof.
  intros Hv. pose proof Hv as (Hps & Hcs & Hobj).
  destruct op as [fields|id updates|id|name|name].
  - assert (fields = JUndefined \/ fields = JNull
            \/ (fields <> JUndefined /\ fields <> JNull))
      as [->|[->|[Hu Hn]]]
      by (destruct fields; auto; right; right; split; discriminate);
      [left; repeat split; right; eauto..|].
    right. rewrite (run_AddRecord _ _ _ Hps Hu Hn).
    eexists. split; [reflexivity|].
    exists (added fields w :: xs), names.
    split; [apply passwords_set|]. split; [now destruct w as [[]]|].
    constructor; [apply added_object|exact Hobj].
  - unfold run. rewrite (updatePassword_run _ _ _ _ _ Hv).
    destruct (index_where _ xs) eqn:Hi; [right|left; repeat split; now left].
    eexists. split; [reflexivity|].
    exists (updated id updates xs w), names.
    split; [apply passwords_set|]. split; [now destruct w as [[]]|].
    now apply updated_objects.
  - right. unfold run. rewrite (deletePassword_run _ _ _ _ Hv).
    eexists. split; [reflexivity|].
    exists (remaining id xs), names.
    split; [apply passwords_set|]. split; [now destruct w as [[]]|].
    now apply Forall_List_filter.
  - unfold run. rewrite (addCategory_run _ _ _ Hcs).
    destruct (existsb _ names); [left; repeat split; now left|right].
    eexists. split; [reflexivity|].
    exists xs, (names ++ [JStr name]).
    split; [now destruct w as [[]]|]. split; [apply categories_set|].
    exact Hobj.
  - right. unfold run. rewrite (deleteCategory_run _ _ _ _ Hv).
    eexists. split; [reflexivity|].
    exists (map (moved name) xs), (without name names).
    split; [now destruct w as [[]]|]. split; [now destruct w as [[]]|].
    now apply moved_objects.
Qed.

(** An operation leaves a vault of objects, whatever its outcome. *)
Lemma run_well_formed (op : operation) (w : World) :
  well_formed w -> well_formed (snd (run op w)).
Proof.
  intros (xs & names & Hv).
  destruct (run_cases op w xs names Hv) as [(Hthis & _)|(w1 & -> & Hw1)].
  - exists xs, names. now rewrite Hthis.
  - unfold well_formed. now rewrite saveData_this.
Qed.

Lemma run_keeps_persisted (op : operation) (w : World) :
  well_formed w -> persisted w ->
  fst (run op w) <> Throw RangeError ->
  persisted (snd (run op w)).
Proof.
  intros (xs & names & Hv) Hp.
  destruct (run_cases op w xs names Hv) as [(Hthis & Hstore & _)|(w1 & -> & Hw1)].
  - intros _. unfold persisted, holds_sealed in *. now rewrite Hthis, Hstore.
  - intros Hok. now apply saveData_returned_persisted, saveData_not_overflow.
Qed.

(** ** The session timer *)

Lemma timer_invariant_same (w w' : World) :
  sessionTimeout (this w') = sessionTimeout (this w) ->
  timers w' = timers w ->
  timer_invariant w -> timer_invariant w'.
Proof. unfold timer_invariant. now intros -> ->. Qed.

Lemma timer_invariant_session (w w' : World) :
  session w' = session w -> timer_invariant w -> timer_invariant w'.
Proof.
  intros Hs. apply timer_invariant_same.
  - exact (f_equal session_timeout Hs).
  - exact (f_equal session_timers Hs).
Qed.

Lemma startSessionTimeout_timer_invariant (w : World) :
  timer_invariant w -> timer_invariant (snd (startSessionTimeout w)).
Proof.
  rewrite startSessionTimeout_run. unfold timer_invariant. simpl.
  destruct (sessionTimeout (this w)); intros Hinv; set_solver.
Qed.

Lemma repeat_reset_timer_invariant (n : nat) (w : World) :
  timer_invariant w -> timer_invariant (snd (Page.repeat_reset n w)).
Proof.
  revert w. induction n as [|n IH]; intros w Hinv; [exact Hinv|].
  simpl. unfold bind.
  pose proof (resetTimeout_timer_invariant w Hinv) as Hreset.
  destruct (resetTimeout w) as [[[]|e] w1]; simpl in *; [now apply IH|exact Hreset].
Qed.

Lemma keeps_timing_loadData : keeps timing loadData.
Proof. unfold loadData, getItem. repeat keeps_step. Qed.

Lemma timer_invariant_timing (w w' : World) :
  timing w' = timing w -> timer_invariant w -> timer_invariant w'.
Proof.
  unfold timing. intros [= Hs Ht]. now apply timer_invariant_same.
Qed.

(** The invariant goes through a sequence when it goes through its parts. *)
Lemma timer_invariant_bind {A B : Type} (m : M A) (k : A -> M B) (w : World) :
  (forall w, timer_invariant w -> timer_invariant (snd (m w))) ->
  (forall a w, timer_invariant w -> timer_invariant (snd (k a w))) ->
  timer_invariant w -> timer_invariant (snd (bind m k w)).
Proof.
  intros Hm Hk Hinv. unfold bind. specialize (Hm w Hinv).
  destruct (m w) as [[a|e] w1]; simpl in *; [now apply Hk|exact Hm].
Qed.

Lemma showMainApp_timer_invariant (w : World) :
  timer_invariant w -> timer_invariant (snd (showMainApp w)).
Proof.
  rewrite showMainApp_run. apply timer_invariant_same; now destruct w.
Qed.

Lemma saveData_timer_invariant (w : World) :
  timer_invariant w -> timer_invariant (snd (saveData w)).
Proof. apply timer_invariant_session, keeps_session_saveData. Qed.

Lemma setupMasterPassword_timer_invariant (password : string) (w : World) :
  timer_invariant w -> timer_invariant (snd (setupMasterPassword password w)).
Proof.
  intros Hinv.
  destruct (Nat.ltb_spec (String.length password) 8) as [Hlt|Hge].
  - unfold setupMasterPassword.
    apply Nat.ltb_lt in Hlt. now rewrite Hlt.
  - rewrite (setupMasterPassword_steps _ _ Hge).
    apply timer_invariant_bind; [apply saveData_timer_invariant| |].
    + intros _ w1. apply timer_invariant_bind;
        [apply showMainApp_timer_invariant|].
      intros _. apply startSessionTimeout_timer_invariant.
    + revert Hinv. apply timer_invariant_same;
        destruct w as [[mp ps cs st lk] store en dr ck tk tm nt ls sc];
        reflexivity.
Qed.

Lemma login_timer_invariant (password : string) (w : World) :
  timer_invariant w -> timer_invariant (snd (login password w)).
Proof.
  intros Hinv. rewrite login_run. destruct (bool_decide _); [|exact Hinv].
  apply timer_invariant_bind.
  - intros w1. apply timer_invariant_timing, keeps_timing_loadData.
  - intros _ w1. apply timer_invariant_bind;
      [apply showMainApp_timer_invariant|].
    intros _. apply startSessionTimeout_timer_invariant.
  - revert Hinv. apply timer_invariant_same;
      destruct w as [[mp ps cs st lk] store en dr ck tk tm nt ls sc];
      reflexivity.
Qed.

(** A handler whose work after the toast only reads leaves the world that
    its call of the manager left. *)
Lemma try_toast_snd (m after : M unit) (done : string) (w : World) :
  (forall w', snd (after w') = w') ->
  snd (try_toast m done after w) = snd (m w).
Proof.
  intros Hafter. unfold try_toast. destruct (m w) as [[[]|e] w']; [|reflexivity].
  specialize (Hafter w'). now destruct (after w') as [[[]|e] w''].
Qed.

Lemma then_ret_snd {A B : Type} (m : M A) (b : B) (w : World) :
  snd ((m ;; ret b) w) = snd (m w).
Proof. unfold bind. now destruct (m w) as [[a|e] w']. Qed.

Lemma happens_Operation (op : operation) (w : World) :
  snd (happens (Operation op) w) = snd (run op w).
Proof. reflexivity. Qed.

Lemma happens_timer_invariant (e : event) (w : World) :
  timer_invariant w -> timer_invariant (snd (happens e w)).
Proof.
  intros Hinv. destruct e as [password confirm|password| | |t|op].
  - unfold happens. rewrite then_ret_snd. unfold Page.setup_form_submit.
    destruct (bool_decide _); [|exact Hinv].
    rewrite try_toast_snd by reflexivity.
    now apply setupMasterPassword_timer_invariant.
  - unfold happens, Page.login_form_submit.
    rewrite then_ret_snd, try_toast_snd by reflexivity.
    now apply login_timer_invariant.
  - unfold happens, Page.lock_button_click. rewrite !then_ret_snd.
    unfold timer_invariant. rewrite lock_run. simpl.
    revert Hinv. unfold timer_invariant.
    destruct (sessionTimeout (this w)); intros Hinv; set_solver.
  - now apply repeat_reset_timer_invariant.
  - simpl. unfold Page.timeout_expires.
    destruct (bool_decide _); [|exact Hinv].
    unfold bind, modify. unfold timer_invariant. rewrite lock_run. simpl.
    revert Hinv. unfold timer_invariant.
    destruct w as [[mp ps cs st lk] store en dr ck tk tm nt ls sc]. simpl.
    destruct st; intros Hinv; set_solver.
  - rewrite happens_Operation.
    apply (timer_invariant_session w); [apply keeps_session_run|exact Hinv].
Qed.

(** X5.  The session timeout.  Of the timeouts that the manager arms, the
    session timeouts, whose callback locks it (a toast arms timeouts of
    its own, which only take the toast off the document and are not among
    these): from a world in which the one the manager has stored is the
    only session timeout pending (a freshly loaded page has none), any
    sequence of events (setup and login forms, the lock button, activity,
    the expiry of a session timeout, record and category operations, each
    with any arguments and any outcome) leaves a world in which that still
    holds: at most one session timeout is pending, the one the manager has
    stored. *)
Theorem one_session_timeout_pending (es : list event) (w : World) :
  timer_invariant w -> timer_invariant (after es w).
Proof.
  revert w. induction es as [|e es IH]; intros w Hinv; [exact Hinv|].
  simpl. now apply IH, happens_timer_invariant.
Qed.

(** X6.  Expiry.  After a setup that returned normally, on a page whose
    only pending session timeout was the one the manager had stored,
    exactly one session timeout is pending, the one the manager has
    stored; when it expires the session is locked as by the lock button:
    the lock flag is set, the master password and the records are cleared,
    no session timeout is stored or pending any more, and the store is as
    setup wrote it. *)
Theorem session_expires_after_setup (password : string) (w : World) :
  (8 <= String.length password)%nat ->
  timer_invariant w ->
  fst (setupMasterPassword password w) = Ok tt ->
  let opened := snd (setupMasterPassword password w) in
  exists t w',
    sessionTimeout (this opened) = Some t
    /\ timers opened = {[t]}
    /\ Page.timeout_expires t opened = (Ok tt, w')
    /\ isLocked (this w') = true
    /\ masterPassword (this w') = None
    /\ passwords (this w') = JArr []
    /\ sessionTimeout (this w') = None
    /\ timers w' = ∅
    /\ screen w' = LoginScreen
    /\ localStorage w' = localStorage opened.
Proof.
  intros Hlen Hinv Hok opened.
  pose proof (setupMasterPassword_returns _ _ Hlen Hok) as Hrun.
  assert (timers opened = {[next_timer w]}) as Htimers.
  { subst opened. rewrite Hrun.
    revert Hinv. unfold timer_invariant. simpl.
    destruct (sessionTimeout (this w)); intros Hinv; set_solver. }
  assert (sessionTimeout (this opened) = Some (next_timer w)) as Hstored
    by (subst opened; now rewrite Hrun).
  exists (next_timer w), (snd (Page.timeout_expires (next_timer w) opened)).
  split; [exact Hstored|]. split; [exact Htimers|].
  unfold Page.timeout_expires.
  rewrite bool_decide_eq_true_2 by (rewrite Htimers; set_solver).
  unfold bind, modify. rewrite lock_run. split; [reflexivity|].
  cbn [snd this isLocked masterPassword passwords sessionTimeout timers screen
       localStorage].
  repeat split.
  destruct opened as [[mp ps cs st lk] store en dr ck tk tm nt ls sc].
  simpl in *. subst tm. destruct st; set_solver.
Qed.

Lemma resetTimeout_arms (w : World) :
  exists t, sessionTimeout (this (snd (resetTimeout w))) = Some t
            /\ t ∈ timers (snd (resetTimeout w))
            /\ fst (resetTimeout w) = Ok tt
            /\ isLocked (this (snd (resetTimeout w))) = isLocked (this w).
Proof.
  destruct w as [[mp ps cs st lk] store en dr ck tk tm nt ls sc].
  exists nt. destruct st; simpl; repeat split; set_solver.
Qed.

Lemma repeat_reset_arms (n : nat) (w : World) :
  exists t, sessionTimeout (this (snd (Page.repeat_reset (S n) w))) = Some t
            /\ t ∈ timers (snd (Page.repeat_reset (S n) w))
            /\ isLocked (this (snd (Page.repeat_reset (S n) w)))
               = isLocked (this w).
Proof.
  revert w. induction n as [|n IH]; intros w;
    destruct (resetTimeout_arms w) as (t & Hst & Ht & Hok & Hlk);
    change (Page.repeat_reset (S ?k) w)
      with ((resetTimeout ;; Page.repeat_reset k) w);
    unfold bind at 1 2 3;
    destruct (resetTimeout w) as [[[]|e] w1]; simpl in Hok; try discriminate.
  - exists t. simpl in *. auto.
  - simpl in Hlk. rewrite <- Hlk. apply IH.
Qed.

(** X7.  Listeners outlive the lock.  [lock] removes none of the activity
    listeners that [startSessionTimeout] registered, so once a session has
    been opened an activity event after [lock] arms a session timeout
    again: the manager is locked and a timeout is pending. *)
Theorem activity_after_lock_arms_timeout (w : World) :
  (4 <= listeners w)%nat ->
  let locked := snd (lock w) in
  let w' := snd (Page.activity locked) in
  listeners locked = listeners w
  /\ sessionTimeout (this locked) = None
  /\ isLocked (this w') = true
  /\ exists t, sessionTimeout (this w') = Some t /\ t ∈ timers w'.
Proof.
  intros Hl locked w'. subst w'. unfold Page.activity.
  assert (listeners locked = listeners w) as Hsame
    by (subst locked; now rewrite lock_run).
  rewrite Hsame.
  destruct (listeners w / 4)%nat as [|n] eqn:Hn.
  { apply Nat.div_small_iff in Hn; lia. }
  destruct (repeat_reset_arms n locked) as (t & Hst & Ht & Hlk).
  split; [reflexivity|].
  split; [subst locked; now rewrite lock_run|].
  split; [|eauto].
  rewrite Hlk. subst locked. now rewrite lock_run.
Qed.

Lemma after_operations_session (ops : list operation) (w : World) :
  session (after (map Operation ops) w) = session w.
Proof.
  revert w. induction ops as [|op ops IH]; intros w; [reflexivity|].
  cbn [map after]. rewrite IH, happens_Operation. apply keeps_session_run.
Qed.

Lemma after_operations_well_formed (ops : list operation) (w : World) :
  well_formed w -> well_formed (after (map Operation ops) w).
Proof.
  revert w. induction ops as [|op ops IH]; intros w Hwf; [exact Hwf|].
  cbn [map after]. rewrite happens_Operation. now apply IH, run_well_formed.
Qed.

Lemma after_operations (ops : list operation) (w : World) :
  well_formed w -> persisted w -> within_limits ops w ->
  persisted (after (map Operation ops) w).
Proof.
  revert w. induction ops as [|op ops IH]; intros w Hwf Hp Hfit; [exact Hp|].
  destruct Hfit as [Hfit Hrest].
  cbn [map after]. rewrite happens_Operation.
  apply IH; [now apply run_well_formed|now apply run_keeps_persisted|exact Hrest].
Qed.

(** X8.  The session is not the operations' business.  Whatever its arguments
    and its outcome, no record or category operation changes the master
    password in memory, the lock flag, the session timeout, the pending
    timers, the listeners, the screen or the stored verifier. *)
Theorem operations_leave_session (op : operation) (w : World) :
  let w' := snd (run op w) in
  masterPassword (this w') = masterPassword (this w)
  /\ isLocked (this w') = isLocked (this w)
  /\ sessionTimeout (this w') = sessionTimeout (this w)
  /\ timers w' = timers w
  /\ listeners w' = listeners w
  /\ screen w' = screen w
  /\ localStorage w' !! "masterPasswordHash"%string
     = localStorage w !! "masterPasswordHash"%string.
Proof.
  pose proof (keeps_session_run op w) as Hs. unfold session in Hs.
  injection Hs as H1 H2 H3 H4 H5 H6 H7 H8. now repeat split.
Qed.

(** X9.  The store follows the vault.  From a vault of objects whose encryption
    under the master password in memory is in the store, any sequence of
    record and category operations, with any arguments, of which none
    throws the [RangeError] of a save past the engine's limit on
    arguments, leaves such a state again: after the last operation the
    store holds an encryption, under the same master password, of the vault
    then in memory.  (An operation that throws that error has changed the
    vault in memory and left the store behind.) *)
Theorem store_follows_operations (ops : list operation) (w : World) :
  well_formed w -> persisted w -> within_limits ops w ->
  let w' := after (map Operation ops) w in
  well_formed w' /\ persisted w'
  /\ masterPassword (this w') = masterPassword (this w).
Proof.
  intros Hwf Hp Hfit w'.
  split; [now apply after_operations_well_formed|].
  split; [now apply after_operations|].
  exact (f_equal session_password (after_operations_session ops w)).
Qed.

(** X10.  Lock and come back.  After a setup that returned normally, with a
    master password of eight code units or more on a vault of objects, run
    any sequence of record and category operations of which none throws
    the [RangeError] of a save past the engine's limit, lock, and log in
    with the same password: when the vault reached is JSON-serializable
    and the page can render it, [login] returns normally and the records
    and the category set in memory are those the vault had before the lock;
    the session is unlocked again. *)
Theorem vault_survives_lock_and_login (password : string)
    (ops : list operation) (w : World) (xs names : list value) :
  (8 <= String.length password)%nat ->
  well_formed w ->
  fst (setupMasterPassword password w) = Ok tt ->
  let opened := snd (setupMasterPassword password w) in
  let used := after (map Operation ops) opened in
  within_limits ops opened ->
  JSON_serializable (payload (this used)) ->
  renderable (this used) xs names ->
  exists w',
    login password (snd (lock used)) = (Ok tt, w')
    /\ passwords (this (snd (lock used))) = JArr []
    /\ passwords (this w') = passwords (this used)
    /\ categories (this w') = categories (this used)
    /\ masterPassword (this w') = Some password
    /\ isLocked (this w') = false.
Proof.
  intros Hlen (xs0 & names0 & Hps0 & Hcs0 & Hobj0) Hok opened used Hfit Hser Hr.
  pose proof (setupMasterPassword_returns _ _ Hlen Hok) as Hrun.
  assert (well_formed opened /\ persisted opened
          /\ masterPassword (this opened) = Some password
          /\ localStorage opened !! "masterPasswordHash"%string
             = Some (CryptoManager.hashPassword password))
    as (Hwf1 & Hp1 & Hmp1 & Hh1).
  { subst opened. rewrite Hrun.
    split; [now exists xs0, names0|].
    split; [|split; [reflexivity|]].
    - exists (salt_at w), (iv_at w).
      split; [apply salt_at_length|]. split; [apply iv_at_length|].
      simpl. apply lookup_insert_eq.
    - simpl. rewrite lookup_insert_ne by discriminate. apply lookup_insert_eq. }
  pose proof (after_operations ops opened Hwf1 Hp1 Hfit) as Hp2.
  pose proof (after_operations_session ops opened) as Hs2.
  fold used in Hp2, Hs2.
  assert (masterPassword (this used) = Some password) as Hmp2
    by (rewrite <- Hmp1; exact (f_equal session_password Hs2)).
  assert (localStorage used !! "masterPasswordHash"%string
          = Some (CryptoManager.hashPassword password)) as Hh2
    by (rewrite <- Hh1; exact (f_equal session_verifier Hs2)).
  pose proof Hr as (Hps & Hcs & _).
  unfold persisted in Hp2. rewrite Hmp2 in Hp2. simpl in Hp2.
  eexists. split.
  - apply (login_restores_run password _ (this used) xs names);
      try assumption; rewrite lock_run; assumption.
  - rewrite lock_run. simpl. now rewrite Hps, Hcs.
Qed.

(** X11.  The operations do not look at the lock.  On a manager that [lock] has
    just locked, [addPassword] with defined fields still adds the record:
    the record list in memory is that one record and the lock flag stays
    set.  The call returns the new record, or throws the [RangeError] of a
    save past the engine's limit on arguments; when it returns, the blob in
    the store is replaced by an encryption of this vault under the text
    [null], the string the cleared master password turns into. *)
Theorem addPassword_ignores_lock (fields : value) (w : World) :
  fields <> JUndefined -> fields <> JNull ->
  let locked := snd (lock w) in
  let w' := snd (addPassword fields locked) in
  isLocked (this w') = true
  /\ masterPassword (this w') = None
  /\ passwords (this w') = JArr [added fields locked]
  /\ (fst (addPassword fields locked) = Ok (added fields locked)
      \/ fst (addPassword fields locked) = Throw RangeError)
  /\ (fst (addPassword fields locked) = Ok (added fields locked) ->
      localStorage w' !! "encryptedData"%string
      = Some (sealed (payload (this w')) "null"
                     (salt_at locked) (iv_at locked))).
Proof.
  intros Hu Hn locked w'.
  assert (passwords (this locked) = JArr []) as Hps
    by (subst locked; now rewrite lock_run).
  pose proof (addPassword_run fields locked [] Hps Hu Hn) as Hrun.
  cbn zeta in Hrun. subst w'. rewrite Hrun. cbn [fst snd].
  rewrite saveData_this.
  split; [subst locked; now rewrite lock_run|].
  split; [subst locked; now rewrite lock_run|].
  split; [apply passwords_set|].
  split; [destruct (fits _); auto|].
  destruct (fits _) eqn:Hfits; [|discriminate]. intros _.
  rewrite (saveData_fits _ Hfits).
  subst locked. rewrite lock_run. simpl. apply lookup_insert_eq.
Qed.

(** ** Records *)

Lemma sublist_List_filter {A : Type} (g : A -> bool) (xs : list A) :
  sublist (List.filter g xs) xs.
Proof.
  induction xs as [|x xs IH]; simpl; [constructor|].
  destruct (g x); now constructor.
Qed.

Lemma elem_of_List_filter {A : Type} (g : A -> bool) (xs : list A) (x : A) :
  x ∈ List.filter g xs <-> x ∈ xs /\ g x = true.
Proof. rewrite !list_elem_of_In. apply filter_In. Qed.

(** The save that ends an operation, of a vault with the records [xs'] and
    the categories [names'] under the master password, the random bytes
    and the store of [w]: it leaves the manager as it is; it returns
    exactly when that vault is within the engine's limit on arguments, and
    the store is then up to date; otherwise it throws the [RangeError]. *)
Lemma saveData_vault (w1 w : World) (xs' names' : list value) :
  masterPassword (this w1) = masterPassword (this w) ->
  passwords (this w1) = JArr xs' ->
  categories (this w1) = JArr names' ->
  entropy w1 = entropy w -> drawn w1 = drawn w ->
  this (snd (saveData w1)) = this w1
  /\ (fst (saveData w1) = Ok tt <-> fits (with_vault xs' names' w) = true)
  /\ (fst (saveData w1) = Ok tt \/ fst (saveData w1) = Throw RangeError)
  /\ (fst (saveData w1) = Ok tt -> persisted (snd (saveData w1))).
Proof.
  intros Hmp Hps Hcs Hen Hdr.
  split; [apply saveData_this|].
  split; [rewrite <- (fits_vault w1 w xs' names' Hmp Hps Hcs Hen Hdr);
          apply saveData_Ok|].
  split; [apply saveData_cases|apply saveData_returned_persisted].
Qed.

(** X12.  Deleting.  On a vault of objects [deletePassword] removes every
    record whose [id] is strictly equal to the argument, not only the
    first: the records left are exactly those with another [id], in their
    order, and the category set is untouched.  The call returns normally
    exactly when the vault it leaves is within the engine's limit on
    arguments, and the store then holds the new vault; otherwise it throws
    the [RangeError] of the save. *)
Theorem deletePassword_removes_every_match (id : value) (w : World)
    (xs names : list value) :
  vault (this w) xs names ->
  let w' := snd (deletePassword id w) in
  exists xs',
    passwords (this w') = JArr xs'
    /\ categories (this w') = JArr names
    /\ sublist xs' xs
    /\ (forall p, p ∈ xs'
                  <-> p ∈ xs /\ strict_equal (field p "id") id = false)
    /\ (fst (deletePassword id w) = Ok tt
        <-> fits (with_vault xs' names w) = true)
    /\ (fst (deletePassword id w) = Ok tt
        \/ fst (deletePassword id w) = Throw RangeError)
    /\ (fst (deletePassword id w) = Ok tt -> persisted w').
Proof.
  intros Hv w'. pose proof Hv as (Hps & Hcs & Hobj).
  exists (remaining id xs). subst w'.
  rewrite (deletePassword_run _ _ _ _ Hv).
  set (w1 := with_this (set_passwords (JArr (remaining id xs))) w).
  assert (passwords (this w1) = JArr (remaining id xs)) as Hps1
    by apply passwords_set.
  assert (categories (this w1) = JArr names) as Hcs1
    by (subst w1; now destruct w as [[]]).
  destruct (saveData_vault w1 w (remaining id xs) names)
    as (Hthis & Hiff & Hcases & Hsaved);
    [subst w1; now destruct w as [[]]|assumption..|
     subst w1; now destruct w|subst w1; now destruct w|].
  rewrite Hthis.
  split; [exact Hps1|]. split; [exact Hcs1|].
  split; [apply sublist_List_filter|]. split.
  - intros p. unfold remaining. rewrite elem_of_List_filter.
    now rewrite negb_true_iff.
  - split; [exact Hiff|]. split; [exact Hcases|exact Hsaved].
Qed.

Lemma strict_equal_JStr_refl (s : string) :
  strict_equal (JStr s) (JStr s) = true.
Proof. now apply strict_equal_JStr. Qed.

(** X13.  Ids are clock readings.  Two [addPassword] calls for which [Date.now()]
    gives the same millisecond produce two records with the same [id], both
    kept, the later first; each call returns its record, or throws the
    [RangeError] of a save past the engine's limit on arguments with the
    record in the list all the same; [deletePassword] on that id then
    removes both, and [updatePassword] on it rewrites the later one
    only. *)
Theorem same_millisecond_same_id (f1 f2 : value) (w : World)
    (xs names : list value) :
  vault (this w) xs names ->
  f1 <> JUndefined -> f1 <> JNull -> f2 <> JUndefined -> f2 <> JNull ->
  clock w (S (S (S (ticks w)))) = clock w (ticks w) ->
  let w1 := snd (addPassword f1 w) in
  let w2 := snd (addPassword f2 w1) in
  let id := JStr (pretty (clock w (ticks w))) in
  exists r1 r2,
    (fst (addPassword f1 w) = Ok r1
     \/ fst (addPassword f1 w) = Throw RangeError)
    /\ (fst (addPassword f2 w1) = Ok r2
        \/ fst (addPassword f2 w1) = Throw RangeError)
    /\ passwords (this w2) = JArr (r2 :: r1 :: xs)
    /\ field r1 "id" = id /\ field r2 "id" = id
    /\ passwords (this (snd (deletePassword id w2)))
       = JArr (remaining id xs)
    /\ forall updates,
         exists r2',
           passwords (this (snd (updatePassword id updates w2)))
           = JArr (r2' :: r1 :: xs).
Proof.
  intros Hv Hu1 Hn1 Hu2 Hn2 Hclock w1 w2 id.
  pose proof Hv as (Hps & Hcs & Hobj).
  pose proof (addPassword_run f1 w xs Hps Hu1 Hn1) as Hrun1.
  cbn zeta in Hrun1.
  assert (this w1
          = this (with_this (set_passwords (JArr (added f1 w :: xs)))
                            (with_ticks (S (S (S (ticks w)))) w))) as Hthis1
    by (subst w1; rewrite Hrun1; apply saveData_this).
  assert (passwords (this w1) = JArr (added f1 w :: xs)) as Hps1
    by (rewrite Hthis1; apply passwords_set).
  pose proof (addPassword_run f2 w1 (added f1 w :: xs) Hps1 Hu2 Hn2) as Hrun2.
  cbn zeta in Hrun2.
  assert (this w2
          = this (with_this
                    (set_passwords (JArr (added f2 w1 :: added f1 w :: xs)))
                    (with_ticks (S (S (S (ticks w1)))) w1))) as Hthis2
    by (subst w2; rewrite Hrun2; apply saveData_this).
  assert (passwords (this w2) = JArr (added f2 w1 :: added f1 w :: xs)) as Hps2
    by (rewrite Hthis2; apply passwords_set).
  assert (clock w1 = clock w /\ ticks w1 = S (S (S (ticks w)))) as [Hck Htk].
  { subst w1. rewrite Hrun1. cbn [snd]. rewrite saveData_run.
    destruct (fits _); now destruct w. }
  assert (field (added f2 w1) "id" = id) as Hid2.
  { unfold added, new_record, field. simpl. now rewrite Hck, Htk, Hclock. }
  assert (vault (this w2) (added f2 w1 :: added f1 w :: xs) names) as Hv2.
  { split; [exact Hps2|]. split.
    - rewrite Hthis2.
      replace (categories (this (with_this _ (with_ticks _ w1))))
        with (categories (this w1)) by now destruct w1 as [[]].
      rewrite Hthis1. now destruct w as [[]].
    - repeat constructor. exact Hobj. }
  exists (added f1 w), (added f2 w1).
  split; [rewrite Hrun1; cbn [fst]; destruct (fits _); auto|].
  split.
  { rewrite Hrun2. cbn [fst].
    match goal with |- context [if ?b then _ else _] => destruct b end; auto. }
  split; [exact Hps2|]. split; [reflexivity|]. split; [exact Hid2|]. split.
  - rewrite (deletePassword_run _ _ _ _ Hv2), saveData_this, passwords_set.
    unfold remaining at 1. cbn [List.filter]. rewrite Hid2.
    change (field (added f1 w) "id") with id.
    subst id. now rewrite !strict_equal_JStr_refl.
  - intros updates. rewrite (updatePassword_run _ _ _ _ _ Hv2).
    unfold updated. cbn [index_where]. rewrite Hid2.
    subst id. rewrite !strict_equal_JStr_refl.
    rewrite saveData_this, passwords_set.
    eexists. reflexivity.
Qed.

(** [updatePassword] on the id of the record at place [i], the first with
    this id: the save of the vault with the merged record at that place. *)
Lemma updatePassword_first (w : World) (xs names : list value)
    (id updates : value) (i : nat) (r : value) :
  vault (this w) xs names ->
  first_with_id id xs i r ->
  updatePassword id updates w
  = saveData
      (with_this
         (set_passwords
            (JArr (<[i := merged r updates
                            (Date_toISOString (clock w (ticks w)))]> xs)))
         (with_ticks (S (ticks w)) w)).
Proof.
  intros Hv (Hi & Hid & Hfirst).
  pose proof (index_where_first _ _ _ _ Hi Hid Hfirst) as Hidx.
  rewrite (updatePassword_run _ _ _ _ _ Hv). unfold updated.
  now rewrite Hidx, Hi.
Qed.

(** X14.  Updating.  [updatePassword] on the id of an existing record of a vault
    of objects rewrites that record only, the first with this id: the list
    keeps its length and every other entry; in the record, every property
    that is neither [lastModified] nor carried by the update keeps its
    value; the category set is untouched.  The call returns normally
    exactly when the vault it leaves is within the engine's limit on
    arguments, and the store then holds the new vault; otherwise it throws
    the [RangeError] of the save. *)
Theorem updatePassword_rewrites_one_record (w : World) (xs names : list value)
    (id updates : value) (i : nat) (r : value) :
  vault (this w) xs names ->
  first_with_id id xs i r ->
  let w' := snd (updatePassword id updates w) in
  exists xs' r',
    passwords (this w') = JArr xs'
    /\ categories (this w') = JArr names
    /\ length xs' = length xs
    /\ xs' !! i = Some r'
    /\ (forall j, j <> i -> xs' !! j = xs !! j)
    /\ (forall k, k <> "lastModified"%string ->
                  (forall v, (k, v) ∉ own_props updates) ->
                  field r' k = field r k)
    /\ (fst (updatePassword id updates w) = Ok tt
        <-> fits (with_vault xs' names w) = true)
    /\ (fst (updatePassword id updates w) = Ok tt
        \/ fst (updatePassword id updates w) = Throw RangeError)
    /\ (fst (updatePassword id updates w) = Ok tt -> persisted w').
Proof.
  intros Hv Hfirst w'. pose proof Hv as (Hps & Hcs & Hobj).
  pose proof Hfirst as (Hi & _).
  subst w'. rewrite (updatePassword_first _ _ _ _ _ _ _ Hv Hfirst).
  match goal with |- context [saveData ?w0] => set (w1 := w0) end.
  assert (categories (this w1) = JArr names) as Hcs1
    by (subst w1; now destruct w as [[]]).
  destruct (saveData_vault w1 w
              (<[i := merged r updates
                              (Date_toISOString (clock w (ticks w)))]> xs)
              names) as (Hthis & Hiff & Hcases & Hsaved);
    [subst w1; now destruct w as [[]]|apply passwords_set|exact Hcs1|
     subst w1; now destruct w|subst w1; now destruct w|].
  rewrite Hthis. eexists _, _.
  split; [apply passwords_set|].
  split; [exact Hcs1|].
  split; [apply length_insert|].
  split; [exact (lookup_insert_same _ _ _ _ Hi)|].
  split; [intros j Hj; now apply list_lookup_insert_ne|].
  split; [|split; [exact Hiff|]; split; [exact Hcases|exact Hsaved]].
  intros k Hk Habsent.
  rewrite Forall_forall in Hobj.
  assert (is_object r = true) as Hr
    by (apply Hobj; eapply list_elem_of_lookup_2; eassumption).
  destruct r as [| | | | | |o]; try discriminate.
  now apply field_merged.
Qed.

(** ** The password form *)

(** The properties of a record after the six values of a form have been
    spread over it. *)
Lemma field_merged_form (o : list (string * value)) (form : Page.PasswordForm)
    (stamp : string) :
  let r' := merged (JObj o) (Page.passwordData form) stamp in
  field r' "name" = JStr (Page.pwd_name form)
  /\ field r' "website" = JStr (Page.pwd_website form)
  /\ field r' "username" = JStr (Page.pwd_username form)
  /\ field r' "password" = JStr (Page.pwd_password form)
  /\ field r' "category" = JStr (Page.pwd_category form)
  /\ field r' "notes" = JStr (Page.pwd_notes form).
Proof.
  unfold merged, field, Page.passwordData. simpl own_props.
  rewrite !assign_all_cons. simpl.
  repeat split; rewrite ?assoc_get_set; reflexivity.
Qed.

Lemma passwordData_absent (form : Page.PasswordForm) (k : string) :
  k <> "name"%string -> k <> "website"%string -> k <> "username"%string ->
  k <> "password"%string -> k <> "category"%string -> k <> "notes"%string ->
  forall v, (k, v) ∉ own_props (Page.passwordData form).
Proof.
  intros H1 H2 H3 H4 H5 H6 v Hin. simpl in Hin.
  repeat (apply elem_of_cons in Hin as [Hin|Hin]; [congruence|]).
  now apply elem_of_nil in Hin.
Qed.

(** A record that the page can show can still be shown after the values of
    a form have been spread over it: these are strings. *)
Lemma merged_form_presentable (r : value) (form : Page.PasswordForm)
    (stamp : string) :
  presentable r = true ->
  presentable (merged r (Page.passwordData form) stamp) = true.
Proof.
  intros [Hobj Hfields]%andb_true_iff.
  destruct r as [| | | | | |o]; try discriminate.
  destruct (field_merged_form o form stamp) as (H1 & H2 & H3 & H4 & H5 & H6).
  cbn zeta in H1, H2, H3, H4, H5, H6.
  unfold presentable. cbn [is_object andb card_fields forallb] in *.
  rewrite H1, H2, H3, H4, H5, H6.
  rewrite !(field_merged o (Page.passwordData form) stamp)
    by (discriminate || (apply passwordData_absent; discriminate)).
  cbn [converts andb].
  apply andb_true_iff in Hfields as [Hid Hfields].
  do 6 (apply andb_true_iff in Hfields as [_ Hfields]).
  now rewrite Hid, Hfields.
Qed.

(** The record that [addPassword] makes of the values of a form can be
    shown. *)
Lemma added_form_presentable (form : Page.PasswordForm) (w : World) :
  presentable (added (Page.passwordData form) w) = true.
Proof.
  unfold presentable, added, new_record, field. simpl.
  destruct (Page.pwd_website form), (Page.pwd_username form),
    (Page.pwd_category form), (Page.pwd_notes form); reflexivity.
Qed.

(** X15.  Editing through the form.  Submitted with the id of an existing
    record of a vault that the page can render, the form leaves at that
    place a record with the six values of the form, its [id] and
    [createdDate] as before (the form carries neither) and [lastModified]
    set to the time of the call.  The form reports the update as done,
    and nothing else, exactly when the vault it leaves is within the
    engine's limit on arguments, and the store then holds the new vault;
    otherwise its one toast is the error of the save. *)
Theorem form_edit_keeps_id_and_createdDate (form : Page.PasswordForm)
    (c : ascii) (rest : string) (w : World) (xs names : list value)
    (i : nat) (r : value) :
  let id := String c rest in
  renderable (this w) xs names ->
  first_with_id (JStr id) xs i r ->
  let toasts := fst (Page.password_form_submit form (Some id) w) in
  let w' := snd (Page.password_form_submit form (Some id) w) in
  exists xs' r',
    passwords (this w') = JArr xs'
    /\ xs' !! i = Some r'
    /\ field r' "id" = field r "id"
    /\ field r' "createdDate" = field r "createdDate"
    /\ field r' "lastModified" = JStr (Date_toISOString (clock w (ticks w)))
    /\ field r' "name" = JStr (Page.pwd_name form)
    /\ field r' "website" = JStr (Page.pwd_website form)
    /\ field r' "username" = JStr (Page.pwd_username form)
    /\ field r' "password" = JStr (Page.pwd_password form)
    /\ field r' "category" = JStr (Page.pwd_category form)
    /\ field r' "notes" = JStr (Page.pwd_notes form)
    /\ (toasts = Ok [Success "Password updated successfully"]
        <-> fits (with_vault xs' names w) = true)
    /\ (toasts = Ok [Success "Password updated successfully"]
        \/ toasts = Ok [Failure None])
    /\ (toasts = Ok [Success "Password updated successfully"] ->
        persisted w').
Proof.
  intros id Hr Hfirst toasts w'.
  pose proof (renderable_vault _ _ _ Hr) as Hv.
  pose proof Hr as (Hps & Hcs & Hshown & Hnames).
  pose proof Hfirst as (Hi & _).
  assert (presentable r = true) as Hpr.
  { rewrite Forall_forall in Hshown. apply Hshown.
    eapply list_elem_of_lookup_2. exact Hi. }
  pose proof (presentable_object _ Hpr) as Hobj.
  destruct r as [| | | | | |o]; try discriminate.
  set (stamp := Date_toISOString (clock w (ticks w))).
  set (r' := merged (JObj o) (Page.passwordData form) stamp).
  set (w1 := with_this (set_passwords (JArr (<[i := r']> xs)))
                       (with_ticks (S (ticks w)) w)).
  assert (updatePassword (JStr id) (Page.passwordData form) w = saveData w1)
    as Hrun by apply (updatePassword_first _ _ _ _ _ _ _ Hv Hfirst).
  assert (categories (this w1) = JArr names) as Hcs1
    by (subst w1; now destruct w as [[]]).
  destruct (saveData_vault w1 w (<[i := r']> xs) names)
    as (Hthis & Hiff & Hcases & Hsaved);
    [subst w1; now destruct w as [[]]|apply passwords_set|exact Hcs1|
     subst w1; now destruct w|subst w1; now destruct w|].
  assert (renderable (this (snd (saveData w1))) (<[i := r']> xs) names) as Hr1.
  { rewrite Hthis. split; [apply passwords_set|]. split; [exact Hcs1|].
    split; [|exact Hnames].
    apply Forall_insert; [exact Hshown|].
    now apply merged_form_presentable. }
  assert (Page.password_form_submit form (Some id) w
          = (match fst (saveData w1) with
             | Ok _ => Ok [Success "Password updated successfully"]
             | Throw e => Ok [Failure (error_message e)]
             end, snd (saveData w1))) as Hsubmit.
  { subst id. unfold Page.password_form_submit, try_toast. rewrite Hrun.
    pose proof (rendering_renderable _ _ _ Hr1) as Hrender.
    destruct (saveData w1) as [[[]|e] w2]; [|reflexivity].
    cbn [snd] in Hrender. now rewrite Hrender. }
  subst toasts w'. rewrite Hsubmit. cbn [fst snd]. rewrite Hthis.
  exists (<[i := r']> xs), r'.
  split; [apply passwords_set|].
  split; [exact (lookup_insert_same _ _ _ _ Hi)|].
  split; [apply field_merged; [discriminate|];
          apply passwordData_absent; discriminate|].
  split; [apply field_merged; [discriminate|];
          apply passwordData_absent; discriminate|].
  split; [apply field_merged_stamp|].
  destruct (field_merged_form o form stamp) as (H1 & H2 & H3 & H4 & H5 & H6).
  repeat (split; [assumption|]).
  destruct Hcases as [Hok|Hthrow].
  - rewrite Hok in *. split; [tauto|]. split; [now left|auto].
  - rewrite Hthrow in *. cbn [error_message].
    split; [split; [discriminate|]; intros Hfits; apply Hiff in Hfits;
            discriminate|].
    split; [now right|discriminate].
Qed.

(** X16.  An edit that finds nothing.  Submitted with an id that no record of
    the vault has, the form still reports [Password updated successfully]
    first: the call returns normally without a change, so nothing is
    updated, nothing is added and nothing is written.  On a vault that the
    page can render this is its only toast. *)
Theorem form_edit_of_missing_id_reports_success (form : Page.PasswordForm)
    (c : ascii) (rest : string) (w : World) (xs names : list value) :
  let id := String c rest in
  vault (this w) xs names ->
  Forall (fun p => strict_equal (field p "id") (JStr id) = false) xs ->
  (exists more,
     Page.password_form_submit form (Some id) w
     = (Ok (Success "Password updated successfully" :: more), w))
  /\ (renderable (this w) xs names ->
      Page.password_form_submit form (Some id) w
      = (Ok [Success "Password updated successfully"], w)).
Proof.
  intros id Hv Hnone. apply index_where_None in Hnone.
  subst id. unfold Page.password_form_submit, try_toast.
  rewrite (updatePassword_run _ _ _ _ _ Hv), Hnone. split.
  - pose proof (rendering_reads w) as Hsame.
    destruct (Page.rendering w) as [[[]|e] w'']; cbn [snd] in Hsame; subst w'';
      eexists; reflexivity.
  - intros Hr. now rewrite (rendering_renderable _ _ _ Hr).
Qed.

(** X17.  Adding through the form.  Submitted without an edit id (or with an
    empty one) on a vault that the page can render, the form puts the new
    record first, before the earlier ones in their order; it has the
    values of the form, with ['Other'] in place of an empty category, the
    clock reading in decimal as [id] and the next reading as
    [createdDate].  The form reports the record as saved, and nothing
    else, exactly when the vault it leaves is within the engine's limit on
    arguments, and the store then holds the new vault; otherwise its one
    toast is the error of the save. *)
Theorem form_adds_record_first (form : Page.PasswordForm)
    (editId : option string) (w : World) (xs names : list value) :
  renderable (this w) xs names ->
  editId = None \/ editId = Some EmptyString ->
  let toasts := fst (Page.password_form_submit form editId w) in
  let w' := snd (Page.password_form_submit form editId w) in
  exists r,
    passwords (this w') = JArr (r :: xs)
    /\ categories (this w') = categories (this w)
    /\ field r "id" = JStr (pretty (clock w (ticks w)))
    /\ field r "createdDate" = JStr (Date_toISOString (clock w (S (ticks w))))
    /\ field r "name" = JStr (Page.pwd_name form)
    /\ field r "website" = JStr (Page.pwd_website form)
    /\ field r "username" = JStr (Page.pwd_username form)
    /\ field r "password" = JStr (Page.pwd_password form)
    /\ field r "notes" = JStr (Page.pwd_notes form)
    /\ field r "category"
       = JStr (match Page.pwd_category form with
               | EmptyString => "Other"
               | category => category
               end)
    /\ (toasts = Ok [Success "Password saved successfully"]
        <-> fits (with_vault (r :: xs) names w) = true)
    /\ (toasts = Ok [Success "Password saved successfully"]
        \/ toasts = Ok [Failure None])
    /\ (toasts = Ok [Success "Password saved successfully"] ->
        persisted w').
Proof.
  intros Hr HeditId toasts w'.
  pose proof Hr as (Hps & Hcs & Hshown & Hnames).
  set (r := added (Page.passwordData form) w).
  set (w1 := with_this (set_passwords (JArr (r :: xs)))
                       (with_ticks (S (S (S (ticks w)))) w)).
  assert ((addPassword (Page.passwordData form) ;; ret tt) w = saveData w1)
    as Hrun by (apply (run_AddRecord _ _ _ Hps); discriminate).
  assert (categories (this w1) = JArr names) as Hcs1
    by (subst w1; now destruct w as [[]]).
  destruct (saveData_vault w1 w (r :: xs) names)
    as (Hthis & Hiff & Hcases & Hsaved);
    [subst w1; now destruct w as [[]]|apply passwords_set|exact Hcs1|
     subst w1; now destruct w|subst w1; now destruct w|].
  assert (renderable (this (snd (saveData w1))) (r :: xs) names) as Hr1.
  { rewrite Hthis. split; [apply passwords_set|]. split; [exact Hcs1|].
    split; [|exact Hnames].
    constructor; [apply added_form_presentable|exact Hshown]. }
  assert (Page.password_form_submit form editId w
          = (match fst (saveData w1) with
             | Ok _ => Ok [Success "Password saved successfully"]
             | Throw e => Ok [Failure (error_message e)]
             end, snd (saveData w1))) as Hsubmit.
  { assert (Page.password_form_submit form editId w
            = try_toast (addPassword (Page.passwordData form) ;; ret tt)
                        "Password saved successfully" Page.rendering w) as ->
      by (destruct HeditId as [-> | ->]; reflexivity).
    unfold try_toast. rewrite Hrun.
    pose proof (rendering_renderable _ _ _ Hr1) as Hrender.
    destruct (saveData w1) as [[[]|e] w2]; [|reflexivity].
    cbn [snd] in Hrender. now rewrite Hrender. }
  subst toasts w'. rewrite Hsubmit. cbn [fst snd]. rewrite Hthis.
  exists r.
  split; [apply passwords_set|].
  split; [rewrite Hcs1; now rewrite Hcs|].
  split; [reflexivity|]. split; [reflexivity|]. split; [reflexivity|].
  split; [unfold r, added, new_record, field; simpl;
          now destruct (Page.pwd_website form)|].
  split; [unfold r, added, new_record, field; simpl;
          now destruct (Page.pwd_username form)|].
  split; [reflexivity|].
  split; [unfold r, added, new_record, field; simpl;
          now destruct (Page.pwd_notes form)|].
  split; [unfold r, added, new_record, field; simpl;
          now destruct (Page.pwd_category form)|].
  destruct Hcases as [Hok|Hthrow].
  - rewrite Hok in *. split; [tauto|]. split; [now left|auto].
  - rewrite Hthrow in *. cbn [error_message].
    split; [split; [discriminate|]; intros Hfits; apply Hiff in Hfits;
            discriminate|].
    split; [now right|discriminate].
Qed.

(** ** Categories *)

Lemma existsb_strict_equal (name : string) (names : list value) :
  existsb (strict_equal (JStr name)) names = true <-> JStr name ∈ names.
Proof.
  rewrite existsb_exists. split.
  - intros (c & Hin & Heq). apply strict_equal_JStr_l in Heq. subst c.
    now apply list_elem_of_In.
  - intros Hin. exists (JStr name). split; [now apply list_elem_of_In|].
    apply strict_equal_JStr_refl.
Qed.

(** X18.  Adding a category.  On a category set that is an array,
    [addCategory] leaves the name in the set, the earlier names first in
    their order, and a set without duplicates has none.  A name already
    there changes nothing and writes nothing, and the call returns
    normally: so a second call with the same name returns normally and
    leaves the world exactly as the first did.  With a new name the call
    returns normally exactly when the vault it leaves is within the
    engine's limit on arguments, and the store then holds the new vault;
    otherwise it throws the [RangeError] of the save. *)
Theorem addCategory_adds_once (name : string) (w : World)
    (names : list value) :
  categories (this w) = JArr names ->
  let w' := snd (addCategory name w) in
  exists names',
    categories (this w') = JArr names'
    /\ passwords (this w') = passwords (this w)
    /\ JStr name ∈ names'
    /\ names `prefix_of` names'
    /\ (NoDup names -> NoDup names')
    /\ (JStr name ∈ names -> addCategory name w = (Ok tt, w))
    /\ (JStr name ∉ names ->
        names' = names ++ [JStr name]
        /\ (fst (addCategory name w) = Ok tt
            <-> fits (with_this (set_categories (JArr names')) w) = true)
        /\ (fst (addCategory name w) = Ok tt
            \/ fst (addCategory name w) = Throw RangeError)
        /\ (fst (addCategory name w) = Ok tt -> persisted w'))
    /\ addCategory name w' = (Ok tt, w').
Proof.
  intros Hcs w'. subst w'. rewrite (addCategory_run _ _ _ Hcs).
  destruct (existsb _ names) eqn:Hin.
  - apply existsb_strict_equal in Hin.
    exists names. split; [exact Hcs|].
    split; [reflexivity|]. split; [exact Hin|]. split; [reflexivity|].
    split; [auto|]. split; [auto|]. split; [intros Hnot; now destruct Hnot|].
    rewrite (addCategory_run _ _ _ Hcs).
    apply existsb_strict_equal in Hin. now rewrite Hin.
  - assert (JStr name ∉ names) as Hnot.
    { intros Hin'. apply existsb_strict_equal in Hin'. congruence. }
    set (w1 := with_this (set_categories (JArr (names ++ [JStr name]))) w).
    exists (names ++ [JStr name]). rewrite saveData_this.
    split; [apply categories_set|].
    split; [now destruct w as [[]]|].
    split; [apply elem_of_app; right; apply list_elem_of_singleton; reflexivity|].
    split; [now apply prefix_app_r|].
    split.
    { intros Hnd. apply NoDup_app. split; [exact Hnd|]. split.
      - intros c Hc Hc'. apply list_elem_of_singleton in Hc'. now subst c.
      - apply NoDup_singleton. }
    split; [intros Hin'; now destruct Hnot|].
    split.
    { intros _. split; [reflexivity|]. split; [apply saveData_Ok|].
      split; [apply saveData_cases|apply saveData_returned_persisted]. }
    rewrite (addCategory_run _ _ (names ++ [JStr name])).
    + assert (existsb (strict_equal (JStr name)) (names ++ [JStr name]) = true)
        as -> ; [|reflexivity].
      apply existsb_strict_equal, elem_of_app. right.
      now apply list_elem_of_singleton.
    + rewrite saveData_this. apply categories_set.
Qed.

Lemma without_absent (name : string) (names : list value) :
  JStr name ∉ names -> without name names = names.
Proof.
  induction names as [|c names IH]; intros Hnot; [reflexivity|].
  apply not_elem_of_cons in Hnot as [Hc Hrest].
  unfold without in *. simpl.
  destruct (strict_equal c (JStr name)) eqn:E.
  - apply strict_equal_JStr in E. congruence.
  - simpl. now rewrite IH.
Qed.

Lemma without_added (name : string) (names : list value) :
  JStr name ∉ names -> without name (names ++ [JStr name]) = names.
Proof.
  intros Hnot. unfold without. rewrite List.filter_app. cbn [List.filter].
  rewrite strict_equal_JStr_refl. cbn [negb]. rewrite app_nil_r.
  now apply without_absent.
Qed.

Lemma moved_other (name : string) (p : value) :
  field p "category" <> JStr name -> moved name p = p.
Proof.
  destruct p as [| | | | | |o]; try reflexivity. intros Hc. simpl.
  destruct (strict_equal _ _) eqn:E; [|reflexivity].
  apply strict_equal_JStr in E. now destruct Hc.
Qed.

Lemma moved_others (name : string) (xs : list value) :
  Forall (fun p => field p "category" <> JStr name) xs ->
  map (moved name) xs = xs.
Proof.
  induction 1 as [|p xs Hp _ IH]; [reflexivity|].
  simpl. now rewrite moved_other, IH.
Qed.

Lemma this_set_same (w : World) (ps cs : value) :
  passwords (this w) = ps -> categories (this w) = cs ->
  this (with_this (set_categories cs) (with_this (set_passwords ps) w))
  = this w.
Proof. destruct w as [[]]. simpl. now intros -> ->. Qed.

Lemma with_vault_same (w : World) (xs names : list value) :
  passwords (this w) = JArr xs -> categories (this w) = JArr names ->
  this (with_vault xs names w) = this w.
Proof. destruct w as [[]]. simpl. now intros -> ->. Qed.

(** [deleteCategory] on a vault of objects: what it leaves in memory, and
    its outcome. *)
Lemma deleteCategory_outcome (name : string) (w : World)
    (xs names : list value) :
  vault (this w) xs names ->
  this (snd (deleteCategory name w))
  = this (with_vault (map (moved name) xs) (without name names) w)
  /\ (fst (deleteCategory name w) = Ok tt
      <-> fits (with_vault (map (moved name) xs) (without name names) w)
          = true)
  /\ (fst (deleteCategory name w) = Ok tt
      \/ fst (deleteCategory name w) = Throw RangeError).
Proof.
  intros Hv. rewrite (deleteCategory_vault _ _ _ _ Hv).
  split; [apply saveData_this|]. split; [apply saveData_Ok|apply saveData_cases].
Qed.

(** X19.  A category added and deleted again.  On a vault of objects in
    which the name is neither in the category set nor the category of a
    record, [addCategory] followed by [deleteCategory] leaves the records
    and the category set in memory as they were before the two calls.
    Each call returns normally exactly when the vault it leaves is within
    the engine's limit on arguments, and otherwise throws the [RangeError]
    of the save. *)
Theorem addCategory_then_deleteCategory (name : string) (w : World)
    (xs names : list value) :
  vault (this w) xs names ->
  JStr name ∉ names ->
  Forall (fun p => field p "category" <> JStr name) xs ->
  let w1 := snd (addCategory name w) in
  let w2 := snd (deleteCategory name w1) in
  passwords (this w2) = JArr xs
  /\ categories (this w2) = JArr names
  /\ this w2 = this w
  /\ (fst (addCategory name w) = Ok tt
      <-> fits (with_vault xs (names ++ [JStr name]) w) = true)
  /\ (fst (addCategory name w) = Ok tt
      \/ fst (addCategory name w) = Throw RangeError)
  /\ (fst (deleteCategory name w1) = Ok tt
      <-> fits (with_vault xs names w1) = true)
  /\ (fst (deleteCategory name w1) = Ok tt
      \/ fst (deleteCategory name w1) = Throw RangeError).
Proof.
  intros Hv Hnot Hothers w1 w2. pose proof Hv as (Hps & Hcs & Hobj).
  assert (addCategory name w
          = saveData (with_this (set_categories (JArr (names ++ [JStr name]))) w))
    as Hrun1.
  { rewrite (addCategory_run _ _ _ Hcs).
    assert (existsb (strict_equal (JStr name)) names = false) as ->;
      [|reflexivity].
    destruct (existsb _ names) eqn:E; [|reflexivity].
    apply existsb_strict_equal in E. now destruct Hnot. }
  set (w0 := with_this (set_categories (JArr (names ++ [JStr name]))) w)
    in Hrun1.
  assert (vault (this w1) xs (names ++ [JStr name])) as Hv1.
  { subst w1. rewrite Hrun1, saveData_this. subst w0.
    destruct w as [[]]. simpl in *. now repeat split. }
  destruct (deleteCategory_outcome name w1 _ _ Hv1) as (Hthis2 & Hiff2 & Hcases2).
  rewrite (moved_others _ _ Hothers), (without_added _ _ Hnot) in Hthis2, Hiff2.
  assert (this w2 = this w) as Hsame.
  { subst w2. rewrite Hthis2. subst w1. rewrite Hrun1.
    destruct (saveData w0) as [res w'] eqn:Hsave.
    pose proof (saveData_this w0) as Hthis0. rewrite Hsave in Hthis0.
    cbn [snd] in *. subst w0.
    destruct w as [[mp ps cs st lk] store en dr ck tk tm nt ls sc].
    destruct w' as [[mp' ps' cs' st' lk'] store' en' dr' ck' tk' tm' nt' ls' sc'].
    simpl in *. injection Hthis0 as -> -> _ -> ->. now subst ps cs. }
  rewrite Hsame.
  split; [exact Hps|]. split; [exact Hcs|]. split; [reflexivity|].
  split.
  { rewrite Hrun1, <- (fits_vault w0 w xs (names ++ [JStr name]));
      [apply saveData_Ok|subst w0; now destruct w as [[]]..]. }
  split; [rewrite Hrun1; apply saveData_cases|].
  split; [exact Hiff2|exact Hcases2].
Qed.

Lemma assoc_set_twice (k : string) (v : value) (o : list (string * value)) :
  assoc_set k v (assoc_set k v o) = assoc_set k v o.
Proof.
  induction o as [|[k0 v0] o IH]; simpl.
  - now rewrite String.eqb_refl.
  - destruct (String.eqb k k0) eqn:E; simpl.
    + now rewrite String.eqb_refl.
    + now rewrite E, IH.
Qed.

Lemma moved_twice (name : string) (p : value) :
  moved name (moved name p) = moved name p.
Proof.
  destruct p as [| | | | | |o]; try reflexivity.
  unfold moved at 2 3.
  destruct (strict_equal _ (JStr name)) eqn:E; unfold moved;
    [|now rewrite E].
  rewrite assoc_get_set, String.eqb_refl.
  destruct (strict_equal (default JUndefined (Some (JStr "Other"))) (JStr name));
    [|reflexivity].
  now rewrite assoc_set_twice.
Qed.

Lemma without_twice (name : string) (names : list value) :
  without name (without name names) = without name names.
Proof. apply without_absent, not_in_without. Qed.

(** X20.  Deleting a category twice.  On a vault of objects [deleteCategory]
    leaves every record of another category as it is, at its place, and
    keeps every other name of the set, in order; a second call with the
    same name leaves the manager as the first call left it.  Each call
    returns normally exactly when the vault it leaves is within the
    engine's limit on arguments, and otherwise throws the [RangeError] of
    the save. *)
Theorem deleteCategory_touches_its_records_only (name : string) (w : World)
    (xs names : list value) :
  vault (this w) xs names ->
  let w' := snd (deleteCategory name w) in
  exists xs',
    passwords (this w') = JArr xs'
    /\ length xs' = length xs
    /\ (forall i p, xs !! i = Some p -> field p "category" <> JStr name ->
                    xs' !! i = Some p)
    /\ categories (this w') = JArr (without name names)
    /\ (forall c, c ∈ names -> c <> JStr name -> c ∈ without name names)
    /\ sublist (without name names) names
    /\ (fst (deleteCategory name w) = Ok tt
        <-> fits (with_vault xs' (without name names) w) = true)
    /\ (fst (deleteCategory name w) = Ok tt
        \/ fst (deleteCategory name w) = Throw RangeError)
    /\ this (snd (deleteCategory name w')) = this w'
    /\ (fst (deleteCategory name w') = Ok tt
        <-> fits (with_vault xs' (without name names) w') = true)
    /\ (fst (deleteCategory name w') = Ok tt
        \/ fst (deleteCategory name w') = Throw RangeError).
Proof.
  intros Hv w'. pose proof Hv as (Hps & Hcs & Hobj).
  destruct (deleteCategory_outcome name w _ _ Hv) as (Hthis & Hiff & Hcases).
  fold w' in Hthis.
  assert (vault (this w') (map (moved name) xs) (without name names)) as Hv'.
  { rewrite Hthis. destruct w as [[]]. repeat split. now apply moved_objects. }
  destruct (deleteCategory_outcome name w' _ _ Hv') as (Hthis' & Hiff' & Hcases').
  rewrite map_map, (map_ext _ (moved name) (moved_twice name)), without_twice
    in Hthis', Hiff'.
  exists (map (moved name) xs).
  split; [apply Hv'|]. split; [apply length_map|]. split.
  { intros i p Hi Hc. rewrite list_lookup_fmap, Hi. simpl.
    now rewrite moved_other. }
  split; [apply Hv'|]. split.
  { intros c Hc Hne. unfold without. apply elem_of_List_filter.
    split; [exact Hc|]. apply negb_true_iff.
    destruct (strict_equal c (JStr name)) eqn:E; [|reflexivity].
    apply strict_equal_JStr in E. now destruct Hne. }
  split; [apply sublist_List_filter|].
  split; [exact Hiff|]. split; [exact Hcases|].
  split; [|split; [exact Hiff'|exact Hcases']].
  rewrite Hthis'. destruct Hv' as (Hps' & Hcs' & _).
  now apply with_vault_same.
Qed.

Lemma NoDup_List_filter {A : Type} (g : A -> bool) (xs : list A) :
  NoDup xs -> NoDup (List.filter g xs).
Proof.
  induction 1 as [|x xs Hx _ IH]; simpl; [constructor|].
  destruct (g x); [|exact IH].
  constructor; [|exact IH].
  intros Hin. apply elem_of_List_filter in Hin as [Hin _]. now apply Hx.
Qed.

(** X21.  The category set stays a set.  From a vault of objects whose category
    names are pairwise distinct, every record and category operation, with
    any arguments, leaves the names pairwise distinct. *)
Theorem categories_stay_distinct (op : operation) (w : World)
    (xs names : list value) :
  vault (this w) xs names ->
  NoDup names ->
  exists names',
    categories (this (snd (run op w))) = JArr names' /\ NoDup names'.
Proof.
  intros Hv Hnd. pose proof Hv as (Hps & Hcs & Hobj).
  destruct op as [fields|id updates|id|name|name].
  - exists names. split; [|exact Hnd].
    assert (fields = JUndefined \/ fields = JNull
            \/ (fields <> JUndefined /\ fields <> JNull))
      as [->|[->|[Hu Hn]]]
      by (destruct fields; auto; right; right; split; discriminate);
      [exact Hcs..|].
    rewrite (run_AddRecord _ _ _ Hps Hu Hn).
    rewrite saveData_this. now destruct w as [[]].
  - exists names. split; [|exact Hnd]. unfold run.
    rewrite (updatePassword_run _ _ _ _ _ Hv).
    destruct (index_where _ xs); [|exact Hcs].
    rewrite saveData_this. now destruct w as [[]].
  - exists names. split; [|exact Hnd]. unfold run.
    rewrite (deletePassword_run _ _ _ _ Hv), saveData_this.
    now destruct w as [[]].
  - unfold run. rewrite (addCategory_run _ _ _ Hcs).
    destruct (existsb _ names) eqn:Hin; [now exists names|].
    exists (names ++ [JStr name]). rewrite saveData_this.
    split; [apply categories_set|].
    apply NoDup_app. split; [exact Hnd|]. split; [|apply NoDup_singleton].
    intros c Hc Hc'. apply list_elem_of_singleton in Hc'. subst c.
    apply existsb_strict_equal in Hc. congruence.
  - exists (without name names). unfold run.
    rewrite (deleteCategory_run _ _ _ _ Hv), saveData_this.
    split; [apply categories_set|].
    unfold without. now apply NoDup_List_filter.
Qed.

(** ** Fresh salts and nonces *)

Lemma sealed_inj (P P' : value) (W W' : string) (salt salt' iv iv' : list byte) :
  length salt = 16%nat -> length salt' = 16%nat ->
  length iv = 12%nat -> length iv' = 12%nat ->
  sealed P W salt iv = sealed P' W' salt' iv' ->
  salt = salt' /\ iv = iv'.
Proof.
  intros Hs Hs' Hi Hi' Heq. unfold sealed in Heq.
  apply btoa_bytes_inj in Heq.
  apply app_inj_1 in Heq as [-> Heq]; [|congruence].
  apply app_inj_1 in Heq as [-> _]; [|congruence].
  now split.
Qed.

(** X22.  Freshness.  The blob [encrypt] returns determines the salt and the
    nonce it drew: two calls that return, on any payloads and passphrases,
    return different blobs whenever the random source gave them different
    salts or different nonces.  In particular a second [encrypt] right
    after a first differs from it as soon as the next 28 random bytes are
    not the 28 before. *)
Theorem encrypt_blobs_differ_with_salt_or_nonce (P P' : value)
    (W W' : string) (w w' : World) (blob blob' : string) :
  salt_at w <> salt_at w' \/ iv_at w <> iv_at w' ->
  fst (CryptoManager.encrypt P W w) = Ok blob ->
  fst (CryptoManager.encrypt P' W' w') = Ok blob' ->
  blob <> blob'.
Proof.
  intros Hdiff. rewrite !encrypt_run. cbn [fst].
  destruct (within_limit P W _ _); [|discriminate].
  destruct (within_limit P' W' _ _); [|discriminate].
  intros [= <-] [= <-] Heq.
  apply sealed_inj in Heq as [Hs Hi];
    try apply salt_at_length; try apply iv_at_length.
  destruct Hdiff as [Hd|Hd]; now apply Hd.
Qed.

(** ** The strength meter *)

Lemma length_append (a b : string) :
  String.length (a +:+ b) = (String.length a + String.length b)%nat.
Proof.
  induction a as [|c a IH]; [reflexivity|].
  rewrite append_String. simpl. now rewrite IH.
Qed.

Lemma test_append (class : ascii -> bool) (a b : string) :
  test class (a +:+ b) = test class a || test class b.
Proof.
  induction a as [|c a IH]; [reflexivity|].
  rewrite append_String. simpl. now rewrite IH, orb_assoc.
Qed.

Lemma point_length (n a b : nat) :
  (a <= b)%nat ->
  ((if (n <=? a)%nat then 1 else 0) <= (if (n <=? b)%nat then 1 else 0))%nat.
Proof.
  intros Hab.
  destruct (Nat.leb_spec n a), (Nat.leb_spec n b); lia.
Qed.

Lemma point_bool (x y : bool) :
  (x = true -> y = true) ->
  ((if x then 1 else 0) <= (if y then 1 else 0))%nat.
Proof. destruct x, y; intros Hxy; try lia; now specialize (Hxy eq_refl). Qed.

Lemma strength_le (s s' : string) :
  (String.length s <= String.length s')%nat ->
  (forall class, test class s = true -> test class s' = true) ->
  (strength s <= strength s')%nat.
Proof.
  intros Hlen Htest. unfold strength.
  pose proof (point_length 8 _ _ Hlen).
  pose proof (point_length 12 _ _ Hlen).
  pose proof (point_length 16 _ _ Hlen).
  pose proof (point_bool (test zero_nine s) (test zero_nine s') (Htest _)).
  pose proof (point_bool (test not_alphanumeric s) (test not_alphanumeric s')
                (Htest _)).
  assert ((if test a_z s && test A_Z s then 1 else 0)
          <= (if test a_z s' && test A_Z s' then 1 else 0))%nat.
  { apply point_bool. rewrite !andb_true_iff. intros [Hl Hu].
    split; now apply Htest. }
  lia.
Qed.

(** X23.  Longer is never weaker.  Adding characters to a password, before it or
    after it, never lowers the strength counted, so never lowers the level
    shown. *)
Theorem strength_never_drops_when_extended (s t : string) :
  (strength s <= strength (s +:+ t))%nat
  /\ (strength s <= strength (t +:+ s))%nat
  /\ (Nat.min (strength s) 5 <= Nat.min (strength (t +:+ s +:+ t)) 5)%nat.
Proof.
  assert (strength s <= strength (s +:+ t))%nat as H1.
  { apply strength_le.
    - rewrite length_append. lia.
    - intros class Hs. rewrite test_append, Hs. reflexivity. }
  assert (forall u, strength u <= strength (t +:+ u))%nat as H2.
  { intros u. apply strength_le.
    - rewrite length_append. lia.
    - intros class Hs. rewrite test_append, Hs. apply orb_true_r. }
  split; [exact H1|]. split; [apply H2|].
  specialize (H2 (s +:+ t)%string). lia.
Qed.

Lemma strength_bounds (password : string) :
  (strength password <= 6)%nat
  /\ (5 <= strength password -> 12 <= String.length password)%nat
  /\ (String.length password < 8 -> strength password <= 3)%nat.
Proof.
  unfold strength.
  destruct (Nat.leb_spec 8 (String.length password)),
           (Nat.leb_spec 12 (String.length password)),
           (Nat.leb_spec 16 (String.length password)),
           (test a_z password && test A_Z password),
           (test zero_nine password), (test not_alphanumeric password);
    repeat split; lia.
Qed.

(** X24.  The levels.  [updatePasswordStrength] never throws: the index into the
    six levels is capped at the last.  For a password that is not empty the
    text shown is ['Very Strong'] exactly when the counter reached 5 or 6,
    which takes 12 characters or more; a password of fewer than 8
    characters is rated ['Good'] at best. *)
Theorem strength_meter_levels (password : string) (meter : StrengthMeter) :
  exists meter',
    updatePasswordStrength password meter = Ok meter'
    /\ (password <> EmptyString ->
        (text_textContent meter' = "Very Strong"%string
         <-> (5 <= strength password)%nat)
        /\ (text_textContent meter' = "Very Strong"%string ->
            (12 <= String.length password)%nat)
        /\ ((String.length password < 8)%nat ->
            text_textContent meter'
            ∈ ["Very Weak"; "Weak"; "Fair"; "Good"]%string)).
Proof.
  destruct (strength_bounds password) as (Hmax & Hstrong & Hshort).
  destruct password as [|c rest].
  { eexists. split; [reflexivity|]. now intros []. }
  remember (String c rest) as password eqn:Hp.
  assert (updatePasswordStrength password meter
          = match levels !! Nat.min (strength password) 5 with
            | Some level =>
                Ok (mkStrengthMeter
                      ("h-2 rounded-full " +:+ level_class level +:+ " "
                       +:+ level_width level +:+ " transition-all")%string
                      (level_text level)
                      ("text-sm font-medium "
                       +:+ replace "bg-" "text-" (level_class level))%string)
            | None => Throw TypeError
            end) as -> by (subst password; reflexivity).
  clear Hp.
  assert (strength password = 0 \/ strength password = 1
          \/ strength password = 2 \/ strength password = 3
          \/ strength password = 4 \/ 5 <= strength password)%nat
    as Hcases by lia.
  destruct Hcases as [H|[H|[H|[H|[H|H]]]]].
  6: { rewrite (Nat.min_r _ 5 H). eexists. split; [reflexivity|]. intros _.
       simpl. split; [tauto|]. split; [auto|]. intros Hlt. lia. }
  all: rewrite H; eexists; (split; [reflexivity|]); intros _; simpl;
       (split; [split; [discriminate|lia]|]);
       (split; [discriminate|]); intros Hlt;
       first [exfalso; lia | apply list_elem_of_In; simpl; auto 6].
Qed.

(** ** Escaping *)

Lemma occurrences_append (c : ascii) (a b : string) :
  occurrences c (a +:+ b) = (occurrences c a + occurrences c b)%nat.
Proof.
  induction a as [|c' a IH]; [reflexivity|].
  rewrite append_String. simpl. rewrite IH. lia.
Qed.

Lemma by_bits (P : ascii -> Prop) :
  (forall b0 b1 b2 b3 b4 b5 b6 b7, P (Ascii b0 b1 b2 b3 b4 b5 b6 b7)) ->
  forall c, P c.
Proof. intros H []. apply H. Qed.

(** X25.  What [escapeHtml] does and does not escape.  Its result contains no
    [<] and no [>]; a text without ampersand, no-break space and angle
    brackets comes back unchanged; and the double quote and the apostrophe
    are never escaped: the result has as many of each as the text. *)
Theorem escapeHtml_escapes_brackets_not_quotes (text : string) :
  occurrences "<" (escapeHtml text) = 0%nat
  /\ occurrences ">" (escapeHtml text) = 0%nat
  /\ occurrences Model.dquote (escapeHtml text)
     = occurrences Model.dquote text
  /\ occurrences "'" (escapeHtml text) = occurrences "'" text
  /\ (occurrences "&" text = 0%nat -> occurrences nbsp text = 0%nat ->
      occurrences "<" text = 0%nat -> occurrences ">" text = 0%nat ->
      escapeHtml text = text).
Proof.
  induction text as [|c text (IH1 & IH2 & IH3 & IH4 & IH5)];
    [now repeat split|].
  cbn [escapeHtml]. rewrite !occurrences_append, IH1, IH2, IH3, IH4.
  revert c. apply by_bits. intros b0 b1 b2 b3 b4 b5 b6 b7.
  repeat split;
    try (destruct b0, b1, b2, b3, b4, b5, b6, b7; reflexivity).
  destruct b0, b1, b2, b3, b4, b5, b6, b7; simpl;
    intros H1 H2 H3 H4;
    try discriminate H1; try discriminate H2;
    try discriminate H3; try discriminate H4;
    match goal with
    | |- context [escape_text_char ?c] =>
        let s := eval vm_compute in (escape_text_char c) in
        change (escape_text_char c) with s
    end;
    rewrite append_String; f_equal; now apply IH5.
Qed.

(** ** The setup form *)

(** X26.  The setup form.  When the two entries differ the handler reports
    [Passwords do not match] and never calls the manager; when they agree
    but are shorter than eight code units it reports the manager's error
    message; in both cases the world is as before.  Otherwise, on a vault
    that the page can render and whose encryption is within the engine's
    limit on arguments, it reports success and the session is open; on a
    vault past that limit it reports the error of the save, and the
    manager is left with the verifier stored, the master password set and
    the lock flag cleared, on the screen it was on and with no vault
    written. *)
Theorem setup_form_outcomes (password confirm : string) (w : World) :
  (password <> confirm ->
   Page.setup_form_submit password confirm w
   = (Ok [Failure (Some "Passwords do not match"%string)], w))
  /\ (password = confirm -> (String.length password < 8)%nat ->
      Page.setup_form_submit password confirm w
      = (Ok [Failure
               (Some "Master password must be at least 8 characters"%string)],
         w))
  /\ (password = confirm -> (8 <= String.length password)%nat ->
      forall xs names,
        renderable (this w) xs names ->
        within_limit (payload (this w)) password (salt_at w) (iv_at w)
          = true ->
        exists w',
          Page.setup_form_submit password confirm w
          = (Ok [Success "Master password created successfully"], w')
          /\ masterPassword (this w') = Some password
          /\ isLocked (this w') = false
          /\ screen w' = MainApp)
  /\ (password = confirm -> (8 <= String.length password)%nat ->
      within_limit (payload (this w)) password (salt_at w) (iv_at w)
        = false ->
      exists w',
        Page.setup_form_submit password confirm w
        = (Ok [Failure None], w')
        /\ masterPassword (this w') = Some password
        /\ isLocked (this w') = false
        /\ screen w' = screen w
        /\ sessionTimeout (this w') = sessionTimeout (this w)
        /\ localStorage w' !! "masterPasswordHash"%string
           = Some (CryptoManager.hashPassword password)
        /\ localStorage w' !! "encryptedData"%string
           = localStorage w !! "encryptedData"%string).
Proof.
  unfold Page.setup_form_submit. split; [|split; [|split]].
  - intros Hne. now rewrite bool_decide_eq_false_2.
  - intros Heq Hlt. rewrite bool_decide_eq_true_2 by exact Heq.
    unfold try_toast, setupMasterPassword.
    apply Nat.ltb_lt in Hlt. now rewrite Hlt.
  - intros Heq Hge xs names Hr Hfits.
    rewrite bool_decide_eq_true_2 by exact Heq.
    unfold try_toast.
    rewrite (setupMasterPassword_returns _ _ Hge
               (setupMasterPassword_Ok _ _ _ _ Hge Hr Hfits)).
    eexists. split; [reflexivity|]. now repeat split.
  - intros Heq Hge Hfits. rewrite bool_decide_eq_true_2 by exact Heq.
    unfold try_toast. rewrite (setupMasterPassword_steps _ _ Hge).
    unfold bind at 1. rewrite saveData_run, fits_entering, Hfits.
    eexists. split; [reflexivity|].
    destruct w as [[mp ps cs st lk] store en dr ck tk tm nt ls sc]. simpl.
    repeat split; [apply lookup_insert_eq|].
    now rewrite lookup_insert_ne by discriminate.
Qed.

(** ** Reloading, on every store *)

(** X27.  [loadData] at its edges.  Whatever the store holds and whatever the
    outcome, [loadData] writes nothing to the store and changes nothing of
    the session; it can only replace the records and the category set.
    With no blob in the store, or an empty one, it returns normally and
    changes nothing; when [decrypt] throws, it throws that error and
    changes nothing; when the blob decrypts to [null], it throws a
    [TypeError] and changes nothing. *)
Theorem loadData_edges (w : World) :
  let w' := snd (loadData w) in
  localStorage w' = localStorage w
  /\ masterPassword (this w') = masterPassword (this w)
  /\ isLocked (this w') = isLocked (this w)
  /\ sessionTimeout (this w') = sessionTimeout (this w)
  /\ timers w' = timers w
  /\ screen w' = screen w
  /\ drawn w' = drawn w
  /\ ticks w' = ticks w
  /\ (localStorage w !! "encryptedData"%string = None
      \/ localStorage w !! "encryptedData"%string = Some EmptyString ->
      loadData w = (Ok tt, w))
  /\ (forall blob e,
        localStorage w !! "encryptedData"%string = Some blob ->
        blob <> EmptyString ->
        CryptoManager.decrypt blob (USVString (masterPassword (this w)))
          = Throw e ->
        loadData w = (Throw e, w))
  /\ (forall blob,
        localStorage w !! "encryptedData"%string = Some blob ->
        blob <> EmptyString ->
        CryptoManager.decrypt blob (USVString (masterPassword (this w)))
          = Ok JNull ->
        loadData w = (Throw TypeError, w)).
Proof.
  assert (keeps (fun w => (localStorage w, session w, drawn w, ticks w))
                loadData) as Hkeeps
    by (unfold loadData, getItem; repeat keeps_step).
  specialize (Hkeeps w). simpl in Hkeeps.
  injection Hkeeps as Hstore Hmp Hlk Hst Htm _ _ Hsc _ Hdr Htk.
  repeat (split; [assumption|]).
  split; [apply loadData_absent|]. split; [apply loadData_throws|].
  intros blob Hblob Hne Hdec. unfold loadData.
  erewrite bind_run; [|unfold getItem, gets; rewrite Hblob; reflexivity].
  destruct blob as [|c s]; [congruence|].
  unfold bind at 1, gets at 1, bind at 1, lift at 1. now rewrite Hdec.
Qed.

(** ** Searching *)

Lemma lower_char_twice (c : ascii) : lower_char (lower_char c) = lower_char c.
Proof.
  revert c. apply by_bits. intros b0 b1 b2 b3 b4 b5 b6 b7.
  destruct b0, b1, b2, b3, b4, b5, b6, b7; reflexivity.
Qed.

Lemma toLowerCase_twice (s : string) :
  toLowerCase (toLowerCase s) = toLowerCase s.
Proof.
  induction s as [|c s IH]; [reflexivity|].
  simpl. now rewrite lower_char_twice, IH.
Qed.

(** X28.  The case of the query does not matter.  For every state of the
    manager, every query string and every category filter,
    [searchPasswords] gives the same outcome for the query and for the
    query in lower case: the same records, or the same error. *)
Theorem search_ignores_case_of_query (q : string) (category : value)
    (w : World) :
  searchPasswords (JStr (toLowerCase q)) category w
  = searchPasswords (JStr q) category w.
Proof.
  unfold searchPasswords.
  assert (truthy (JStr (toLowerCase q)) = truthy (JStr q)) as ->
    by now destruct q.
  cbn [call_toLowerCase]. now rewrite toLowerCase_twice.
Qed.


(** ** Coming back to the page *)

Lemma hashPassword_not_empty (password : string) :
  SHA256 (TextEncoder_encode password) <> [] ->
  CryptoManager.hashPassword password <> EmptyString.
Proof.
  intros Hdigest Hempty. apply Hdigest.
  apply btoa_bytes_inj. exact Hempty.
Qed.

(** X29.  The screen on load.  After a setup with a master password of
    eight code units or more whose digest is not empty (a SHA-256 digest
    has 32 bytes), any record and category operations and a lock, [init]
    shows the login screen and changes nothing else; on a store without a
    verifier, or with an empty one, it shows the setup screen and changes
    nothing else. *)
Theorem init_shows_login_after_setup (password : string)
    (ops : list operation) (w : World) :
  (8 <= String.length password)%nat ->
  SHA256 (TextEncoder_encode password) <> [] ->
  let later :=
    snd (lock (after (map Operation ops)
                     (snd (setupMasterPassword password w)))) in
  init later = (Ok tt, with_screen LoginScreen later)
  /\ forall fresh,
       localStorage fresh !! "masterPasswordHash"%string = None
       \/ localStorage fresh !! "masterPasswordHash"%string
          = Some EmptyString ->
       init fresh = (Ok tt, with_screen SetupScreen fresh).
Proof.
  intros Hlen Hdigest later. split.
  - assert (localStorage later !! "masterPasswordHash"%string
            = Some (CryptoManager.hashPassword password)) as Hstored.
    { subst later. rewrite lock_run. cbn [snd localStorage].
      pose proof (after_operations_session ops
                    (snd (setupMasterPassword password w))) as Hs.
      apply (f_equal session_verifier) in Hs. cbn [session session_verifier] in Hs.
      rewrite Hs. now apply setupMasterPassword_verifier. }
    unfold init, bind, getItem, gets. rewrite Hstored.
    pose proof (hashPassword_not_empty password Hdigest) as Hne.
    destruct (CryptoManager.hashPassword password); [congruence|reflexivity].
  - intros fresh [Hnone|Hempty]; unfold init, bind, getItem, gets.
    + now rewrite Hnone.
    + now rewrite Hempty.
Qed.
End properties.

(** * The executable platform is ideal *)

Lemma byte_val_of_Z (z : Z) : byte_val (byte_of_Z z) = z mod 256.
Proof.
  unfold byte_val, byte_of_Z.
  assert (0 <= z mod 256 < 256) as Hz by (apply Z.mod_pos_bound; lia).
  destruct (Byte.of_N (Z.to_N (z mod 256))) as [b|] eqn:Hb.
  - apply Byte.to_of_N in Hb. simpl. rewrite Hb. lia.
  - exfalso. apply Byte.of_N_None_iff in Hb. lia.
Qed.

Lemma bytes_eqb_eq (a b : list byte) : Model.bytes_eqb a b = true -> a = b.
Proof.
  unfold Model.bytes_eqb. revert b.
  induction a as [|x a IH]; intros [|y b]; simpl; try discriminate;
    [reflexivity|].
  intros [Hlen [Hxy Hrest]%andb_true_iff]%andb_true_iff.
  apply Byte.byte_dec_bl in Hxy. subst y. f_equal. apply IH.
  now rewrite Hlen, Hrest.
Qed.

Lemma unframe_inv (bs content rest : list byte) :
  Model.unframe bs = Some (content, rest) ->
  bs = Model.frame content ++ rest.
Proof.
  assert (forall n bs content rest,
             (length bs <= n)%nat ->
             Model.unframe bs = Some (content, rest) ->
             bs = Model.frame content ++ rest) as Hall;
    [|now apply (Hall (length bs))].
  clear. induction n as [|n IH]; intros [|mark bs] content rest Hlen;
    simpl in *; try discriminate; try lia.
  destruct (Byte.eqb mark x00) eqn:H0.
  { apply Byte.byte_dec_bl in H0. subst mark. now intros [= <- <-]. }
  destruct (Byte.eqb mark x01) eqn:H1; [|discriminate].
  apply Byte.byte_dec_bl in H1. subst mark.
  destruct bs as [|b bs]; [discriminate|].
  destruct (Model.unframe bs) as [[content' rest']|] eqn:Hrec; [|discriminate].
  intros [= <- <-]. simpl in Hlen.
  now rewrite (IH bs content' rest') at 1 by (lia || assumption).
Qed.

Lemma sum_app (a b : list byte) :
  fold_right (fun b sum => byte_val b + sum) 0 (a ++ b)
  = fold_right (fun b sum => byte_val b + sum) 0 a
    + fold_right (fun b sum => byte_val b + sum) 0 b.
Proof. induction a as [|x a IH]; simpl; lia. Qed.

(** The checksum tells a change of one byte. *)
Lemma checksum_changed (body body' : list byte) :
  one_changed body body' -> Model.checksum body <> Model.checksum body'.
Proof.
  intros (pre & x & y & post & -> & -> & Hxy) Hsame.
  apply (f_equal byte_val) in Hsame. unfold Model.checksum in Hsame.
  rewrite !byte_val_of_Z, !sum_app in Hsame. simpl in Hsame.
  apply Hxy. rewrite <- (byte_of_Z_val x), <- (byte_of_Z_val y). f_equal.
  pose proof (byte_val_bounds x). pose proof (byte_val_bounds y).
  revert Hsame. Z.div_mod_to_equations. lia.
Qed.

(** What a text that opens is made of. *)
Lemma unseal_parts (key iv sealed data : list byte) :
  Model.unseal key iv sealed = Some data ->
  exists body sum,
    sealed = body ++ [sum] /\ sum = Model.checksum body
    /\ body = Model.frame key ++ Model.frame iv ++ data.
Proof.
  unfold Model.unseal. cbv zeta.
  set (body := take (length sealed - 1) sealed).
  destruct (drop (length sealed - 1) sealed) as [|sum [|]] eqn:Hlast;
    try discriminate.
  destruct (Model.unframe body) as [[k rest]|] eqn:Hk; [|discriminate].
  destruct (Model.unframe rest) as [[n data']|] eqn:Hn; [|discriminate].
  destruct (Byte.eqb sum (Model.checksum body)) eqn:Hsum; [|discriminate].
  destruct (Model.bytes_eqb k key) eqn:Hkey; [|discriminate].
  destruct (Model.bytes_eqb n iv) eqn:Hiv; [|discriminate].
  simpl. intros [= <-].
  apply Byte.byte_dec_bl in Hsum. apply bytes_eqb_eq in Hkey, Hiv.
  subst k n. apply unframe_inv in Hk, Hn. subst rest.
  exists body, sum. split; [|split; assumption].
  rewrite <- Hlast. symmetry. apply take_drop.
Qed.

Lemma unseal_only_sealed (key iv sealed data : list byte) :
  Model.unseal key iv sealed = Some data -> sealed = Model.seal key iv data.
Proof.
  intros (body & sum & -> & -> & Hbody)%unseal_parts.
  unfold Model.seal. cbv zeta. now rewrite <- Hbody.
Qed.

Lemma seal_apart (k k' iv iv' data data' : list byte) :
  Model.seal k iv data = Model.seal k' iv' data' -> k = k' /\ iv = iv'.
Proof.
  unfold Model.seal. cbv zeta. intros [Hbody _]%app_inj_tail.
  apply (f_equal Model.unframe) in Hbody. rewrite !unframe_frame in Hbody.
  injection Hbody as -> Hrest.
  apply (f_equal Model.unframe) in Hrest. rewrite !unframe_frame in Hrest.
  now injection Hrest as -> _.
Qed.

Lemma unseal_changed (k iv data sealed' k' iv' : list byte) :
  one_changed (Model.seal k iv data) sealed' ->
  Model.unseal k' iv' sealed' = None.
Proof.
  intros Hchanged.
  destruct (Model.unseal k' iv' sealed') as [data'|] eqn:Hopen; [|reflexivity].
  exfalso.
  apply unseal_parts in Hopen as (body' & sum' & -> & -> & _).
  unfold Model.seal in Hchanged. cbv zeta in Hchanged.
  set (body := Model.frame k ++ Model.frame iv ++ data) in Hchanged.
  apply one_changed_app in Hchanged
    as [(body'' & Heq & Hch)|(last' & Heq & Hch)].
  - apply app_inj_tail in Heq as [<- Hsum].
    now apply (checksum_changed _ _ Hch).
  - destruct Hch as (pre & x & y & post & Hl & -> & Hxy).
    destruct pre as [|? [|]]; try discriminate.
    injection Hl as <- <-. simpl in Heq.
    apply app_inj_tail in Heq as [<- Hsum]. now apply Hxy.
Qed.

Lemma key_of_apart (material material' salt salt' : list byte)
    (iterations : Z) :
  Model.key_of material salt iterations
  = Model.key_of material' salt' iterations ->
  salt = salt'
  /\ ((length material <= 64)%nat -> (length material' <= 64)%nat ->
      hmac_key material = hmac_key material').
Proof.
  unfold Model.key_of. intros Hsame.
  apply app_inj_1 in Hsame as [Hkey Hsalt].
  2: { rewrite !length_take, !length_app, !length_replicate. lia. }
  split; [exact Hsalt|]. intros Hm Hm'. unfold hmac_key.
  rewrite !take_app, !take_replicate in Hkey.
  rewrite !take_ge in Hkey by assumption.
  now rewrite !Nat.min_l in Hkey by lia.
Qed.

#[global] Instance model_ideal : Ideal := {|
  opens_only_sealed := unseal_only_sealed;
  sealed_apart := seal_apart;
  tamper_evident := unseal_changed;
  keys_apart := key_of_apart
|}.

(** * The statements on concrete input

    Each statement above that has hypotheses is applied here to a concrete
    world on the executable platform, and each claim that fails is refuted on
    explicit input. *)

Import PasswordManager.

Lemma empty_payload_serializable : JSON_serializable empty_payload.
Proof. eexists. split; vm_compute; reflexivity. Defined.

Lemma empty_payload_within_limit :
  within_limit empty_payload "CorrectHorse1" (salt_at unlocked)
               (iv_at unlocked) = true.
Proof. vm_compute. reflexivity. Defined.


(** The executable [JSON] reads back every string it writes. *)
Lemma read_string_escape (cs rest : list ascii) :
  Model.read_string (Model.escape cs ++ Model.dquote :: rest) = Some (cs, rest).
Proof.
  induction cs as [|c cs IH]; [reflexivity|].
  cbn [Model.escape].
  destruct (Ascii.eqb c Model.dquote) eqn:Hq.
  - apply Ascii.eqb_eq in Hq. subst c. cbn [orb app Model.read_string].
    change (Ascii.eqb Model.backslash Model.dquote) with false.
    change (Ascii.eqb Model.backslash Model.backslash) with true.
    cbn iota. now rewrite IH.
  - destruct (Ascii.eqb c Model.backslash) eqn:Hb.
    + apply Ascii.eqb_eq in Hb. subst c. cbn [orb app Model.read_string].
      change (Ascii.eqb Model.backslash Model.dquote) with false.
      change (Ascii.eqb Model.backslash Model.backslash) with true.
      cbn iota. now rewrite IH.
    + cbn [orb app Model.read_string]. now rewrite Hq, Hb, IH.
Qed.

Lemma string_serializable (s : string) : JSON_serializable (JStr s).
Proof.
  exists (string_of_list_ascii (Model.quote s)). split; [reflexivity|].
  unfold JSON_parse, model_platform, Model.parse.
  rewrite list_ascii_of_string_of_list_ascii.
  unfold Model.quote at 2. cbn [Model.read_value].
  change (Ascii.eqb Model.dquote Model.dquote) with true. cbn iota.
  change [Model.dquote] with (Model.dquote :: []).
  rewrite read_string_escape.
  now rewrite string_of_list_ascii_of_string.
Qed.


Lemma thirteen_bytes :
  (length (TextEncoder_encode "CorrectHorse1") <= 64)%nat.
Proof. vm_compute. lia. Defined.

Lemma eleven_bytes : (length (TextEncoder_encode "WrongHorse1") <= 64)%nat.
Proof. vm_compute. lia. Defined.

Lemma other_hmac_key :
  hmac_key (TextEncoder_encode "WrongHorse1")
  <> hmac_key (TextEncoder_encode "CorrectHorse1").
Proof. vm_compute. discriminate. Defined.



Lemma gym_within_limit :
  fits (with_vault [added gym unlocked] default_names unlocked) = true.
Proof. vm_compute. reflexivity. Defined.

(** On an empty vault, adding a record under a category that is not in the
    set breaks the invariant; so the claim fails. *)
Lemma C3_counterexample :
  categories_valid (this unlocked)
  /\ (exists w',
         run (AddRecord gym) unlocked = (Ok tt, w')
         /\ ~ categories_valid (this w'))
  /\ ~ C3_as_stated.
Proof.
  split; [apply unlocked_valid|].
  split; [exact (addRecord_outside_set gym_within_limit)
         |exact (C3_as_stated_fails gym_within_limit)].
Qed.

Lemma C3_witness :
  categories_valid (this unlocked)
  /\ categories (this unlocked) = JArr default_names
  /\ admissible default_names (AddRecord work_fields)
  /\ categories_valid (this (snd (run (AddRecord work_fields) unlocked)))
  /\ (fst (run (AddRecord work_fields) unlocked) = Ok tt
      \/ fst (run (AddRecord work_fields) unlocked) = Throw RangeError).
Proof.
  assert (categories_valid (this unlocked)) as Hvalid
    by (eexists _, _; repeat split; constructor).
  assert (admissible default_names (AddRecord work_fields)) as Hadm.
  { repeat split; try discriminate.
    apply elem_of_cons. right. apply elem_of_cons. now left. }
  split; [exact Hvalid|]. split; [reflexivity|]. split; [exact Hadm|].
  exact (C3_invariant_kept_when_admissible unlocked (AddRecord work_fields)
           default_names Hvalid eq_refl Hadm).
Defined.

Lemma two_records_vault :
  vault (this with_two_records) [bank_record; mail_record] default_names.
Proof. repeat split; repeat constructor. Defined.

Lemma C4_witness :
  vault (this with_two_records) [bank_record; mail_record] default_names
  /\ [bank_record; mail_record] !! 0%nat = Some bank_record
  /\ Get bank_record "category" = Ok (JStr "Banking")
  /\ exists w' xs' names' r',
       snd (deleteCategory "Banking" with_two_records) = w'
       /\ (fst (deleteCategory "Banking" with_two_records) = Ok tt
           <-> fits (with_vault xs' names' with_two_records) = true)
       /\ passwords (this w') = JArr xs'
       /\ categories (this w') = JArr names'
       /\ length xs' = length [bank_record; mail_record]
       /\ xs' !! 0%nat = Some r'
       /\ Get r' "category" = Ok (JStr "Other")
       /\ (forall k, k <> "category"%string -> Get r' k = Get bank_record k)
       /\ JStr "Banking" ∉ names'.
Proof.
  split; [exact two_records_vault|]. split; [reflexivity|].
  split; [reflexivity|].
  exact (C4_deleteCategory_reassigns with_two_records _ _ "Banking" 0
           bank_record two_records_vault eq_refl eq_refl).
Defined.


Lemma one_record_vault :
  vault (this with_one_record) [example_record] default_names.
Proof. repeat split; repeat constructor. Defined.


Lemma C7_witness :
  (String.length "short" < 8)%nat
  /\ localStorage world0 !! "masterPasswordHash"%string = None
  /\ setupMasterPassword "short" world0 = (Throw WeakPasswordError, world0)
  /\ localStorage (snd (setupMasterPassword "short" world0))
       !! "masterPasswordHash"%string = None.
Proof.
  assert (String.length "short" < 8)%nat as Hshort by (simpl; lia).
  assert (localStorage world0 !! "masterPasswordHash"%string = None)
    as Hnone by apply lookup_empty.
  destruct (C7_setup_rejects_short_password "short" world0 Hshort)
    as [Hthrow Hstore].
  split; [exact Hshort|]. split; [exact Hnone|].
  split; [exact Hthrow|exact (Hstore Hnone)].
Defined.

(** With the empty string for a filter, the search returns a record of
    another category; so the claim fails. *)
Lemma C8_counterexample :
  searchPasswords (JStr "bank") (JStr "") with_two_records
  = (Ok (JArr [bank_record]), with_two_records)
  /\ field bank_record "category" = JStr "Banking"
  /\ ~ C8_as_stated.
Proof.
  split; [apply search_with_empty_filter|].
  split; [reflexivity|apply C8_as_stated_fails].
Qed.

Lemma C8_witness :
  passwords (this with_two_records) = JArr [bank_record; mail_record]
  /\ Forall searchable [bank_record; mail_record]
  /\ (forall p, searchable p ->
        (selectedb "BANK" (JStr "All") p = true
         <-> selected "BANK" (JStr "All") p))
  /\ searchPasswords (JStr "BANK") (JStr "All") with_two_records
     = (Ok (JArr (List.filter (selectedb "BANK" (JStr "All"))
                              [bank_record; mail_record])),
        with_two_records).
Proof.
  split; [reflexivity|]. split; [exact two_records_searchable|].
  exact (C8_search_selects with_two_records [bank_record; mail_record]
           "BANK" (JStr "All") eq_refl two_records_searchable).
Defined.

Lemma no_record_42 :
  Forall (fun p => strict_equal (field p "id") (JStr "42") = false)
         [example_record].
Proof. repeat constructor. Defined.

Lemma one_record_within_limit : fits with_one_record = true.
Proof. vm_compute. reflexivity. Defined.


Lemma large_record_vault :
  vault (this with_large_record) [large_record] default_names.
Proof. repeat split; repeat constructor. Defined.


Lemma C10_witness :
  localStorage with_bare_store !! "encryptedData"%string = Some bare_blob
  /\ bare_blob <> EmptyString
  /\ CryptoManager.decrypt bare_blob
       (USVString (masterPassword (this with_bare_store))) = Ok (JObj [])
  /\ exists w',
       loadData with_bare_store = (Ok tt, w')
       /\ passwords (this w') = JArr []
       /\ categories (this w') = categories (this with_bare_store)
       /\ localStorage w' = localStorage with_bare_store.
Proof.
  assert (localStorage with_bare_store !! "encryptedData"%string
          = Some bare_blob) as Hstore by apply lookup_insert_eq.
  assert (bare_blob <> EmptyString) as Hne by (vm_compute; discriminate).
  assert (CryptoManager.decrypt bare_blob
            (USVString (masterPassword (this with_bare_store)))
          = Ok (JObj [])) as Hdec by (vm_compute; reflexivity).
  split; [exact Hstore|]. split; [exact Hne|]. split; [exact Hdec|].
  destruct (C10_loadData_defaults with_bare_store bare_blob [] Hstore Hne Hdec)
    as (w' & Hrun & _ & _ & Hps & Hcs & Hls).
  exists w'. split; [exact Hrun|].
  split; [exact (Hps eq_refl)|]. split; [exact (Hcs eq_refl)|exact Hls].
Defined.

Lemma lock_leaves_category_names :
  fst (lock with_own_category) = Ok tt
  /\ passwords (this (snd (lock with_own_category))) = JArr []
  /\ categories (this (snd (lock with_own_category)))
     = JArr (default_names ++ [JStr "Clinic"]).
Proof. repeat split. Qed.

(** * More statements on concrete input *)

Lemma thirteen_code_units : (8 <= String.length "CorrectHorse1")%nat.
Proof. simpl. lia. Defined.

Lemma fresh_page_renderable : renderable (this world0) [] default_names.
Proof. repeat split; repeat constructor. Defined.

Lemma fresh_page_within_limit :
  within_limit (payload (this world0)) "CorrectHorse1" (salt_at world0)
               (iv_at world0) = true.
Proof. vm_compute. reflexivity. Defined.

Lemma setup_returns :
  fst (setupMasterPassword "CorrectHorse1" world0) = Ok tt.
Proof.
  exact (setupMasterPassword_Ok "CorrectHorse1" world0 [] default_names
           thirteen_code_units fresh_page_renderable fresh_page_within_limit).
Defined.

Lemma returning_verifier :
  localStorage returning !! "masterPasswordHash"%string
  = Some (CryptoManager.hashPassword "CorrectHorse1").
Proof.
  unfold returning, reloaded. simpl.
  rewrite lookup_insert_ne by discriminate. apply lookup_insert_eq.
Defined.

Lemma returning_holds_sealed :
  holds_sealed returning (this unlocked) "CorrectHorse1".
Proof.
  exists (salt_at unlocked), (iv_at unlocked).
  split; [reflexivity|]. split; [reflexivity|]. apply lookup_insert_eq.
Defined.

Lemma empty_vault_renderable : renderable (this unlocked) [] default_names.
Proof. repeat split; repeat constructor. Defined.

Lemma corrupted_verifier :
  localStorage corrupted !! "masterPasswordHash"%string
  = Some (CryptoManager.hashPassword "CorrectHorse1").
Proof.
  unfold corrupted, reloaded. simpl.
  rewrite lookup_insert_ne by discriminate. apply lookup_insert_eq.
Defined.

Lemma corrupted_blob :
  localStorage corrupted !! "encryptedData"%string = Some "AAAA"%string.
Proof. apply lookup_insert_eq. Defined.

Lemma corrupted_rejected :
  CryptoManager.decrypt "AAAA" "CorrectHorse1" = Throw DecryptionError.
Proof. vm_compute. reflexivity. Defined.

Lemma fresh_page_timers : timer_invariant world0.
Proof. reflexivity. Defined.

Lemma opened_listeners : (4 <= listeners opened)%nat.
Proof.
  unfold opened.
  rewrite (setupMasterPassword_returns _ _ thirteen_code_units setup_returns).
  simpl. lia.
Defined.

Lemma empty_vault_within_limit : fits unlocked = true.
Proof. vm_compute. reflexivity. Defined.

Lemma saved_well_formed : well_formed (snd (saveData unlocked)).
Proof.
  exists [], default_names. rewrite saveData_this. repeat split. constructor.
Defined.

Lemma saved_persisted : persisted (snd (saveData unlocked)).
Proof. exact (saveData_persisted unlocked empty_vault_within_limit). Defined.

Lemma fresh_page_well_formed : well_formed world0.
Proof. exists [], default_names. repeat split. constructor. Defined.

Lemma three_operations_fit :
  within_limits [AddRecord work_fields; AddCategory "Clinic";
                 DeleteCategory "Work"]
                (snd (saveData unlocked)).
Proof. repeat split; vm_compute; discriminate. Defined.

Lemma operation_fits_after_setup :
  within_limits [AddRecord work_fields]
                (snd (setupMasterPassword "CorrectHorse1" world0)).
Proof. repeat split; vm_compute; discriminate. Defined.

Lemma used_serializable :
  JSON_serializable
    (payload (this (after (map Operation [AddRecord work_fields])
                          (snd (setupMasterPassword "CorrectHorse1"
                                  world0))))).
Proof. eexists. split; vm_compute; reflexivity. Defined.

Lemma used_renderable :
  renderable (this (after (map Operation [AddRecord work_fields])
                          (snd (setupMasterPassword "CorrectHorse1" world0))))
             [added work_fields
                    (snd (setupMasterPassword "CorrectHorse1" world0))]
             default_names.
Proof.
  split; [vm_compute; reflexivity|]. split; [vm_compute; reflexivity|].
  split; repeat constructor.
Defined.

Lemma work_fields_defined : work_fields <> JUndefined /\ work_fields <> JNull.
Proof. split; discriminate. Defined.

Lemma gym_defined : gym <> JUndefined /\ gym <> JNull.
Proof. split; discriminate. Defined.

Lemma frozen_vault :
  vault (this frozen) [bank_record; mail_record] default_names.
Proof. repeat split; repeat constructor. Defined.

Lemma mail_record_second :
  first_with_id (JStr "1700000000000") [bank_record; mail_record] 1 mail_record.
Proof.
  split; [reflexivity|]. split; [reflexivity|].
  intros [|j] q Hj Hq; [|lia]. injection Hq as <-. reflexivity.
Defined.

Lemma two_records_renderable :
  renderable (this with_two_records) [bank_record; mail_record] default_names.
Proof. repeat split; repeat constructor. Defined.

Lemma no_record_seven :
  Forall (fun p => strict_equal (field p "id") (JStr "7") = false)
         [bank_record; mail_record].
Proof. repeat constructor. Defined.

Lemma Clinic_is_new : JStr "Clinic" ∉ default_names.
Proof.
  rewrite list_elem_of_In. simpl. intuition discriminate.
Defined.

Lemma default_names_distinct : NoDup default_names.
Proof.
  unfold default_names.
  repeat (constructor;
          [rewrite list_elem_of_In; simpl; intuition discriminate|]).
  constructor.
Defined.

Lemma no_record_in_Clinic :
  Forall (fun p => field p "category" <> JStr "Clinic")
         [bank_record; mail_record].
Proof. repeat constructor; discriminate. Defined.

Lemma next_salt_differs :
  salt_at unlocked <> salt_at (with_drawn 28 unlocked)
  \/ iv_at unlocked <> iv_at (with_drawn 28 unlocked).
Proof. left. vm_compute. discriminate. Defined.

Lemma digest_not_empty :
  SHA256 (TextEncoder_encode "CorrectHorse1") <> [].
Proof. vm_compute. discriminate. Defined.

Lemma first_blob :
  fst (CryptoManager.encrypt empty_payload "CorrectHorse1" unlocked)
  = Ok stored0.
Proof.
  rewrite encrypt_run, empty_payload_within_limit.
  assert (sealed empty_payload "CorrectHorse1" (salt_at unlocked)
                 (iv_at unlocked) = stored0) as ->
    by (vm_compute; reflexivity).
  reflexivity.
Defined.

Lemma second_blob :
  fst (CryptoManager.encrypt empty_payload "CorrectHorse1"
         (with_drawn 28 unlocked))
  = Ok (sealed empty_payload "CorrectHorse1"
               (salt_at (with_drawn 28 unlocked))
               (iv_at (with_drawn 28 unlocked))).
Proof.
  rewrite encrypt_run.
  assert (within_limit empty_payload "CorrectHorse1"
                       (salt_at (with_drawn 28 unlocked))
                       (iv_at (with_drawn 28 unlocked)) = true) as ->
    by (vm_compute; reflexivity).
  reflexivity.
Defined.

Lemma setup_opens_session_witness :
  ((8 <= String.length "CorrectHorse1")%nat)
  /\ (renderable (this world0) [] default_names)
  /\ (within_limit (payload (this world0)) "CorrectHorse1"
        (salt_at world0) (iv_at world0) =
      true)
  /\ (∃ w' : World,
        setupMasterPassword "CorrectHorse1" world0 = (Ok (), w')
        ∧ localStorage w' !! "masterPasswordHash" =
          Some (CryptoManager.hashPassword "CorrectHorse1")
          ∧ persisted w'
            ∧ masterPassword (this w') = Some "CorrectHorse1"
              ∧ isLocked (this w') = false
                ∧ passwords (this w') = passwords (this world0)
                  ∧ categories (this w') = categories (this world0)
                    ∧ screen w' = MainApp
                      ∧ sessionTimeout (this w') =
                        Some (next_timer world0)
                        ∧ next_timer world0 ∈ timers w'
                          ∧ (JSON_serializable (payload (this world0))
                             → ∃ blob : string,
                                 localStorage w' !! "encryptedData" =
                                 Some blob
                                 ∧ CryptoManager.decrypt blob
                                     "CorrectHorse1" =
                                   Ok (payload (this world0)))).
Proof.
  split; [exact thirteen_code_units|].
  split; [exact fresh_page_renderable|].
  split; [exact fresh_page_within_limit|].
  exact (setup_opens_session "CorrectHorse1" world0 [] default_names
           thirteen_code_units fresh_page_renderable fresh_page_within_limit).
Defined.

Lemma login_refuses_other_digest_witness :
  (localStorage returning !! "masterPasswordHash"%string = None
   \/ exists password,
        localStorage returning !! "masterPasswordHash"%string
          = Some (CryptoManager.hashPassword password)
        /\ SHA256 (TextEncoder_encode "correcthorse1")
           <> SHA256 (TextEncoder_encode password))
  /\ login "correcthorse1" returning = (Throw AuthenticationError, returning).
Proof.
  assert (localStorage returning !! "masterPasswordHash"%string = None
          \/ exists password,
               localStorage returning !! "masterPasswordHash"%string
                 = Some (CryptoManager.hashPassword password)
               /\ SHA256 (TextEncoder_encode "correcthorse1")
                  <> SHA256 (TextEncoder_encode password)) as Hstored.
  { right. exists "CorrectHorse1"%string. split; [exact returning_verifier|].
    vm_compute. discriminate. }
  split; [exact Hstored|].
  exact (login_refuses_other_digest "correcthorse1" returning Hstored).
Defined.

Lemma login_restores_stored_vault_witness :
  (localStorage returning !! "masterPasswordHash" =
      Some (CryptoManager.hashPassword "CorrectHorse1"))
  /\ (holds_sealed returning (this unlocked) "CorrectHorse1")
  /\ (JSON_serializable empty_payload)
  /\ (renderable (this unlocked) [] default_names)
  /\ (∃ w' : World,
        login "CorrectHorse1" returning = (Ok (), w')
        ∧ passwords (this w') = JArr []
          ∧ categories (this w') = JArr default_names
            ∧ masterPassword (this w') = Some "CorrectHorse1"
              ∧ isLocked (this w') = false
                ∧ screen w' = MainApp
                  ∧ sessionTimeout (this w') = Some (next_timer returning)
                    ∧ localStorage w' = localStorage returning).
Proof.
  split; [exact returning_verifier|].
  split; [exact returning_holds_sealed|].
  split; [exact empty_payload_serializable|].
  split; [exact empty_vault_renderable|].
  exact (login_restores_stored_vault "CorrectHorse1" returning
           (this unlocked) [] default_names returning_verifier
           returning_holds_sealed empty_payload_serializable
           empty_vault_renderable).
Defined.

Lemma login_unlocked_after_failed_decrypt_witness :
  localStorage corrupted !! "masterPasswordHash"%string
    = Some (CryptoManager.hashPassword "CorrectHorse1")
  /\ localStorage corrupted !! "encryptedData"%string = Some "AAAA"%string
  /\ CryptoManager.decrypt "AAAA" "CorrectHorse1" = Throw DecryptionError
  /\ exists w',
       login "CorrectHorse1" corrupted = (Throw DecryptionError, w')
       /\ isLocked (this w') = false
       /\ masterPassword (this w') = Some "CorrectHorse1"%string
       /\ passwords (this w') = passwords (this corrupted)
       /\ categories (this w') = categories (this corrupted)
       /\ sessionTimeout (this w') = sessionTimeout (this corrupted)
       /\ timers w' = timers corrupted
       /\ listeners w' = listeners corrupted
       /\ screen w' = screen corrupted.
Proof.
  split; [exact corrupted_verifier|]. split; [exact corrupted_blob|].
  split; [exact corrupted_rejected|].
  assert ("AAAA"%string <> EmptyString) as Hne by discriminate.
  exact (login_unlocked_after_failed_decrypt "CorrectHorse1" "AAAA"
           DecryptionError corrupted corrupted_verifier corrupted_blob Hne
           corrupted_rejected).
Defined.

Lemma one_session_timeout_pending_witness :
  timer_invariant world0
  /\ timer_invariant
       (after [SetupSubmitted "CorrectHorse1" "CorrectHorse1"; Activity;
               Operation (AddRecord work_fields); LockClicked;
               LoginSubmitted "CorrectHorse1"; Activity]
              world0).
Proof.
  split; [exact fresh_page_timers|].
  exact (one_session_timeout_pending _ world0 fresh_page_timers).
Defined.

Lemma session_expires_after_setup_witness :
  ((8 <= String.length "CorrectHorse1")%nat)
  /\ (timer_invariant world0)
  /\ ((setupMasterPassword "CorrectHorse1" world0).1 = Ok ())
  /\ (let opened := (setupMasterPassword "CorrectHorse1" world0).2 in
      ∃ (t : positive) (w' : World),
        sessionTimeout (this opened) = Some t
        ∧ timers opened = {[t]}
          ∧ Page.timeout_expires t opened = (Ok (), w')
            ∧ isLocked (this w') = true
              ∧ masterPassword (this w') = None
                ∧ passwords (this w') = JArr []
                  ∧ sessionTimeout (this w') = None
                    ∧ timers w' = ∅
                      ∧ screen w' = LoginScreen
                        ∧ localStorage w' = localStorage opened).
Proof.
  split; [exact thirteen_code_units|].
  split; [exact fresh_page_timers|].
  split; [exact setup_returns|].
  exact (session_expires_after_setup "CorrectHorse1" world0
           thirteen_code_units fresh_page_timers setup_returns).
Defined.

Lemma activity_after_lock_arms_timeout_witness :
  (4 <= listeners opened)%nat
  /\ listeners (snd (lock opened)) = listeners opened
  /\ sessionTimeout (this (snd (lock opened))) = None
  /\ isLocked (this (snd (Page.activity (snd (lock opened))))) = true
  /\ exists t,
       sessionTimeout (this (snd (Page.activity (snd (lock opened))))) = Some t
       /\ t ∈ timers (snd (Page.activity (snd (lock opened)))).
Proof.
  split; [exact opened_listeners|].
  exact (activity_after_lock_arms_timeout opened opened_listeners).
Defined.

Lemma store_follows_operations_witness :
  (well_formed (saveData unlocked).2)
  /\ (persisted (saveData unlocked).2)
  /\ (within_limits
        [AddRecord work_fields; AddCategory "Clinic";
         DeleteCategory "Work"]
        (saveData unlocked).2)
  /\ (let w' :=
        after
          (map Operation
             [AddRecord work_fields; AddCategory "Clinic";
              DeleteCategory "Work"])
          (saveData unlocked).2
        in
      well_formed w'
      ∧ persisted w'
        ∧ masterPassword (this w') =
          masterPassword (this (saveData unlocked).2)).
Proof.
  split; [exact saved_well_formed|].
  split; [exact saved_persisted|].
  split; [exact three_operations_fit|].
  exact (store_follows_operations _ _ saved_well_formed saved_persisted
           three_operations_fit).
Defined.

Lemma vault_survives_lock_and_login_witness :
  ((8 <= String.length "CorrectHorse1")%nat)
  /\ (well_formed world0)
  /\ ((setupMasterPassword "CorrectHorse1" world0).1 = Ok ())
  /\ (within_limits [AddRecord work_fields]
        (setupMasterPassword "CorrectHorse1" world0).2)
  /\ (JSON_serializable
        (payload
           (this
              (after (map Operation [AddRecord work_fields])
                 (setupMasterPassword "CorrectHorse1" world0).2))))
  /\ (renderable
        (this
           (after (map Operation [AddRecord work_fields])
              (setupMasterPassword "CorrectHorse1" world0).2))
        [added work_fields (setupMasterPassword "CorrectHorse1" world0).2]
        default_names)
  /\ (∃ w' : World,
        login "CorrectHorse1"
          (lock
             (after (map Operation [AddRecord work_fields])
                (setupMasterPassword "CorrectHorse1" world0).2)).2 =
        (Ok (), w')
        ∧ passwords
            (this
               (lock
                  (after (map Operation [AddRecord work_fields])
                     (setupMasterPassword "CorrectHorse1" world0).2)).2) =
          JArr []
          ∧ passwords (this w') =
            passwords
              (this
                 (after (map Operation [AddRecord work_fields])
                    (setupMasterPassword "CorrectHorse1" world0).2))
            ∧ categories (this w') =
              categories
                (this
                   (after (map Operation [AddRecord work_fields])
                      (setupMasterPassword "CorrectHorse1" world0).2))
              ∧ masterPassword (this w') = Some "CorrectHorse1"
                ∧ isLocked (this w') = false).
Proof.
  split; [exact thirteen_code_units|].
  split; [exact fresh_page_well_formed|].
  split; [exact setup_returns|].
  split; [exact operation_fits_after_setup|].
  split; [exact used_serializable|].
  split; [exact used_renderable|].
  exact (vault_survives_lock_and_login "CorrectHorse1"
           [AddRecord work_fields] world0 _ _ thirteen_code_units
           fresh_page_well_formed setup_returns operation_fits_after_setup
           used_serializable used_renderable).
Defined.

Lemma addPassword_ignores_lock_witness :
  (work_fields ≠ JUndefined)
  /\ (work_fields ≠ JNull)
  /\ (let locked := (lock with_two_records).2 in
      let w' := (addPassword work_fields locked).2 in
      isLocked (this w') = true
      ∧ masterPassword (this w') = None
        ∧ passwords (this w') = JArr [added work_fields locked]
          ∧ ((addPassword work_fields locked).1 =
             Ok (added work_fields locked)
             ∨ (addPassword work_fields locked).1 = Throw RangeError)
            ∧ ((addPassword work_fields locked).1 =
               Ok (added work_fields locked)
               → localStorage w' !! "encryptedData" =
                 Some
                   (sealed (payload (this w')) "null" 
                      (salt_at locked) (iv_at locked)))).
Proof.
  split; [exact (proj1 work_fields_defined)|].
  split; [exact (proj2 work_fields_defined)|].
  exact (addPassword_ignores_lock work_fields with_two_records
           (proj1 work_fields_defined) (proj2 work_fields_defined)).
Defined.

Lemma deletePassword_removes_every_match_witness :
  (vault (this with_two_records) [bank_record; mail_record]
        default_names)
  /\ (let w' := (deletePassword (JStr "1700000000001") with_two_records).2
        in
      ∃ xs' : list value,
        passwords (this w') = JArr xs'
        ∧ categories (this w') = JArr default_names
          ∧ xs' `sublist_of` [bank_record; mail_record]
            ∧ (∀ p : value,
                 p ∈ xs'
                 ↔ p ∈ [bank_record; mail_record]
                   ∧ strict_equal (field p "id") (JStr "1700000000001") =
                     false)
              ∧ ((deletePassword (JStr "1700000000001") with_two_records).1 =
                 Ok ()
                 ↔ fits (with_vault xs' default_names with_two_records) =
                   true)
                ∧ ((deletePassword (JStr "1700000000001") with_two_records).1 =
                   Ok ()
                   ∨ (deletePassword (JStr "1700000000001")
                        with_two_records).1 =
                     Throw RangeError)
                  ∧ ((deletePassword (JStr "1700000000001")
                        with_two_records).1 =
                     Ok () → persisted w')).
Proof.
  split; [exact two_records_vault|].
  exact (deletePassword_removes_every_match (JStr "1700000000001")
           with_two_records _ _ two_records_vault).
Defined.

Lemma same_millisecond_same_id_witness :
  (vault (this frozen) [bank_record; mail_record] default_names)
  /\ (work_fields ≠ JUndefined)
  /\ (work_fields ≠ JNull)
  /\ (gym ≠ JUndefined)
  /\ (gym ≠ JNull)
  /\ (clock frozen (S (S (S (ticks frozen)))) =
      clock frozen (ticks frozen))
  /\ (let w1 := (addPassword work_fields frozen).2 in
      let w2 := (addPassword gym w1).2 in
      let id := JStr (pretty (clock frozen (ticks frozen))) in
      ∃ r1 r2 : value,
        ((addPassword work_fields frozen).1 = Ok r1
         ∨ (addPassword work_fields frozen).1 = Throw RangeError)
        ∧ ((addPassword gym w1).1 = Ok r2
           ∨ (addPassword gym w1).1 = Throw RangeError)
          ∧ passwords (this w2) = JArr [r2; r1; bank_record; mail_record]
            ∧ field r1 "id" = id
              ∧ field r2 "id" = id
                ∧ passwords (this (deletePassword id w2).2) =
                  JArr (remaining id [bank_record; mail_record])
                  ∧ ∀ updates : value,
                      ∃ r2' : value,
                        passwords (this (updatePassword id updates w2).2) =
                        JArr [r2'; r1; bank_record; mail_record]).
Proof.
  split; [exact frozen_vault|].
  split; [exact (proj1 work_fields_defined)|].
  split; [exact (proj2 work_fields_defined)|].
  split; [exact (proj1 gym_defined)|].
  split; [exact (proj2 gym_defined)|].
  split; [reflexivity|].
  exact (same_millisecond_same_id work_fields gym frozen _ _ frozen_vault
           (proj1 work_fields_defined) (proj2 work_fields_defined)
           (proj1 gym_defined) (proj2 gym_defined) eq_refl).
Defined.

Lemma updatePassword_rewrites_one_record_witness :
  (vault (this with_two_records) [bank_record; mail_record]
        default_names)
  /\ (first_with_id (JStr "1700000000000") [bank_record; mail_record] 1
        mail_record)
  /\ (let w' :=
        (updatePassword (JStr "1700000000000") rename with_two_records).2
        in
      ∃ (xs' : list value) (r' : value),
        passwords (this w') = JArr xs'
        ∧ categories (this w') = JArr default_names
          ∧ length xs' = length [bank_record; mail_record]
            ∧ xs' !! 1%nat = Some r'
              ∧ (∀ j : nat,
                   j ≠ 1%nat → xs' !! j = [bank_record; mail_record] !! j)
                ∧ (∀ k : string,
                     k ≠ "lastModified"
                     → (∀ v : value, (k, v) ∉ own_props rename)
                       → field r' k = field mail_record k)
                  ∧ ((updatePassword (JStr "1700000000000") rename
                        with_two_records).1 =
                     Ok ()
                     ↔ fits
                         (with_vault xs' default_names with_two_records) =
                       true)
                    ∧ ((updatePassword (JStr "1700000000000") rename
                          with_two_records).1 =
                       Ok ()
                       ∨ (updatePassword (JStr "1700000000000") rename
                            with_two_records).1 =
                         Throw RangeError)
                      ∧ ((updatePassword (JStr "1700000000000") rename
                            with_two_records).1 =
                         Ok () → persisted w')).
Proof.
  split; [exact two_records_vault|].
  split; [exact mail_record_second|].
  exact (updatePassword_rewrites_one_record with_two_records _ _
           (JStr "1700000000000") rename 1 mail_record two_records_vault
           mail_record_second).
Defined.

Lemma form_edit_keeps_id_and_createdDate_witness :
  (renderable (this with_two_records) [bank_record; mail_record]
        default_names)
  /\ (first_with_id (JStr "1700000000000") [bank_record; mail_record] 1
        mail_record)
  /\ (let toasts :=
        (Page.password_form_submit mail_form (Some "1700000000000")
           with_two_records).1
        in
      let w' :=
        (Page.password_form_submit mail_form (Some "1700000000000")
           with_two_records).2
        in
      ∃ (xs' : list value) (r' : value),
        passwords (this w') = JArr xs'
        ∧ xs' !! 1%nat = Some r'
          ∧ field r' "id" = field mail_record "id"
            ∧ field r' "createdDate" = field mail_record "createdDate"
              ∧ field r' "lastModified" =
                JStr
                  (Date_toISOString
                     (clock with_two_records (ticks with_two_records)))
                ∧ field r' "name" = JStr (Page.pwd_name mail_form)
                  ∧ field r' "website" = JStr (Page.pwd_website mail_form)
                    ∧ field r' "username" =
                      JStr (Page.pwd_username mail_form)
                      ∧ field r' "password" =
                        JStr (Page.pwd_password mail_form)
                        ∧ field r' "category" =
                          JStr (Page.pwd_category mail_form)
                          ∧ field r' "notes" =
                            JStr (Page.pwd_notes mail_form)
                            ∧ (toasts =
                               Ok
                                 [Success "Password updated successfully"]
                               ↔ fits
                                   (with_vault xs' default_names
                                      with_two_records) =
                                 true)
                              ∧ (toasts =
                                 Ok
                                   [Success
                                      "Password updated successfully"]
                                 ∨ toasts = Ok [Failure None])
                                ∧ (toasts =
                                   Ok
                                     [Success
                                        "Password updated successfully"]
                                   → persisted w')).
Proof.
  split; [exact two_records_renderable|].
  split; [exact mail_record_second|].
  exact (form_edit_keeps_id_and_createdDate mail_form "1" "700000000000"
           with_two_records _ _ 1 mail_record two_records_renderable
           mail_record_second).
Defined.

Lemma form_edit_of_missing_id_reports_success_witness :
  (vault (this with_two_records) [bank_record; mail_record]
        default_names)
  /\ (Forall (λ p : value, strict_equal (field p "id") (JStr "7") = false)
        [bank_record; mail_record])
  /\ ((∃ more : list Toast,
         Page.password_form_submit mail_form (Some "7") with_two_records =
         (Ok (Success "Password updated successfully" :: more),
          with_two_records))
      ∧ (renderable (this with_two_records) [bank_record; mail_record]
           default_names
         → Page.password_form_submit mail_form (Some "7") with_two_records =
           (Ok [Success "Password updated successfully"], with_two_records))).
Proof.
  split; [exact two_records_vault|].
  split; [exact no_record_seven|].
  exact (form_edit_of_missing_id_reports_success mail_form "7" ""
           with_two_records _ _ two_records_vault no_record_seven).
Defined.

Lemma form_adds_record_first_witness :
  (renderable (this with_two_records) [bank_record; mail_record]
        default_names)
  /\ (let toasts :=
        (Page.password_form_submit mail_form None with_two_records).1 in
      let w' :=
        (Page.password_form_submit mail_form None with_two_records).2 in
      ∃ r : value,
        passwords (this w') = JArr [r; bank_record; mail_record]
        ∧ categories (this w') = categories (this with_two_records)
          ∧ field r "id" =
            JStr
              (pretty (clock with_two_records (ticks with_two_records)))
            ∧ field r "createdDate" =
              JStr
                (Date_toISOString
                   (clock with_two_records (S (ticks with_two_records))))
              ∧ field r "name" = JStr (Page.pwd_name mail_form)
                ∧ field r "website" = JStr (Page.pwd_website mail_form)
                  ∧ field r "username" =
                    JStr (Page.pwd_username mail_form)
                    ∧ field r "password" =
                      JStr (Page.pwd_password mail_form)
                      ∧ field r "notes" = JStr (Page.pwd_notes mail_form)
                        ∧ field r "category" =
                          JStr
                            match Page.pwd_category mail_form with
                            | "" => "Other"
                            | String a s => String a s
                            end
                          ∧ (toasts =
                             Ok [Success "Password saved successfully"]
                             ↔ fits
                                 (with_vault [r; bank_record; mail_record]
                                    default_names with_two_records) =
                               true)
                            ∧ (toasts =
                               Ok [Success "Password saved successfully"]
                               ∨ toasts = Ok [Failure None])
                              ∧ (toasts =
                                 Ok
                                   [Success "Password saved successfully"]
                                 → persisted w')).
Proof.
  split; [exact two_records_renderable|].
  exact (form_adds_record_first mail_form None with_two_records _ _
           two_records_renderable (or_introl eq_refl)).
Defined.

Lemma addCategory_adds_once_witness :
  (categories (this unlocked) = JArr default_names)
  /\ (let w' := (addCategory "Clinic" unlocked).2 in
      ∃ names' : list value,
        categories (this w') = JArr names'
        ∧ passwords (this w') = passwords (this unlocked)
          ∧ JStr "Clinic" ∈ names'
            ∧ default_names `prefix_of` names'
              ∧ (NoDup default_names → NoDup names')
                ∧ (JStr "Clinic" ∈ default_names
                   → addCategory "Clinic" unlocked = (Ok (), unlocked))
                  ∧ (JStr "Clinic" ∉ default_names
                     → names' = default_names ++ [JStr "Clinic"]
                       ∧ ((addCategory "Clinic" unlocked).1 = Ok ()
                          ↔ fits
                              (with_this (set_categories (JArr names'))
                                 unlocked) =
                            true)
                         ∧ ((addCategory "Clinic" unlocked).1 = Ok ()
                            ∨ (addCategory "Clinic" unlocked).1 =
                              Throw RangeError)
                           ∧ ((addCategory "Clinic" unlocked).1 = Ok ()
                              → persisted w'))
                    ∧ addCategory "Clinic" w' = (Ok (), w')).
Proof.
  split; [reflexivity|].
  exact (addCategory_adds_once "Clinic" unlocked default_names eq_refl).
Defined.

Lemma addCategory_then_deleteCategory_witness :
  (vault (this with_two_records) [bank_record; mail_record]
        default_names)
  /\ (JStr "Clinic" ∉ default_names)
  /\ (Forall (λ p : value, field p "category" ≠ JStr "Clinic")
        [bank_record; mail_record])
  /\ (let w1 := (addCategory "Clinic" with_two_records).2 in
      let w2 := (deleteCategory "Clinic" w1).2 in
      passwords (this w2) = JArr [bank_record; mail_record]
      ∧ categories (this w2) = JArr default_names
        ∧ this w2 = this with_two_records
          ∧ ((addCategory "Clinic" with_two_records).1 = Ok ()
             ↔ fits
                 (with_vault [bank_record; mail_record]
                    (default_names ++ [JStr "Clinic"]) with_two_records) =
               true)
            ∧ ((addCategory "Clinic" with_two_records).1 = Ok ()
               ∨ (addCategory "Clinic" with_two_records).1 =
                 Throw RangeError)
              ∧ ((deleteCategory "Clinic" w1).1 = Ok ()
                 ↔ fits
                     (with_vault [bank_record; mail_record] default_names
                        w1) =
                   true)
                ∧ ((deleteCategory "Clinic" w1).1 = Ok ()
                   ∨ (deleteCategory "Clinic" w1).1 = Throw RangeError)).
Proof.
  split; [exact two_records_vault|].
  split; [exact Clinic_is_new|].
  split; [exact no_record_in_Clinic|].
  exact (addCategory_then_deleteCategory "Clinic" with_two_records _ _
           two_records_vault Clinic_is_new no_record_in_Clinic).
Defined.

Lemma deleteCategory_touches_its_records_only_witness :
  (vault (this with_two_records) [bank_record; mail_record]
        default_names)
  /\ (let w' := (deleteCategory "Banking" with_two_records).2 in
      ∃ xs' : list value,
        passwords (this w') = JArr xs'
        ∧ length xs' = length [bank_record; mail_record]
          ∧ (∀ (i : nat) (p : value),
               [bank_record; mail_record] !! i = Some p
               → field p "category" ≠ JStr "Banking" → xs' !! i = Some p)
            ∧ categories (this w') =
              JArr (without "Banking" default_names)
              ∧ (∀ c : value,
                   c ∈ default_names
                   → c ≠ JStr "Banking"
                     → c ∈ without "Banking" default_names)
                ∧ without "Banking" default_names
                  `sublist_of` default_names
                  ∧ ((deleteCategory "Banking" with_two_records).1 = Ok ()
                     ↔ fits
                         (with_vault xs' (without "Banking" default_names)
                            with_two_records) =
                       true)
                    ∧ ((deleteCategory "Banking" with_two_records).1 =
                       Ok ()
                       ∨ (deleteCategory "Banking" with_two_records).1 =
                         Throw RangeError)
                      ∧ this (deleteCategory "Banking" w').2 = this w'
                        ∧ ((deleteCategory "Banking" w').1 = Ok ()
                           ↔ fits
                               (with_vault xs'
                                  (without "Banking" default_names) w') =
                             true)
                          ∧ ((deleteCategory "Banking" w').1 = Ok ()
                             ∨ (deleteCategory "Banking" w').1 =
                               Throw RangeError)).
Proof.
  split; [exact two_records_vault|].
  exact (deleteCategory_touches_its_records_only "Banking" with_two_records
           _ _ two_records_vault).
Defined.

Lemma categories_stay_distinct_witness :
  vault (this with_two_records) [bank_record; mail_record] default_names
  /\ NoDup default_names
  /\ exists names',
       categories (this (snd (run (AddCategory "Clinic") with_two_records)))
       = JArr names'
       /\ NoDup names'.
Proof.
  split; [exact two_records_vault|]. split; [exact default_names_distinct|].
  exact (categories_stay_distinct (AddCategory "Clinic") with_two_records
           _ _ two_records_vault default_names_distinct).
Defined.

Lemma encrypt_blobs_differ_with_salt_or_nonce_witness :
  (salt_at unlocked ≠ salt_at (with_drawn 28 unlocked)
      ∨ iv_at unlocked ≠ iv_at (with_drawn 28 unlocked))
  /\ ((CryptoManager.encrypt empty_payload "CorrectHorse1" unlocked).1 =
      Ok stored0)
  /\ ((CryptoManager.encrypt empty_payload "CorrectHorse1"
         (with_drawn 28 unlocked)).1 =
      Ok
        (sealed empty_payload "CorrectHorse1"
           (salt_at (with_drawn 28 unlocked))
           (iv_at (with_drawn 28 unlocked))))
  /\ (stored0
      ≠ sealed empty_payload "CorrectHorse1"
          (salt_at (with_drawn 28 unlocked))
          (iv_at (with_drawn 28 unlocked))).
Proof.
  split; [exact next_salt_differs|].
  split; [exact first_blob|].
  split; [exact second_blob|].
  exact (encrypt_blobs_differ_with_salt_or_nonce empty_payload empty_payload
           "CorrectHorse1" "CorrectHorse1" unlocked (with_drawn 28 unlocked)
           _ _ next_salt_differs first_blob second_blob).
Defined.

Lemma strength_meter_levels_witness :
  "correct horse battery"%string <> EmptyString
  /\ exists meter',
       updatePasswordStrength "correct horse battery"
         (mkStrengthMeter "" "" "") = Ok meter'
       /\ text_textContent meter' = "Strong"%string
       /\ (text_textContent meter' = "Very Strong"%string
           <-> (5 <= strength "correct horse battery")%nat).
Proof.
  assert ("correct horse battery"%string <> EmptyString) as Hne
    by discriminate.
  split; [exact Hne|].
  destruct (strength_meter_levels "correct horse battery"
              (mkStrengthMeter "" "" "")) as (meter' & Hrun & Hlevels).
  exists meter'. split; [exact Hrun|]. split.
  - vm_compute in Hrun. injection Hrun as <-. reflexivity.
  - exact (proj1 (Hlevels Hne)).
Defined.

Lemma setup_form_outcomes_witness :
  "CorrectHorse1"%string <> "CorrectHorse2"%string
  /\ Page.setup_form_submit "CorrectHorse1" "CorrectHorse2" world0
     = (Ok [Failure (Some "Passwords do not match"%string)], world0)
  /\ (String.length "horse" < 8)%nat
  /\ Page.setup_form_submit "horse" "horse" world0
     = (Ok [Failure
              (Some "Master password must be at least 8 characters"%string)],
        world0)
  /\ exists w',
       Page.setup_form_submit "CorrectHorse1" "CorrectHorse1" world0
       = (Ok [Success "Master password created successfully"], w')
       /\ masterPassword (this w') = Some "CorrectHorse1"%string
       /\ isLocked (this w') = false
       /\ screen w' = MainApp.
Proof.
  assert ("CorrectHorse1"%string <> "CorrectHorse2"%string) as Hne
    by discriminate.
  assert (String.length "horse" < 8)%nat as Hlt by (simpl; lia).
  split; [exact Hne|].
  split;
    [exact (proj1 (setup_form_outcomes "CorrectHorse1" "CorrectHorse2" world0)
              Hne)|].
  split; [exact Hlt|].
  split;
    [exact (proj1 (proj2 (setup_form_outcomes "horse" "horse" world0))
              eq_refl Hlt)|].
  exact (proj1 (proj2 (proj2 (setup_form_outcomes "CorrectHorse1"
                                 "CorrectHorse1" world0)))
               eq_refl thirteen_code_units [] default_names
               fresh_page_renderable fresh_page_within_limit).
Defined.

Lemma corrupted_rejected_without_password :
  CryptoManager.decrypt "AAAA" (USVString (masterPassword (this corrupted)))
  = Throw DecryptionError.
Proof. vm_compute. reflexivity. Defined.

Lemma loadData_edges_witness :
  localStorage corrupted !! "encryptedData"%string = Some "AAAA"%string
  /\ CryptoManager.decrypt "AAAA" (USVString (masterPassword (this corrupted)))
     = Throw DecryptionError
  /\ loadData corrupted = (Throw DecryptionError, corrupted)
  /\ loadData world0 = (Ok tt, world0).
Proof.
  assert ("AAAA"%string <> EmptyString) as Hne by discriminate.
  split; [exact corrupted_blob|].
  split; [exact corrupted_rejected_without_password|].
  pose proof (loadData_edges corrupted) as (_ & _ & _ & _ & _ & _ & _ & _ & _ & Hthrows & _).
  pose proof (loadData_edges world0) as (_ & _ & _ & _ & _ & _ & _ & _ & Habsent & _).
  split.
  - exact (Hthrows "AAAA"%string DecryptionError corrupted_blob Hne
             corrupted_rejected_without_password).
  - apply Habsent. left. reflexivity.
Defined.

Lemma escapeHtml_escapes_brackets_not_quotes_witness :
  escapeHtml "it's 7 o'clock" = "it's 7 o'clock"%string
  /\ occurrences "<" (escapeHtml "<b>it's</b>") = 0%nat
  /\ occurrences "'" (escapeHtml "<b>it's</b>") = 1%nat.
Proof.
  split.
  - apply (escapeHtml_escapes_brackets_not_quotes "it's 7 o'clock");
      reflexivity.
  - pose proof (escapeHtml_escapes_brackets_not_quotes "<b>it's</b>")
      as (H1 & _ & _ & H4 & _).
    split; [exact H1|]. rewrite H4. reflexivity.
Defined.

Lemma init_shows_login_after_setup_witness :
  (8 <= String.length "CorrectHorse1")%nat
  /\ SHA256 (TextEncoder_encode "CorrectHorse1") <> []
  /\ init (snd (lock (after (map Operation [AddRecord work_fields])
                            (snd (setupMasterPassword "CorrectHorse1"
                                    world0)))))
     = (Ok tt,
        with_screen LoginScreen
          (snd (lock (after (map Operation [AddRecord work_fields])
                            (snd (setupMasterPassword "CorrectHorse1"
                                    world0))))))
  /\ init world0 = (Ok tt, with_screen SetupScreen world0).
Proof.
  split; [exact thirteen_code_units|]. split; [exact digest_not_empty|].
  destruct (init_shows_login_after_setup "CorrectHorse1"
              [AddRecord work_fields] world0 thirteen_code_units
              digest_not_empty) as [Hlater Hfresh].
  split; [exact Hlater|]. apply Hfresh. left. reflexivity.
Defined.

